(** * Hough transform (TestHough/Hough.cpp): a shallow embedding and its properties

    The program builds a (rho, theta) accumulator from an 8-bit edge image,
    scans it for local maxima and maps every maximum back to a line segment.
    The embedding keeps the arithmetic of the source: [float] is IEEE-754
    binary32, [double] is binary64 (both through [SpecFloat]), [int] values are
    integers of [Z], and a [cv::Mat] is a row-major buffer addressed through
    linear offsets, exactly as the row pointers of the source address it.
    Undefined behaviour (an access outside a buffer, a float that does not fit
    the [int] it is assigned to, an [int] product or difference that is not
    an [int]) is the [None] of the option monad. *)

From Stdlib Require Import ZArith Bool Lia SpecFloat.
From stdpp Require Import base option list.

Local Open Scope Z_scope.

(** ** Floating-point arithmetic of the source *)

Module Float.

(** [float]: binary32, 24 bits of precision. *)
Definition fadd : spec_float -> spec_float -> spec_float := SFadd 24 128.
Definition fsub : spec_float -> spec_float -> spec_float := SFsub 24 128.
Definition fmul : spec_float -> spec_float -> spec_float := SFmul 24 128.
Definition fdiv : spec_float -> spec_float -> spec_float := SFdiv 24 128.

(** [double]: binary64, 53 bits of precision. *)
Definition dmul : spec_float -> spec_float -> spec_float := SFmul 53 1024.
Definition ddiv : spec_float -> spec_float -> spec_float := SFdiv 53 1024.

(** Conversions [int -> float], [int -> double], [double -> float]:
    round to nearest, ties to even. *)
Definition float_of_int (z : Z) : spec_float := binary_normalize 24 128 z 0 false.
Definition double_of_int (z : Z) : spec_float := binary_normalize 53 1024 z 0 false.
Definition float_of_double (d : spec_float) : spec_float :=
  match d with
  | S754_finite s m e => binary_round 24 128 s m e
  | _ => d
  end.

(** Truncation toward zero of a finite value. *)
Definition trunc (x : spec_float) : option Z :=
  match x with
  | S754_zero _ => Some 0
  | S754_finite s m e =>
      Some (cond_Zopp s (if 0 <=? e then Zpos m * 2 ^ e else Zpos m / 2 ^ (- e)))
  | _ => None
  end.

Definition INT_MIN : Z := - 2 ^ 31.
Definition INT_MAX : Z := 2 ^ 31 - 1.

(** The implicit conversion of a [float] or [double] to [int]: the value is
    truncated; the behaviour is undefined when the truncated value is not
    an [int] (in particular for infinities and NaN). *)
Definition int_of_float (x : spec_float) : option Z :=
  z ← trunc x;
  if (INT_MIN <=? z) && (z <=? INT_MAX) then Some z else None.

(** Arithmetic on [int]: the behaviour is undefined when the result is not
    an [int] (signed overflow). *)
Definition is_int (z : Z) : bool := (INT_MIN <=? z) && (z <=? INT_MAX).

Definition int_mul (a b : Z) : option Z :=
  if is_int (a * b) then Some (a * b) else None.

Definition int_sub (a b : Z) : option Z :=
  if is_int (a - b) then Some (a - b) else None.

Definition is_zero (x : spec_float) : bool :=
  match x with S754_zero _ => true | _ => false end.

Definition is_finite (x : spec_float) : bool :=
  match x with S754_zero _ | S754_finite _ _ _ => true | _ => false end.

(** C comparisons on floats: every comparison with a NaN is false, so
    [a != b] is the negation of [a == b]. *)
Definition feq (a b : spec_float) : bool := SFeqb a b.
Definition flt (a b : spec_float) : bool := SFltb a b.
Definition fle (a b : spec_float) : bool := SFleb a b.

Definition fzero : spec_float := S754_zero false.
Definition fone : spec_float := float_of_int 1.

(** The literals of the source. [M_PI] is the double nearest to pi,
    [0x1.921fb54442d18p+1]; a decimal literal with few digits is the
    correctly rounded quotient of two exact doubles. *)
Definition M_PI : spec_float := S754_finite false 7074237752028440 (-51).
Definition d180 : spec_float := double_of_int 180.
Definition d0_70710678 : spec_float :=
  ddiv (double_of_int 70710678) (double_of_int 100000000).

End Float.

(** ** The two libm functions the constructor calls

    [cosf] and [sinf] are not part of the program. The reference versions
    below sum the Taylor series in fixed point with [P] fractional bits and
    round the sum to binary32 once; for the arguments of the angle table
    (0 to pi) the error before rounding is far below one binary32 unit. *)

Module Libm.

Definition P : Z := 120.

(** [x * 2^P], for a finite [x]. *)
Definition fix_of_float (x : spec_float) : option Z :=
  match x with
  | S754_zero _ => Some 0
  | S754_finite s m e => Some (cond_Zopp s (Z.shiftl (Zpos m) (e + P)))
  | _ => None
  end.

(** [taylor n k t acc X2]: [t] is the term of degree [k]; the next term is
    [- t * x^2 / ((k+1) * (k+2))]. *)
Fixpoint taylor (n : nat) (k t acc X2 : Z) : Z :=
  match n with
  | O => acc
  | S n' =>
      let t' := - (t * X2 / 2 ^ P) / ((k + 1) * (k + 2)) in
      taylor n' (k + 2) t' (acc + t') X2
  end.

Definition sin_fix (X : Z) : Z := taylor 48 1 X X (X * X / 2 ^ P).
Definition cos_fix (X : Z) : Z := taylor 48 0 (2 ^ P) (2 ^ P) (X * X / 2 ^ P).

Definition sinf (x : spec_float) : spec_float :=
  match x with
  | S754_zero _ => x
  | _ =>
      match fix_of_float x with
      | Some X => binary_normalize 24 128 (sin_fix X) (- P) false
      | None => S754_nan
      end
  end.

Definition cosf (x : spec_float) : spec_float :=
  match fix_of_float x with
  | Some X => binary_normalize 24 128 (cos_fix X) (- P) false
  | None => S754_nan
  end.

End Libm.

Import Float.

(** ** Buffers and matrices

    A [cv::Mat] with one channel: its dimensions and its row-major data.
    [Mat::ptr(i)] is the offset of row [i]; [Mat::at(i, j)] and the pointer
    arithmetic of the source address the data through linear offsets, without
    any check of [i] or [j]: an access is defined exactly when the offset
    falls inside the buffer. *)

Record Mat (A : Type) : Type := mkMat { rows : Z; cols : Z; data : list A }.
Arguments mkMat {A} _ _ _.
Arguments rows {A} _.
Arguments cols {A} _.
Arguments data {A} _.

Definition load {A : Type} (buf : list A) (off : Z) : option A :=
  if 0 <=? off then buf !! Z.to_nat off else None.

Definition store {A : Type} (buf : list A) (off : Z) (v : A) : option (list A) :=
  if (0 <=? off) && (off <? Z.of_nat (length buf))
  then Some (<[Z.to_nat off := v]> buf)
  else None.

Definition ptr {A : Type} (m : Mat A) (i : Z) : Z := i * cols m.

Definition at_ {A : Type} (m : Mat A) (i j : Z) : Z := ptr m i + j.

(** [Mat::zeros(rows, cols, CV_32FC1)]. *)
Definition zeros (r c : Z) : Mat spec_float :=
  mkMat r c (replicate (Z.to_nat (r * c)) fzero).

(** A computation that has a result. *)
Definition defined {A : Type} (o : option A) : bool :=
  match o with Some _ => true | None => false end.

(** A [for] loop over the indices [idx], threading the state of the body;
    [range lo hi] lists [lo], ..., [hi - 1]. A [tbb::parallel_for] is run
    in increasing order of its index (one of its possible schedules). *)
Fixpoint for_each {S : Type} (idx : list Z) (body : Z -> S -> option S) (s : S)
  : option S :=
  match idx with
  | [] => Some s
  | i :: rest => s' ← body i s; for_each rest body s'
  end.

Definition range (lo hi : Z) : list Z :=
  (fun k => lo + Z.of_nat k) <$> seq 0 (Z.to_nat (hi - lo)).

(** The [MAX] macro of OpenCV: [((a) < (b) ? (b) : (a))]. *)
Definition MAX (a b : Z) : Z := if a <? b then b else a.
Definition MAXf (a b : spec_float) : spec_float := if flt a b then b else a.

(** ** [cv::normalize(src, dst, 0, 255, NORM_MINMAX)] on 8-bit data

    The library call of [init]: the smallest value of [src] is sent to 0, the
    largest to 255, the others in proportion, rounded to the nearest integer
    and saturated; a constant matrix (and an empty one) is sent to zeros. The
    destination is a matrix of the size of [src]; [src] is only read. *)

Definition round_half_even (a b : Z) : Z :=
  let q := a / b in
  let r := a mod b in
  if 2 * r <? b then q
  else if b <? 2 * r then q + 1
  else if Z.even q then q else q + 1.

Definition saturate_uchar (z : Z) : Z := Z.max 0 (Z.min 255 z).

Definition minVal (l : list Z) : Z := foldr Z.min (default 0 (head l)) l.
Definition maxVal (l : list Z) : Z := foldr Z.max (default 0 (head l)) l.

Definition normalize_pixel (smin smax p : Z) : Z :=
  if smin <? smax
  then saturate_uchar (round_half_even (255 * (p - smin)) (smax - smin))
  else 0.

Definition normalize (src : Mat Z) : Mat Z :=
  let smin := minVal (data src) in
  let smax := maxVal (data src) in
  mkMat (rows src) (cols src) (normalize_pixel smin smax <$> data src).

(** ** The class [Hough] *)

Record Size : Type := mkSize { width : Z; height : Z }.
Record Point : Type := mkPoint { Point_x : Z; Point_y : Z }.

(** Modelled from the spec: the header [Hough.h] is not part of the sources.
    The spec gives [thetaMax] as the constant number of one-degree angle
    buckets, 180, and treats [rhoRange] as an integer (the histogram has
    exactly [2 * rhoRange] rows); [centerX] and [centerY] are integers. *)
Definition thetaMax : Z := 180.

Record Hough : Type := mkHough {
  cosines : list spec_float;
  sines : list spec_float;
  accum : Mat spec_float;
  rhoRange : Z;
  centerX : Z;
  centerY : Z;
  imageSize : Size
}.

(** [float theta_rad = theta * M_PI / 180.0]: computed in double, then
    rounded to float by the initialisation. *)
Definition theta_rad (theta : Z) : spec_float :=
  float_of_double (ddiv (dmul (double_of_int theta) M_PI) d180).

(** [Hough::Hough()], over the libm in use. The members that the constructor
    leaves alone start as the empty matrix and zeros. *)
Definition Hough_ctor_with (cosf sinf : spec_float -> spec_float) : Hough :=
  let thetas := range 0 thetaMax in
  mkHough ((fun theta => cosf (theta_rad theta)) <$> thetas)
          ((fun theta => sinf (theta_rad theta)) <$> thetas)
          (mkMat 0 0 []) 0 0 0 (mkSize 0 0).

(** The constructor over the reference [cosf] and [sinf]. A libm may return
    the neighbouring float for some angles; [sines_near_table] below states
    what the line conversion needs of a table. *)
Definition Hough_ctor : Hough := Hough_ctor_with Libm.cosf Libm.sinf.

(** The two tables of [Hough_ctor], as mantissa and exponent: [(m, e)] is
    the float [m * 2^e]. They are the correctly rounded values of the cosine
    and sine of [theta_rad theta]. *)
Definition float_lit (p : Z * Z) : spec_float :=
  match fst p with
  | Z0 => S754_zero false
  | Zpos m => S754_finite false m (snd p)
  | Zneg m => S754_finite true m (snd p)
  end.

Definition cosines_table : list spec_float := float_lit <$> [
    (8388608, -23); (16774661, -24); (16766996, -24); (16754223, -24); (16736348, -24); (16713374, -24);
    (16685309, -24); (16652161, -24); (16613941, -24); (16570661, -24); (16522332, -24); (16468971, -24);
    (16410594, -24); (16347217, -24); (16278861, -24); (16205546, -24); (16127295, -24); (16044132, -24);
    (15956081, -24); (15863169, -24); (15765426, -24); (15662880, -24); (15555564, -24); (15443509, -24);
    (15326749, -24); (15205321, -24); (15079262, -24); (14948609, -24); (14813402, -24); (14673684, -24);
    (14529495, -24); (14380881, -24); (14227886, -24); (14070557, -24); (13908943, -24); (13743091, -24);
    (13573053, -24); (13398881, -24); (13220627, -24); (13038345, -24); (12852093, -24); (12661926, -24);
    (12467901, -24); (12270079, -24); (12068519, -24); (11863283, -24); (11654434, -24); (11442034, -24);
    (11226148, -24); (11006844, -24); (10784187, -24); (10558244, -24); (10329086, -24); (10096781, -24);
    (9861400, -24); (9623016, -24); (9381700, -24); (9137526, -24); (8890570, -24); (8640905, -24);
    (16777215, -25); (16267510, -25); (15752853, -25); (15233394, -25); (14709295, -25); (14180715, -25);
    (13647816, -25); (13110759, -25); (12569713, -25); (12024834, -25); (11476292, -25); (10924254, -25);
    (10368889, -25); (9810365, -25); (9248856, -25); (8684527, -25); (16235104, -26); (15096209, -26);
    (13952715, -26); (12804971, -26); (11653335, -26); (10498141, -26); (9339749, -26); (16357024, -27);
    (14029567, -27); (11697854, -27); (9362560, -27); (14048831, -28); (9368262, -28); (9369677, -29);
    (-12303662, -48); (-9369660, -29); (-9368253, -28); (-14048822, -28); (-9362556, -27); (-11697849, -27);
    (-14029579, -27); (-16357019, -27); (-9339747, -26); (-10498138, -26); (-11653333, -26); (-12804977, -26);
    (-13952721, -26); (-15096206, -26); (-16235102, -26); (-8684526, -25); (-9248855, -25); (-9810368, -25);
    (-10368891, -25); (-10924253, -25); (-11476291, -25); (-12024833, -25); (-12569712, -25); (-13110762, -25);
    (-13647819, -25); (-14180718, -25); (-14709294, -25); (-15233397, -25); (-15752852, -25); (-16267509, -25);
    (-8388609, -24); (-8640904, -24); (-8890571, -24); (-9137527, -24); (-9381699, -24); (-9623016, -24);
    (-9861399, -24); (-10096782, -24); (-10329085, -24); (-10558243, -24); (-10784187, -24); (-11006843, -24);
    (-11226150, -24); (-11442033, -24); (-11654435, -24); (-11863283, -24); (-12068518, -24); (-12270080, -24);
    (-12467901, -24); (-12661927, -24); (-12852093, -24); (-13038344, -24); (-13220627, -24); (-13398880, -24);
    (-13573054, -24); (-13743091, -24); (-13908943, -24); (-14070557, -24); (-14227885, -24); (-14380881, -24);
    (-14529495, -24); (-14673685, -24); (-14813402, -24); (-14948608, -24); (-15079262, -24); (-15205321, -24);
    (-15326750, -24); (-15443509, -24); (-15555565, -24); (-15662881, -24); (-15765426, -24); (-15863170, -24);
    (-15956080, -24); (-16044132, -24); (-16127295, -24); (-16205546, -24); (-16278861, -24); (-16347217, -24);
    (-16410594, -24); (-16468971, -24); (-16522332, -24); (-16570661, -24); (-16613941, -24); (-16652161, -24);
    (-16685309, -24); (-16713374, -24); (-16736348, -24); (-16754223, -24); (-16766996, -24); (-16774661, -24) ].

Definition sines_table : list spec_float := float_lit <$> [
    (0, 0); (9369689, -29); (9368262, -28); (14048827, -28); (9362555, -27); (11697845, -27);
    (14029573, -27); (16357027, -27); (9339749, -26); (10498140, -26); (11653332, -26); (12804975, -26);
    (13952718, -26); (15096209, -26); (16235104, -26); (8684526, -25); (9248855, -25); (9810366, -25);
    (10368890, -25); (10924254, -25); (11476291, -25); (12024833, -25); (12569711, -25); (13110761, -25);
    (13647817, -25); (14180716, -25); (14709295, -25); (15233394, -25); (15752852, -25); (16267511, -25);
    (8388608, -24); (8640905, -24); (8890570, -24); (9137527, -24); (9381700, -24); (9623016, -24);
    (9861400, -24); (10096780, -24); (10329086, -24); (10558244, -24); (10784186, -24); (11006844, -24);
    (11226149, -24); (11442034, -24); (11654434, -24); (11863283, -24); (12068519, -24); (12270079, -24);
    (12467902, -24); (12661925, -24); (12852093, -24); (13038346, -24); (13220626, -24); (13398881, -24);
    (13573053, -24); (13743091, -24); (13908942, -24); (14070558, -24); (14227886, -24); (14380881, -24);
    (14529496, -24); (14673684, -24); (14813402, -24); (14948609, -24); (15079262, -24); (15205322, -24);
    (15326750, -24); (15443509, -24); (15555564, -24); (15662880, -24); (15765426, -24); (15863169, -24);
    (15956081, -24); (16044132, -24); (16127295, -24); (16205546, -24); (16278861, -24); (16347217, -24);
    (16410594, -24); (16468971, -24); (16522332, -24); (16570661, -24); (16613941, -24); (16652161, -24);
    (16685309, -24); (16713374, -24); (16736348, -24); (16754223, -24); (16766996, -24); (16774661, -24);
    (8388608, -23); (16774661, -24); (16766996, -24); (16754223, -24); (16736348, -24); (16713374, -24);
    (16685309, -24); (16652161, -24); (16613941, -24); (16570661, -24); (16522332, -24); (16468971, -24);
    (16410593, -24); (16347217, -24); (16278861, -24); (16205546, -24); (16127295, -24); (16044131, -24);
    (15956080, -24); (15863170, -24); (15765426, -24); (15662881, -24); (15555564, -24); (15443509, -24);
    (15326749, -24); (15205321, -24); (15079262, -24); (14948608, -24); (14813402, -24); (14673684, -24);
    (14529495, -24); (14380881, -24); (14227885, -24); (14070557, -24); (13908943, -24); (13743090, -24);
    (13573053, -24); (13398880, -24); (13220627, -24); (13038347, -24); (12852093, -24); (12661926, -24);
    (12467901, -24); (12270079, -24); (12068518, -24); (11863283, -24); (11654435, -24); (11442033, -24);
    (11226149, -24); (11006843, -24); (10784187, -24); (10558246, -24); (10329085, -24); (10096782, -24);
    (9861399, -24); (9623016, -24); (9381699, -24); (9137527, -24); (8890571, -24); (8640904, -24);
    (8388609, -24); (16267509, -25); (15752852, -25); (15233396, -25); (14709294, -25); (14180718, -25);
    (13647815, -25); (13110762, -25); (12569708, -25); (12024832, -25); (11476294, -25); (10924253, -25);
    (10368891, -25); (9810363, -25); (9248855, -25); (8684529, -25); (16235101, -26); (15096214, -26);
    (13952712, -26); (12804976, -26); (11653340, -26); (10498138, -26); (9339754, -26); (16357018, -27);
    (14029577, -27); (11697832, -27); (9362555, -27); (14048851, -28); (9368250, -28); (9369717, -29) ].

(** *** [Hough::init] *)

(** Lines 55-56: [r = dx * cosines[theta] + dy * sines[theta]] and
    [rho_index = rhoRange + r], truncated by the assignment to [int]. *)
Definition rho_index_of (this : Hough) (dx dy : spec_float) (theta : Z) : option Z :=
  c ← load (cosines this) theta;
  s ← load (sines this) theta;
  let r := fadd (fmul dx c) (fmul dy s) in
  int_of_float (fadd (float_of_int (rhoRange this)) r).

(** Line 59: [accum.at<float>(rho_index, theta)++], a read of the cell, an
    addition and a write. *)
Definition vote (this : Hough) (dx dy : spec_float) (theta : Z)
    (acc : list spec_float) : option (list spec_float) :=
  rho_index ← rho_index_of this dx dy theta;
  let off := at_ (accum this) rho_index theta in
  v ← load acc off;
  store acc off (fadd v fone).

Definition init_pixel (this : Hough) (image : Mat Z) (y : Z) (dy : spec_float)
    (x : Z) (acc : list spec_float) : option (list spec_float) :=
  p ← load (data image) (ptr image y + x);
  if p =? 0 then Some acc
  else
    let dx := float_of_int (x - centerX this) in
    for_each (range 0 thetaMax) (vote this dx dy) acc.

Definition init_row (this : Hough) (image : Mat Z) (y : Z)
    (acc : list spec_float) : option (list spec_float) :=
  let dy := float_of_int (y - centerY this) in
  for_each (range 0 (cols image)) (init_pixel this image y dy) acc.

(** [src.size()]. *)
Definition size {A : Type} (m : Mat A) : Size := mkSize (cols m) (rows m).

(** The state of the object after lines 38-41, before the loop, for the
    normalized [image]. The product [rhoRange * 2] of line 39 is a product
    of two [int]: it has no defined result when it is not an [int]. *)
Definition init_geometry (this : Hough) (size_src : Size) (image : Mat Z)
  : option Hough :=
  rhoRange ← int_of_float
    (dmul (double_of_int (MAX (cols image) (rows image))) d0_70710678);
  accum_rows ← int_mul rhoRange 2;
  Some (mkHough (cosines this) (sines this)
                (zeros accum_rows thetaMax)
                rhoRange
                (Z.quot (cols image) 2)
                (Z.quot (rows image) 2)
                size_src).

(** Lines 38-62: the histogram of the normalized [image]. The rows of the
    [tbb::parallel_for] of line 43 follow one another here, in increasing
    order, which is one of its schedules; [Parallel] below runs them under
    any schedule. *)
Definition init_on (this : Hough) (size_src : Size) (image : Mat Z) : option Hough :=
  this' ← init_geometry this size_src image;
  acc ← for_each (range 0 (rows image)) (init_row this' image) (data (accum this'));
  Some (mkHough (cosines this') (sines this')
                (mkMat (rows (accum this')) (cols (accum this')) acc)
                (rhoRange this') (centerX this') (centerY this') (imageSize this')).

(** [init] on the value of the image. [src] is taken by reference: the
    result is the object and [src] as they are when the call returns (the
    buffers of [src] and of the local [image] are told apart in [Store]
    below). *)
Definition init (this : Hough) (src : Mat Z) : option (Hough * Mat Z) :=
  this' ← init_on this (size src) (normalize src);
  Some (this', src).

(** *** The image buffers of [init] in a store

    A matrix header refers to a buffer of the store, or to none (the empty
    [Mat] of line 34); headers that name the same buffer share its pixels.
    [cv::normalize(src, dst, ..)] writes the normalized pixels of [src] into
    the buffer of [dst]: [Mat::create] keeps the buffer of [dst] when it has
    the size of [src], and gives [dst] a new buffer otherwise. *)

Module Store.

Record header : Type := mkHeader { h_rows : Z; h_cols : Z; h_buf : option nat }.

Definition deref (st : list (list Z)) (h : header) : option (Mat Z) :=
  match h_buf h with
  | Some b => d ← st !! b; Some (mkMat (h_rows h) (h_cols h) d)
  | None => Some (mkMat (h_rows h) (h_cols h) [])
  end.

Definition normalize_into (st : list (list Z)) (src dst : header)
  : option (list (list Z) * header) :=
  m ← deref st src;
  let out := data (normalize m) in
  let fresh := (st ++ [out], mkHeader (h_rows src) (h_cols src) (Some (length st))) in
  match h_buf dst with
  | Some b =>
      if (h_rows dst =? h_rows src) && (h_cols dst =? h_cols src)
      then _ ← st !! b; Some (<[b := out]> st, dst)
      else Some fresh
  | None => Some fresh
  end.

(** [Hough::init] on the header of the image: lines 31-35, then [init_on]
    for the local [image]. *)
Definition init (this : Hough) (st : list (list Z)) (src : header)
  : option (Hough * list (list Z)) :=
  m ← deref st src;
  let size_src := size m in
  let image := mkHeader 0 0 None in
  '(st', image) ← normalize_into st src image;
  img ← deref st' image;
  this' ← init_on this size_src img;
  Some (this', st').

End Store.

(** *** [Hough::getAccumulationMatrix] and the thresholded copy of [getLines]

    [accum.copyTo(thresholded, accum >= thresh)]: the cells that pass the
    comparison are copied, the others are zero. The scalar is compared as a
    float. *)
Definition copyTo_ge (m : Mat spec_float) (thresh : spec_float) : Mat spec_float :=
  mkMat (rows m) (cols m)
        ((fun v => if fle thresh v then v else fzero) <$> data m).

Definition getAccumulationMatrix (this : Hough) (thresh : spec_float) : Mat spec_float :=
  copyTo_ge (accum this) thresh.

(** *** [Hough::getLine]

    The differences [rho_index - rhoRange] and [point.x - centerX] are
    differences of two [int], converted to [float] afterwards; the quotient
    by [sines[theta]] is a float division, and the sum is truncated by the
    assignment to the [int] coordinate. *)

Definition getLine (this : Hough) (rho_index theta : Z) : option (Point * Point) :=
  rho ← float_of_int <$> int_sub rho_index (rhoRange this);
  let point_1_x := 0 in
  d1 ← int_sub point_1_x (centerX this);
  c ← load (cosines this) theta;
  s ← load (sines this) theta;
  point_1_y ← int_of_float
    (fadd (fdiv (fsub rho (fmul (float_of_int d1) c)) s)
          (float_of_int (centerY this)));
  let point_2_x := width (imageSize this) in
  d2 ← int_sub point_2_x (centerX this);
  point_2_y ← int_of_float
    (fadd (fdiv (fsub rho (fmul (float_of_int d2) c)) s)
          (float_of_int (centerY this)));
  Some (mkPoint point_1_x point_1_y, mkPoint point_2_x point_2_y).

(** *** [Hough::getLines]

    An element of [c_lines] is kept with the loop indices [(rho_index, theta)]
    under which it is pushed; [getLines] returns the segments alone. *)

Definition entry : Type := Z * Z * (Point * Point).

(** Lines 126-134: the conversion written out in the loop body. *)
Definition getLines_segment (this : Hough) (rho_index theta : Z)
  : option (Point * Point) :=
  rho ← float_of_int <$> int_sub rho_index (rhoRange this);
  let point_1_x := 0 in
  d1 ← int_sub point_1_x (centerX this);
  c ← load (cosines this) theta;
  s ← load (sines this) theta;
  point_1_y ← int_of_float
    (fadd (fdiv (fsub rho (fmul (float_of_int d1) c)) s)
          (float_of_int (centerY this)));
  let point_2_x := width (imageSize this) in
  d2 ← int_sub point_2_x (centerX this);
  point_2_y ← int_of_float
    (fadd (fdiv (fsub rho (fmul (float_of_int d2) c)) s)
          (float_of_int (centerY this)));
  Some (mkPoint point_1_x point_1_y, mkPoint point_2_x point_2_y).

(** Lines 116-120: the three reads of one iteration [x] of the inner loop. *)
Definition scan_window (th : list spec_float) (prev_row curr_row next_row : Z)
    (x : Z) (max : spec_float) : option spec_float :=
  p ← load th (prev_row + x);
  let max := MAXf max p in
  c ← load th (curr_row + x);
  let max := MAXf max c in
  n ← load th (next_row + x);
  Some (MAXf max n).

(** Lines 112-138: the body of the loop over [theta]. *)
Definition scan_cell (this : Hough) (th : list spec_float)
    (prev_row curr_row next_row rho_index theta : Z) (c_lines : list entry)
  : option (list entry) :=
  max ← load th (curr_row + theta);
  if negb (feq max (float_of_int 0)) then
    max ← for_each [-1; 0; 1] (scan_window th prev_row curr_row next_row) max;
    centre ← load th (curr_row + theta);
    if feq max centre then
      segment ← getLines_segment this rho_index theta;
      Some (c_lines ++ [(rho_index, theta, segment)])
    else Some c_lines
  else Some c_lines.

(** Lines 110-145: one iteration of the loop over [rho_index]; the state is
    the three row pointers and [c_lines]. *)
Definition scan_row (this : Hough) (th : Mat spec_float) (rho_index : Z)
    (st : Z * Z * Z * list entry) : option (Z * Z * Z * list entry) :=
  let '(prev_row, curr_row, next_row, c_lines) := st in
  c_lines ← for_each (range 1 (thetaMax - 1))
    (scan_cell this (data th) prev_row curr_row next_row rho_index) c_lines;
  Some (curr_row, next_row, ptr th (rho_index + 1), c_lines).

Definition getLines_entries (this : Hough) (thresh : Z) : option (list entry) :=
  if thresh <? 1 then Some []
  else
    let thresholded := copyTo_ge (accum this) (float_of_int thresh) in
    st ← for_each (range 1 (rows thresholded - 1)) (scan_row this thresholded)
           (ptr thresholded 0, ptr thresholded 1, ptr thresholded 2, []);
    Some (snd st).

Definition getLines (this : Hough) (thresh : Z) : option (list (Point * Point)) :=
  c_lines ← getLines_entries this thresh;
  Some (map (fun e : entry => snd e) c_lines).

(** The row pointers at the start of iteration [rho_index] of [getLines]:
    lines 103-105 followed by the updates of lines 142-144 of the earlier
    iterations. *)
Definition advance {A : Type} (th : Mat A) (st : Z * Z * Z) (rho_index : Z) : Z * Z * Z :=
  let '(prev_row, curr_row, next_row) := st in
  (curr_row, next_row, ptr th (rho_index + 1)).

Definition row_pointers {A : Type} (th : Mat A) (rho_index : Z) : Z * Z * Z :=
  foldl (advance th) (ptr th 0, ptr th 1, ptr th 2) (range 1 rho_index).

(** ** The rows of [init] as concurrent tasks

    [tbb::parallel_for] runs the body of line 43 for the rows [y] as tasks
    that may run at the same time. A task performs the increments of its
    row in program order; an increment [accum.at<float>(..)++] is a read of
    the cell followed by a write of the value read plus one, and the steps
    of different tasks interleave. The buffer is the only shared state. *)

Module Parallel.

(** The cells that the task of row [y] increments, in program order. *)
Definition pixel_targets (this : Hough) (image : Mat Z) (y : Z) (dy : spec_float)
    (x : Z) : option (list Z) :=
  p ← load (data image) (ptr image y + x);
  if p =? 0 then Some []
  else
    let dx := float_of_int (x - centerX this) in
    mapM (fun theta => rho_index ← rho_index_of this dx dy theta;
                       Some (at_ (accum this) rho_index theta))
         (range 0 thetaMax).

Definition row_targets (this : Hough) (image : Mat Z) (y : Z) : option (list Z) :=
  let dy := float_of_int (y - centerY this) in
  l ← mapM (pixel_targets this image y dy) (range 0 (cols image));
  Some (mjoin l).

(** A task: the increments left to do and, between the read and the write
    of an increment, the value read. *)
Record task : Type := mkTask { pending : list Z; loaded : option spec_float }.

Definition finished (t : task) : bool :=
  match pending t, loaded t with [], None => true | _, _ => false end.

(** One step of a task on the shared buffer. *)
Definition step (mem : list spec_float) (t : task) : option (list spec_float * task) :=
  match pending t, loaded t with
  | off :: _, None => v ← load mem off; Some (mem, mkTask (pending t) (Some v))
  | off :: rest, Some v => mem' ← store mem off (fadd v fone); Some (mem', mkTask rest None)
  | [], _ => None
  end.

(** A schedule names the task that takes each step. *)
Fixpoint run (schedule : list nat) (mem : list spec_float) (tasks : list task)
  : option (list spec_float * list task) :=
  match schedule with
  | [] => Some (mem, tasks)
  | i :: schedule' =>
      t ← tasks !! i;
      '(mem', t') ← step mem t;
      run schedule' mem' (<[i := t']> tasks)
  end.

(** [init] under a schedule of its row tasks; the schedule must run every
    task to its end. *)
Definition init (this : Hough) (src : Mat Z) (schedule : list nat) : option Hough :=
  let image := normalize src in
  this' ← init_geometry this (size src) image;
  targets ← mapM (row_targets this' image) (range 0 (rows image));
  '(mem, tasks) ← run schedule (data (accum this'))
                      ((fun l => mkTask l None) <$> targets);
  if forallb finished tasks
  then Some (mkHough (cosines this') (sines this')
                     (mkMat (rows (accum this')) (cols (accum this')) mem)
                     (rhoRange this') (centerX this') (centerY this') (imageSize this'))
  else None.

(** The schedule that runs the tasks one after the other. *)
Definition sequential (lengths : list nat) : list nat :=
  mjoin (imap (fun i n => replicate (2 * n) i) lengths).

End Parallel.

(** ** The predicate of the specification

    A cell is a local maximum when it is not zero and no cell of the 3x3
    window centred on it is strictly greater. [cell m i j] reads the matrix
    by its two indices. *)

Definition cell (m : Mat spec_float) (i j : Z) : spec_float :=
  default fzero (load (data m) (at_ m i j)).

Definition spec_is_peak (m : Mat spec_float) (rho_index theta : Z) : bool :=
  negb (feq (cell m rho_index theta) fzero)
  && forallb (fun d : Z * Z =>
                negb (flt (cell m rho_index theta)
                          (cell m (rho_index + fst d) (theta + snd d))))
       [(-1, -1); (-1, 0); (-1, 1); (0, -1); (0, 0); (0, 1); (1, -1); (1, 0); (1, 1)].

(** The half diagonal in the words of the specification:
    [round(max(w, h) * sqrt(2) / 2)], the integer nearest to the product,
    which is [floor((floor(sqrt(2 * n^2)) + 1) / 2)] for [n = max(w, h)];
    and the same product truncated instead of rounded. *)
Definition spec_rhoRange (w h : Z) : Z :=
  let n := Z.max w h in (Z.sqrt (2 * n * n) + 1) / 2.

Definition spec_rhoRange_truncated (w h : Z) : Z :=
  let n := Z.max w h in Z.sqrt (2 * n * n) / 2.

(** ** Hypotheses on the inputs and invariants *)

(** Every entry of the two tables is a finite float (no infinity, no NaN). *)
Definition finite_tables (this : Hough) : bool :=
  forallb (fun theta =>
             match load (cosines this) theta, load (sines this) theta with
             | Some c, Some s => is_finite c && is_finite s
             | _, _ => false
             end)
          (range 0 thetaMax).

(** An 8-bit image whose only pixel that is not zero is the centre
    [(cols / 2, rows / 2)], with value [v]. *)
Definition centre_only (src : Mat Z) (v : Z) : Prop :=
  0 < rows src /\ 0 < cols src /\
  length (data src) = Z.to_nat (rows src * cols src) /\
  0 < v <= 255 /\
  forall y x, 0 <= y < rows src -> 0 <= x < cols src ->
    load (data src) (ptr src y + x)
    = Some (if (y =? Z.quot (rows src) 2) && (x =? Z.quot (cols src) 2) then v else 0).

(** [centre_only], as a check that computes. *)
Definition centre_only_b (src : Mat Z) (v : Z) : bool :=
  (0 <? rows src) && (0 <? cols src)
  && (Z.of_nat (length (data src)) =? rows src * cols src)
  && (0 <? v) && (v <=? 255)
  && forallb (fun y =>
       forallb (fun x =>
         match load (data src) (ptr src y + x) with
         | Some p => p =? (if (y =? Z.quot (rows src) 2) && (x =? Z.quot (cols src) 2)
                           then v else 0)
         | None => false
         end) (range 0 (cols src))) (range 0 (rows src)).

(** The histogram of [2 * k] rows in which the cells [0 .. t - 1] of row
    [k] hold one vote and every other cell holds none. *)
Definition row_voted (k t : Z) (acc : list spec_float) : Prop :=
  length acc = Z.to_nat (k * 2 * thetaMax) /\
  forall off, 0 <= off < k * 2 * thetaMax ->
    load acc off
    = Some (if (k * thetaMax <=? off) && (off <? k * thetaMax + t) then fone else fzero).

(** An element of [c_lines] comes from an iteration of the two loops and
    carries the segment computed there. *)
Definition pushed_by (this : Hough) (e : entry) : Prop :=
  let '(rho_index, theta, segment) := e in
  1 <= rho_index < rows (accum this) - 1 /\
  1 <= theta < thetaMax - 1 /\
  getLines_segment this rho_index theta = Some segment.

(** ** Concrete images and histograms *)

(** The [r] x [c] matrix whose element [(i, j)] is [f i j]. *)
Definition tabulate {A : Type} (r c : Z) (f : Z -> Z -> A) : Mat A :=
  mkMat r c (i ← range 0 r; j ← range 0 c; [f i j]).

(** An image that is zero except for the value [v] at [(x0, y0)]. *)
Definition one_pixel (w h x0 y0 v : Z) : Mat Z :=
  tabulate h w (fun y x => if (y =? y0) && (x =? x0) then v else 0).

(** A histogram with the vote counts [votes], given as [(rho_index, theta,
    count)], and zero elsewhere. *)
Definition count_at (votes : list (Z * Z * Z)) (i j : Z) : Z :=
  default 0 (snd <$> head (filter (fun v : Z * Z * Z =>
                                     fst (fst v) = i /\ snd (fst v) = j) votes)).

Definition histogram (r : Z) (votes : list (Z * Z * Z)) : Mat spec_float :=
  tabulate r thetaMax (fun i j => float_of_int (count_at votes i j)).

(** ** Sample objects *)

(** The object after the constructor and an [init] on a 5x5 image, with the
    given accumulator in place of the computed one. *)
Definition sample (m : Mat spec_float) : Hough :=
  mkHough cosines_table sines_table m 3 2 2 (mkSize 5 5).

(** Two votes side by side in row 2. *)
Definition two_cells : Mat spec_float := histogram 5 [(2, 50, 5); (2, 51, 9)].

(** A single cell with votes, in row 3 of 6. *)
Definition one_cell : Mat spec_float := histogram 6 [(3, 50, 5)].

(** A 7x7 image whose only edge pixel is the last one. *)
Definition corner7 : Mat Z := one_pixel 7 7 6 6 255.

(** A 5x5 image whose centre pixel has the value 9. *)
Definition centre5 : Mat Z := one_pixel 5 5 2 2 9.

(** Images without edge pixels: 7x7, and 10 columns without rows. *)
Definition blank7 : Mat Z := tabulate 7 7 (fun _ _ => 0).

Definition no_rows : Mat Z := mkMat 0 10 [].

(** Two rows with an edge pixel in the same column. *)
Definition two_rows : Mat Z := mkMat 2 2 [1; 0; 1; 0].

(** The schedule in which both tasks of [two_rows] read the cell of their
    first increment before either writes it. *)
Definition racy : list nat :=
  [0; 1; 0; 1]%nat ++ replicate 358 0%nat ++ replicate 358 1%nat.

(** ** Definitions for the properties of the whole program *)

(** *** Edge pixels and vote counts *)

(** The test of line 49: the pixel [(x, y)] of [image] is not zero. *)
Definition is_edge (image : Mat Z) (y x : Z) : bool :=
  match load (data image) (ptr image y + x) with
  | Some p => negb (p =? 0)
  | None => false
  end.

(** The pixels of [image] that vote, as [(x, y)], in the order of the two
    loops of [init]. *)
Definition row_edges (image : Mat Z) (y : Z) : list (Z * Z) :=
  x ← range 0 (cols image); if is_edge image y x then [(x, y)] else [].

Definition edge_pixels (image : Mat Z) : list (Z * Z) :=
  range 0 (rows image) ≫= row_edges image.

(** The number of edge pixels. *)
Definition edge_count (image : Mat Z) : Z := Z.of_nat (length (edge_pixels image)).

(** The number of votes that a cell holds: its float, as an integer. *)
Definition votes (v : spec_float) : Z := default 0 (trunc v).

(** The sum of a function over a list of indices. *)
Definition sum_over (idx : list Z) (f : Z -> Z) : Z := foldr Z.add 0 (f <$> idx).

(** The votes of the column [theta] of a histogram, all rows together. *)
Definition column_votes (m : Mat spec_float) (theta : Z) : Z :=
  sum_over (range 0 (rows m)) (fun i => votes (cell m i theta)).

(** The row index of every vote of [image] is defined and falls inside the
    histogram of [this]: the check that line 59 omits. *)
Definition vote_in_bounds (this : Hough) (p : Z * Z) (theta : Z) : bool :=
  match rho_index_of this (float_of_int (fst p - centerX this))
                          (float_of_int (snd p - centerY this)) theta with
  | Some rho_index => (0 <=? rho_index) && (rho_index <? rows (accum this))
  | None => false
  end.

Definition votes_in_bounds (this : Hough) (image : Mat Z) : bool :=
  forallb (fun p => forallb (vote_in_bounds this p) (range 0 thetaMax))
          (edge_pixels image).

(** The value of a float in units of [2^-149], the smallest positive
    binary32 number: an integer for every finite binary32 number. *)
Definition sval (x : spec_float) : Z :=
  match x with
  | S754_finite s m e => cond_Zopp s (Zpos m * 2 ^ (e + 149))
  | _ => 0
  end.

(** A zero, or a normal binary32 number of magnitude below [2^24] whose
    exponent is at least [lo]. *)
Definition small_float (lo : Z) (x : spec_float) : Prop :=
  match x with
  | S754_zero _ => True
  | S754_finite _ m e => Zpos (digits2_pos m) = 24 /\ lo <= e <= 0
  | _ => False
  end.

(** An entry of a table of cosines or sines: a zero, or a normal binary32
    number of magnitude at most 1 and at least [2^-37]. *)
Definition unit_entry (c : spec_float) : bool :=
  match c with
  | S754_zero _ => true
  | S754_finite _ m e =>
      (Zpos (digits2_pos m) =? 24) && (-60 <=? e) && (e <=? -23) && (Zpos m <=? 2 ^ (- e))
  | _ => false
  end.

Definition unit_tables (this : Hough) : bool :=
  forallb (fun theta =>
             match load (cosines this) theta, load (sines this) theta with
             | Some c, Some s => unit_entry c && unit_entry s
             | _, _ => false
             end)
          (range 0 thetaMax).

(** The increment of line 59 as one step: the read and the write with
    nothing in between. *)
Definition bump (off : Z) (mem : list spec_float) : option (list spec_float) :=
  v ← load mem off; store mem off (fadd v fone).

(** The cells that the row tasks of [init] increment for the image [src],
    row by row, and the number of increments of each task. *)
Definition row_tasks (this : Hough) (src : Mat Z) : option (list (list Z)) :=
  let image := normalize src in
  g ← init_geometry this (size src) image;
  mapM (Parallel.row_targets g image) (range 0 (rows image)).

Definition increments (this : Hough) (src : Mat Z) : list nat :=
  length <$> default [] (row_tasks this src).

(** The geometry of lines 38-41 is defined for a [w] x [h] image and the
    votes of every pixel position are in bounds: the check of
    [votes_in_bounds] for the image whose pixels are all edge pixels. The
    geometry depends on the size alone. *)
Definition size_in_bounds (this : Hough) (w h : Z) : bool :=
  match init_geometry this (mkSize w h) (mkMat h w []) with
  | Some g =>
      forallb (fun y =>
                 forallb (fun x => forallb (vote_in_bounds g (x, y)) (range 0 thetaMax))
                         (range 0 w))
              (range 0 h)
  | None => false
  end.

(** The number of elements of a list that pass a test. *)
Definition count_if {A : Type} (f : A -> bool) (l : list A) : Z :=
  foldr (fun a n => (if f a then 1 else 0) + n) 0 l.

(** The pixel [p] votes for the row [rho_index] at the angle [theta]. *)
Definition hit (this : Hough) (rho_index theta : Z) (p : Z * Z) : bool :=
  match rho_index_of this (float_of_int (fst p - centerX this))
                          (float_of_int (snd p - centerY this)) theta with
  | Some r => r =? rho_index
  | None => false
  end.

(** The number of edge pixels of [image] that vote for the cell
    [(rho_index, theta)]: what the Hough transform is to put in the cell. *)
Definition votes_for (this : Hough) (image : Mat Z) (rho_index theta : Z) : Z :=
  count_if (hit this rho_index theta) (edge_pixels image).

(** *** The vectors of the constructor, with their size

    A [std::vector<float>] has a size and a storage, whose length is its
    capacity. [reserve(n)] enlarges the storage to [n] elements and leaves
    the size alone; the elements of the storage from the size on are not
    initialised ([junk] stands for them). [v[i] = x], as a release build
    runs it, writes the element [i] of the storage without a look at the
    size; [v.at(i)] is the access that checks [i] against the size. *)
Record Vec : Type := mkVec { vec_size : nat; vec_storage : list spec_float }.

Definition vec_capacity (v : Vec) : nat := length (vec_storage v).

Definition Vec_new : Vec := mkVec 0 [].

Definition reserve (junk : spec_float) (n : Z) (v : Vec) : Vec :=
  if Z.of_nat (vec_capacity v) <? n
  then mkVec (vec_size v)
             (take (vec_size v) (vec_storage v)
              ++ replicate (Z.to_nat n - vec_size v) junk)
  else v.

Definition vec_set (v : Vec) (i : Z) (x : spec_float) : option Vec :=
  s ← store (vec_storage v) i x; Some (mkVec (vec_size v) s).

Definition vec_at (v : Vec) (i : Z) : option spec_float :=
  if (0 <=? i) && (i <? Z.of_nat (vec_size v)) then load (vec_storage v) i else None.

(** Lines 13-21 on the two vectors. *)
Definition Hough_ctor_vectors (cosf sinf : spec_float -> spec_float) (junk : spec_float)
  : option (Vec * Vec) :=
  let cosines := reserve junk thetaMax Vec_new in
  let sines := reserve junk thetaMax Vec_new in
  for_each (range 0 thetaMax)
    (fun theta (cs : Vec * Vec) =>
       cosines ← vec_set (fst cs) theta (cosf (theta_rad theta));
       sines ← vec_set (snd cs) theta (sinf (theta_rad theta));
       Some (cosines, sines))
    (cosines, sines).

(** More sample images: 3x3 with every pixel at 255; 5x5 with a centre
    pixel of value 200 (the pixel of [centre5], brighter); 7x7 with one
    edge pixel in the first column of the middle row. *)
Definition white3 : Mat Z := tabulate 3 3 (fun _ _ => 255).


Definition left7 : Mat Z := one_pixel 7 7 0 3 255.

(** A histogram of [R] rows that holds whole numbers of votes, [n] of them
    in every column, and one more in the columns below [t]. *)
Definition tally (R n t : Z) (acc : list spec_float) : Prop :=
  length acc = Z.to_nat (R * thetaMax) /\
  (forall off, 0 <= off < R * thetaMax ->
     exists c, load acc off = Some (float_of_int c) /\ 0 <= c < 2 ^ 24) /\
  forall theta, 0 <= theta < thetaMax ->
    sum_over (range 0 R) (fun i => votes (default fzero (load acc (i * thetaMax + theta))))
    = n + (if theta <? t then 1 else 0).

(** *** The row tasks of [init] under a schedule *)

(** The number of increments of the cell at offset [off] that the tasks
    have still to complete. *)
Definition pending_at (off : Z) (tasks : list Parallel.task) : Z :=
  count_if (Z.eqb off) (tasks ≫= Parallel.pending).

(** A schedule in which every increment is atomic: the task that reads a
    cell writes it in the next step. The increments of the tasks
    interleave in any order. *)
Definition atomic (schedule : list nat) : Prop :=
  exists order : list nat, schedule = order ≫= fun i => [i; i].

(** The histogram and the tasks under a schedule: every cell holds a whole
    number of votes, at most the number of completed increments of the
    cell ([T off] is the number of increments of the cell in all), and at
    least one when an increment of the cell is complete; the value that a
    task has read is one that the cell held. *)
Definition counted (T : Z -> Z) (mem : list spec_float) (tasks : list Parallel.task)
  : Prop :=
  (forall off v, load mem off = Some v ->
     exists c, v = float_of_int c /\ 0 <= c <= T off - pending_at off tasks /\
               (0 < T off - pending_at off tasks -> 0 < c)) /\
  (forall i t v, tasks !! i = Some t -> Parallel.loaded t = Some v ->
     exists off rest c, Parallel.pending t = off :: rest /\ v = float_of_int c /\
                        0 <= c <= T off - pending_at off tasks).

(** The same between two atomic increments: no task holds a value and
    every cell holds the number of completed increments. *)
Definition counted_exactly (T : Z -> Z) (mem : list spec_float)
    (tasks : list Parallel.task) : Prop :=
  (forall i t, tasks !! i = Some t -> Parallel.loaded t = None) /\
  (forall off v, load mem off = Some v ->
     v = float_of_int (T off - pending_at off tasks) /\
     0 <= T off - pending_at off tasks).

(** *** The sines of a libm *)




(** * Properties *)

(** ** Loops *)

Lemma range_nil lo hi : hi <= lo -> range lo hi = [].
Proof.
  intros H. unfold range. replace (Z.to_nat (hi - lo)) with 0%nat by lia. reflexivity.
Qed.

Lemma range_cons lo hi : lo < hi -> range lo hi = lo :: range (lo + 1) hi.
Proof.
  intros H. unfold range.
  replace (Z.to_nat (hi - lo)) with (S (Z.to_nat (hi - (lo + 1)))) by lia.
  cbn [seq fmap list_fmap]. f_equal; [lia|].
  rewrite <- fmap_S_seq, <- list_fmap_compose.
  apply list_fmap_ext. intros _ k _. cbn. lia.
Qed.

Lemma range_snoc lo hi : lo <= hi -> range lo (hi + 1) = range lo hi ++ [hi].
Proof.
  intros H. unfold range.
  replace (Z.to_nat (hi + 1 - lo)) with (Z.to_nat (hi - lo) + 1)%nat by lia.
  rewrite seq_app, fmap_app. cbn. do 2 f_equal. lia.
Qed.

Lemma elem_of_range lo hi i : i ∈ range lo hi <-> lo <= i < hi.
Proof.
  unfold range. rewrite list_elem_of_fmap. split.
  - intros (k & -> & Hk). apply elem_of_seq in Hk. lia.
  - intros H. exists (Z.to_nat (i - lo)). split; [lia|]. apply elem_of_seq. lia.
Qed.

(** A loop keeps an invariant that every iteration keeps. *)
Lemma for_each_inv {S : Type} (I : S -> Prop) idx (body : Z -> S -> option S) s s' :
  (forall i t t', i ∈ idx -> I t -> body i t = Some t' -> I t') ->
  I s -> for_each idx body s = Some s' -> I s'.
Proof.
  revert s. induction idx as [|i idx IH]; intros s Hbody Hs Hrun; cbn in Hrun.
  - congruence.
  - destruct (body i s) as [t|] eqn:Hi; [|discriminate]. cbn in Hrun.
    apply (IH t); [| |exact Hrun].
    + intros j u u' Hj. apply Hbody. now right.
    + apply (Hbody i s t); [left|exact Hs|exact Hi].
Qed.

(** The loop rule for a counted loop whose invariant depends on the index:
    when every iteration is defined and establishes the invariant of the
    next index, the loop is defined and ends in the invariant of [hi]. *)
Lemma for_each_range {S : Type} (I : Z -> S -> Prop) lo hi
    (body : Z -> S -> option S) s :
  lo <= hi ->
  (forall i t, lo <= i < hi -> I i t -> exists t', body i t = Some t' /\ I (i + 1) t') ->
  I lo s -> exists s', for_each (range lo hi) body s = Some s' /\ I hi s'.
Proof.
  intros Hle Hbody.
  remember (Z.to_nat (hi - lo)) as n eqn:Hn. revert lo s Hle Hbody Hn.
  induction n as [|n IH]; intros lo s Hle Hbody Hn Hs.
  - assert (lo = hi) as -> by lia. rewrite range_nil by lia. now exists s.
  - rewrite range_cons by lia. cbn.
    destruct (Hbody lo s) as (t & Ht & HIt); [lia|exact Hs|].
    rewrite Ht. cbn. apply IH; [lia| |lia|exact HIt].
    intros i u Hi. apply Hbody. lia.
Qed.

(** A loop whose iterations leave the state alone. *)
Lemma for_each_id {S : Type} idx (body : Z -> S -> option S) s :
  (forall i, i ∈ idx -> body i s = Some s) -> for_each idx body s = Some s.
Proof.
  induction idx as [|i idx IH]; intros H; [reflexivity|]. cbn.
  rewrite H by left. cbn. apply IH. intros j Hj. apply H. now right.
Qed.

Lemma foldl_snoc {A B : Type} (f : A -> B -> A) a l b :
  foldl f a (l ++ [b]) = f (foldl f a l) b.
Proof. now rewrite foldl_app. Qed.

(** ** Buffers *)

Lemma load_Some {A : Type} (buf : list A) off v :
  load buf off = Some v <-> 0 <= off /\ buf !! Z.to_nat off = Some v.
Proof.
  unfold load. destruct (Z.leb_spec 0 off); split; try tauto; try lia; try discriminate.
Qed.

Lemma load_replicate {A : Type} n (v : A) off :
  0 <= off < Z.of_nat n -> load (replicate n v) off = Some v.
Proof.
  intros H. apply load_Some. split; [lia|]. apply lookup_replicate. split; [reflexivity|lia].
Qed.

Lemma load_fmap {A B : Type} (f : A -> B) buf off :
  load (f <$> buf) off = f <$> load buf off.
Proof. unfold load. destruct (0 <=? off); [apply list_lookup_fmap|reflexivity]. Qed.

Lemma load_store {A : Type} (buf buf' : list A) off v off' :
  store buf off v = Some buf' ->
  load buf' off' = if off' =? off then Some v else load buf off'.
Proof.
  unfold store. destruct (Z.leb_spec 0 off); [|discriminate].
  destruct (Z.ltb_spec off (Z.of_nat (length buf))); [|discriminate].
  cbn. intros [= <-]. unfold load.
  destruct (Z.eqb_spec off' off) as [->|Hne].
  - destruct (Z.leb_spec 0 off); [|lia]. apply list_lookup_insert_eq. lia.
  - destruct (Z.leb_spec 0 off'); [|reflexivity].
    apply list_lookup_insert_ne. lia.
Qed.

Lemma store_length {A : Type} (buf buf' : list A) off v :
  store buf off v = Some buf' -> length buf' = length buf.
Proof.
  unfold store. destruct (_ && _); [|discriminate].
  intros [= <-]. apply length_insert.
Qed.

Lemma store_defined {A : Type} (buf : list A) off v :
  0 <= off < Z.of_nat (length buf) -> exists buf', store buf off v = Some buf'.
Proof.
  intros H. unfold store.
  destruct (Z.leb_spec 0 off); [|lia].
  destruct (Z.ltb_spec off (Z.of_nat (length buf))); [|lia].
  eexists. reflexivity.
Qed.

(** ** Rounding in [SpecFloat] *)

Section Rounding.

Variables prec emax : Z.
Hypothesis prec_pos : 0 < prec.

Lemma digits2_pos_bounds p :
  2 ^ (Zpos (digits2_pos p) - 1) <= Zpos p < 2 ^ Zpos (digits2_pos p).
Proof.
  induction p as [p IH|p IH|]; cbn [digits2_pos]; [| |cbn; lia];
    rewrite Pos2Z.inj_succ;
    replace (Z.succ (Zpos (digits2_pos p)) - 1) with (Z.succ (Zpos (digits2_pos p) - 1)) by lia;
    rewrite !Z.pow_succ_r by lia; lia.
Qed.

Lemma pow2_lt_mono a b : 0 <= a -> 2 ^ a < 2 ^ b -> a < b.
Proof.
  intros Ha H. destruct (Z.lt_ge_cases a b) as [|Hge]; [assumption|].
  apply (Z.pow_le_mono_r 2) in Hge; lia.
Qed.

Lemma digits2_pos_unique p d :
  2 ^ (d - 1) <= Zpos p < 2 ^ d -> Zpos (digits2_pos p) = d.
Proof.
  intros [Hlo Hhi]. pose proof (digits2_pos_bounds p) as [Hlo' Hhi'].
  assert (0 < d).
  { destruct (Z.lt_ge_cases 0 d); [assumption|].
    assert (2 ^ d <= 2 ^ 0) by (apply Z.pow_le_mono_r; lia). cbn in *. lia. }
  assert (Zpos (digits2_pos p) - 1 < d) by (apply pow2_lt_mono; lia).
  assert (d - 1 < Zpos (digits2_pos p)) by (apply pow2_lt_mono; lia).
  lia.
Qed.

Lemma Pos_iter_xO p j : Zpos (Pos.iter xO p j) = Zpos p * 2 ^ Zpos j.
Proof.
  induction j as [|j IH] using Pos.peano_ind.
  - cbn. lia.
  - rewrite Pos.iter_succ, Pos2Z.inj_xO, IH, Pos2Z.inj_succ, Z.pow_succ_r by lia. lia.
Qed.

(** A mantissa of exactly [prec] digits in the normal range is kept as it
    is by the rounding. *)
Lemma binary_round_aux_canonical s m e :
  Zpos (digits2_pos m) = prec ->
  3 - emax - prec <= e <= emax - prec ->
  binary_round_aux prec emax s (Zpos m) e loc_Exact = S754_finite s m e.
Proof.
  intros Hd He.
  assert (Hshr : shr_fexp prec emax (Zpos m) e loc_Exact
                 = (Build_shr_record (Zpos m) false false, e)).
  { unfold shr_fexp, fexp, emin. cbn [Zdigits2 shr_record_of_loc]. rewrite Hd.
    replace (Z.max (prec + e - prec) (3 - emax - prec) - e) with 0 by lia.
    reflexivity. }
  unfold binary_round_aux. rewrite Hshr.
  cbn [shr_m loc_of_shr_record round_nearest_even]. rewrite Hshr. cbn [shr_m].
  destruct (Z.leb_spec e (emax - prec)); [reflexivity|lia].
Qed.

(** The conversion of a number that needs no more than [prec] digits is
    exact: the mantissa is shifted to [prec] digits. *)
Lemma binary_round_exact s m e :
  let d := Zpos (digits2_pos m) in
  d <= prec ->
  3 - emax - prec <= d + e - prec <= emax - prec ->
  exists mz, Zpos mz = Zpos m * 2 ^ (prec - d) /\
             binary_round prec emax s m e = S754_finite s mz (d + e - prec).
Proof.
  intros d Hd He. unfold binary_round, shl_align, fexp, emin. fold d.
  replace (Z.max (d + e - prec) (3 - emax - prec) - e) with (d - prec) by lia.
  destruct (d - prec) as [|k|k] eqn:Hk; [| lia |].
  - exists m. replace (prec - d) with 0 by lia. split; [cbn; lia|].
    replace (d + e - prec) with e by lia.
    apply binary_round_aux_canonical; [fold d|]; lia.
  - exists (Pos.iter xO m k).
    replace (prec - d) with (Zpos k) by lia. split; [apply Pos_iter_xO|].
    replace (Z.max (d + e - prec) (3 - emax - prec)) with (d + e - prec) by lia.
    apply binary_round_aux_canonical; [|lia].
    apply digits2_pos_unique. rewrite Pos_iter_xO.
    pose proof (digits2_pos_bounds m) as [Hlo Hhi]. fold d in Hlo, Hhi.
    replace prec with (d + Zpos k) at 2 by lia.
    replace (prec - 1) with ((d - 1) + Zpos k) by lia.
    assert (0 < d) by (unfold d; lia).
    rewrite !Z.pow_add_r by lia. nia.
Qed.

Lemma iter_pos_nat {A : Type} (f : A -> A) p x :
  SpecFloat.iter_pos f p x = Nat.iter (Pos.to_nat p) f x.
Proof.
  revert x. induction p as [p IH|p IH|]; intros x; cbn [SpecFloat.iter_pos]; [| |reflexivity].
  - rewrite !IH, Pos2Nat.inj_xI. cbn [Nat.mul].
    rewrite Nat.add_0_r, <- Nat.iter_add, <- Nat.iter_succ_r. reflexivity.
  - rewrite !IH, Pos2Nat.inj_xO. cbn [Nat.mul].
    rewrite Nat.add_0_r, <- Nat.iter_add. reflexivity.
Qed.

Lemma shr_1_m mrs :
  0 <= shr_m mrs -> shr_m (shr_1 mrs) = shr_m mrs / 2 /\ 0 <= shr_m (shr_1 mrs).
Proof.
  destruct mrs as [m r t]. cbn [shr_m]. intros Hm.
  destruct m as [|[p|p|]|p]; cbn [shr_1 shr_m]; [| | | |lia].
  - now split.
  - split; [|lia]. rewrite Pos2Z.inj_xI. apply (Z.div_unique _ _ _ 1); lia.
  - split; [|lia]. rewrite Pos2Z.inj_xO. apply (Z.div_unique _ _ _ 0); lia.
  - now split.
Qed.

Lemma shr_m_iter n mrs :
  0 <= shr_m mrs ->
  shr_m (Nat.iter n shr_1 mrs) = shr_m mrs / 2 ^ Z.of_nat n
  /\ 0 <= shr_m (Nat.iter n shr_1 mrs).
Proof.
  intros Hm. induction n as [|n [IH IH0]].
  - cbn. now rewrite Z.div_1_r.
  - rewrite Nat.iter_succ. destruct (shr_1_m _ IH0) as [Heq H0].
    split; [|exact H0].
    rewrite Heq, IH, Nat2Z.inj_succ, Z.pow_succ_r, Z.div_div by lia.
    f_equal. lia.
Qed.

Lemma round_nearest_even_step m l :
  round_nearest_even m l = m \/ round_nearest_even m l = m + 1.
Proof. destruct l as [|[]]; cbn; try destruct (Z.even m); auto. Qed.

(** The rounding of a mantissa [M] of more than [prec] digits drops
    [D - prec] digits and adds at most one unit; the truncation of the
    result, when its exponent is negative, is given in integers. *)
Lemma binary_round_aux_trunc M e :
  let D := Zpos (digits2_pos M) in
  prec < D ->
  3 - emax - prec <= D + e - prec ->
  D + e + 1 <= emax ->
  D + e - prec < 0 ->
  exists b, (b = 0 \/ b = 1) /\
    trunc (binary_round_aux prec emax false (Zpos M) e loc_Exact)
    = Some ((Zpos M / 2 ^ (D - prec) + b) / 2 ^ (prec - D - e)).
Proof.
  intros D HD Hmin Hmax Hneg.
  pose proof (digits2_pos_bounds M) as [HMlo HMhi]. fold D in HMlo, HMhi.
  destruct (D - prec) as [|k|k] eqn:Hk; [lia| |lia].
  assert (Hshr : shr_fexp prec emax (Zpos M) e loc_Exact
                 = (SpecFloat.iter_pos shr_1 k (Build_shr_record (Zpos M) false false), e + Zpos k)).
  { unfold shr_fexp, fexp, emin. cbn [Zdigits2 shr_record_of_loc]. fold D.
    replace (Z.max (D + e - prec) (3 - emax - prec) - e) with (Zpos k) by lia.
    reflexivity. }
  unfold binary_round_aux. rewrite Hshr. clear Hshr.
  set (mrs := SpecFloat.iter_pos shr_1 k _).
  assert (Hq : shr_m mrs = Zpos M / 2 ^ Zpos k).
  { unfold mrs. rewrite iter_pos_nat.
    destruct (shr_m_iter (Pos.to_nat k) (Build_shr_record (Zpos M) false false)) as [-> _];
      [cbn; lia|].
    cbn [shr_m]. now rewrite positive_nat_Z. }
  assert (H2k : 0 < 2 ^ Zpos k) by (apply Z.pow_pos_nonneg; lia).
  assert (Hqlo : 2 ^ (prec - 1) <= shr_m mrs).
  { rewrite Hq. apply Z.div_le_lower_bound; [lia|].
    replace (D - 1) with (Zpos k + (prec - 1)) in HMlo by lia.
    rewrite Z.pow_add_r in HMlo by lia. lia. }
  assert (Hqhi : shr_m mrs < 2 ^ prec).
  { rewrite Hq. apply Z.div_lt_upper_bound; [lia|].
    replace D with (Zpos k + prec) in HMhi by lia.
    rewrite Z.pow_add_r in HMhi by lia. lia. }
  assert (Hpp : 2 ^ prec = 2 * 2 ^ (prec - 1)).
  { replace prec with (Z.succ (prec - 1)) at 1 by lia. apply Z.pow_succ_r. lia. }
  assert (0 < 2 ^ (prec - 1)) by (apply Z.pow_pos_nonneg; lia).
  set (m1 := round_nearest_even (shr_m mrs) (loc_of_shr_record mrs)).
  assert (Hb : exists b, (b = 0 \/ b = 1) /\ m1 = Zpos M / 2 ^ Zpos k + b).
  { rewrite <- Hq. destruct (round_nearest_even_step (shr_m mrs) (loc_of_shr_record mrs));
      [exists 0|exists 1]; (split; [auto|unfold m1; lia]). }
  destruct Hb as (b & Hb & Hm1). exists b. split; [exact Hb|]. rewrite <- Hm1.
  replace (prec - D - e) with (- (e + Zpos k)) by lia.
  destruct m1 as [|p1|p1] eqn:Hp1; [lia| |lia].
  destruct (Z.lt_ge_cases (Zpos p1) (2 ^ prec)) as [Hlt|Hge].
  - (* no carry *)
    assert (Hshr : shr_fexp prec emax (Zpos p1) (e + Zpos k) loc_Exact
                   = (Build_shr_record (Zpos p1) false false, e + Zpos k)).
    { unfold shr_fexp, fexp, emin. cbn [Zdigits2 shr_record_of_loc].
      rewrite (digits2_pos_unique p1 prec) by lia.
      replace (Z.max (prec + (e + Zpos k) - prec) (3 - emax - prec) - (e + Zpos k))
        with 0 by lia.
      reflexivity. }
    rewrite Hshr. cbn [shr_m].
    destruct (Z.leb_spec (e + Zpos k) (emax - prec)); [|lia].
    cbn [trunc cond_Zopp]. destruct (Z.leb_spec 0 (e + Zpos k)); [lia|reflexivity].
  - (* the rounding carries into a new digit *)
    assert (Hp1' : Zpos p1 = 2 ^ prec) by lia.
    assert (Hshr : shr_fexp prec emax (Zpos p1) (e + Zpos k) loc_Exact
                   = (shr_1 (Build_shr_record (Zpos p1) false false), e + Zpos k + 1)).
    { unfold shr_fexp, fexp, emin. cbn [Zdigits2 shr_record_of_loc].
      rewrite (digits2_pos_unique p1 (prec + 1)).
      - replace (Z.max (prec + 1 + (e + Zpos k) - prec) (3 - emax - prec) - (e + Zpos k))
          with 1 by lia.
        reflexivity.
      - replace (prec + 1 - 1) with prec by lia. rewrite Z.pow_add_r by lia. lia. }
    rewrite Hshr. clear Hshr.
    destruct p1 as [p2|p2|]; [lia| |lia].
    cbn [shr_1 shr_m orb].
    assert (Hp2 : Zpos p2 = 2 ^ (prec - 1)) by lia.
    destruct (Z.leb_spec (e + Zpos k + 1) (emax - prec)); [|lia].
    cbn [trunc cond_Zopp]. f_equal.
    destruct (Z.leb_spec 0 (e + Zpos k + 1)).
    + replace (e + Zpos k + 1) with 0 by lia.
      replace (- (e + Zpos k)) with 1 by lia.
      rewrite Hp1', Hp2, Hpp, Z.pow_0_r, Z.pow_1_r, Z.mul_1_r.
      apply (Z.div_unique _ _ _ 0); lia.
    + replace (- (e + Zpos k)) with (Z.succ (- (e + Zpos k + 1))) by lia.
      rewrite Z.pow_succ_r by lia.
      rewrite Hp1', Hp2, Hpp.
      rewrite Z.div_mul_cancel_l; [reflexivity| |lia].
      apply Z.pow_nonzero; lia.
Qed.

End Rounding.

(** An [int] below [2^24] is a float, and comes back unchanged from the
    sum with a zero. *)
Lemma int_of_float_of_int k z :
  0 < k < 2 ^ 24 -> is_zero z = true ->
  int_of_float (fadd (float_of_int k) z) = Some k.
Proof.
  intros Hk Hz. destruct k as [|p|p]; [lia| |lia].
  pose proof (digits2_pos_bounds p) as [Hplo Hphi].
  assert (Hd24 : Zpos (digits2_pos p) <= 24).
  { assert (Zpos (digits2_pos p) - 1 < 24) by (apply pow2_lt_mono; lia). lia. }
  destruct (binary_round_exact 24 128 false p 0) as (mz & Hmz & Hconv); [lia..|].
  remember (Zpos (digits2_pos p)) as d eqn:Hd.
  unfold float_of_int, binary_normalize. rewrite Hconv.
  destruct z as [sz| | |]; try discriminate. cbn [fadd SFadd].
  unfold int_of_float. cbn [trunc cond_Zopp mbind option_bind].
  assert (0 < 2 ^ (24 - d)) by (apply Z.pow_pos_nonneg; lia).
  assert (Hval : (if 0 <=? d + 0 - 24 then Zpos mz * 2 ^ (d + 0 - 24)
                  else Zpos mz / 2 ^ (- (d + 0 - 24))) = Zpos p).
  { destruct (Z.leb_spec 0 (d + 0 - 24)).
    - replace (d + 0 - 24) with 0 by lia. replace (24 - d) with 0 in Hmz by lia.
      rewrite Hmz. cbn. lia.
    - replace (- (d + 0 - 24)) with (24 - d) by lia. rewrite Hmz.
      apply Z.div_mul. lia. }
  rewrite Hval. unfold INT_MIN, INT_MAX.
  destruct (Z.leb_spec (- 2 ^ 31) (Zpos p)); [|lia].
  destruct (Z.leb_spec (Zpos p) (2 ^ 31 - 1)); [reflexivity|lia].
Qed.

Lemma fmul_zero_finite c :
  is_finite c = true -> is_zero (fmul (float_of_int 0) c) = true.
Proof. now destruct c. Qed.

Lemma fadd_zero_zero a b :
  is_zero a = true -> is_zero b = true -> is_zero (fadd a b) = true.
Proof. now destruct a as [[]| | |], b as [[]| | |]. Qed.

Lemma int_of_float_not_finite x : is_finite x = false -> int_of_float x = None.
Proof. now destruct x. Qed.

(** A quotient by zero is an infinity or a NaN, and stays so when a value is
    added to it. *)
Lemma fdiv_by_zero x s y : is_zero s = true -> is_finite (fadd (fdiv x s) y) = false.
Proof.
  destruct s as [b| | |]; try discriminate. intros _.
  destruct x as [[]|[]| |[] ? ?], b, y as [[]|[]| |[] ? ?]; reflexivity.
Qed.

(** ** The angle table *)

(** The constructor, with the reference libm, computes the two tables. *)
Lemma Hough_ctor_tables :
  Hough_ctor = mkHough cosines_table sines_table (mkMat 0 0 []) 0 0 0 (mkSize 0 0).
Proof. vm_compute. reflexivity. Qed.

(** The sine table is zero at index 0 and finite, not zero, elsewhere. *)
Lemma finite_tables_at this theta :
  finite_tables this = true -> 0 <= theta < thetaMax ->
  exists c s, load (cosines this) theta = Some c /\ is_finite c = true /\
              load (sines this) theta = Some s /\ is_finite s = true.
Proof.
  intros Hfin Htheta. unfold finite_tables in Hfin. rewrite forallb_forall in Hfin.
  specialize (Hfin theta). rewrite <- list_elem_of_In, elem_of_range in Hfin.
  specialize (Hfin Htheta).
  destruct (load (cosines this) theta) as [c|], (load (sines this) theta) as [s|];
    try discriminate.
  apply andb_true_iff in Hfin as [Hc Hs]. eauto 10.
Qed.

(** ** The half diagonal [rhoRange] *)

Lemma d0_70710678_value : d0_70710678 = S754_finite false 6369051661838303 (-53).
Proof. vm_compute. reflexivity. Qed.

(** Line 38 in integers. For an image whose larger dimension is [n], the
    product of the mantissas is [M = n * W * mc] with [n * W] of 53 digits;
    the rounding to double drops [K], adds a unit [b] or not, and the
    truncation drops [J]. *)
Lemma rhoRange_trunc n :
  0 < n < 2 ^ 31 ->
  exists W K J b,
    2 ^ 52 <= n * W < 2 ^ 53 /\ 0 < K <= 2 ^ 53 /\ 2 <= J /\
    K * J = W * 2 ^ 53 /\ (b = 0 \/ b = 1) /\
    trunc (dmul (double_of_int n) d0_70710678)
    = Some ((n * W * 6369051661838303 / K + b) / J).
Proof.
  intros Hn. destruct n as [|p|p]; [lia| |lia].
  pose proof (digits2_pos_bounds p) as [Hplo Hphi].
  assert (Hd31 : Zpos (digits2_pos p) <= 31).
  { assert (Zpos (digits2_pos p) - 1 < 31) by (apply pow2_lt_mono; lia). lia. }
  destruct (binary_round_exact 53 1024 false p 0)
    as (mz & Hmz & Hconv); [lia..|].
  remember (Zpos (digits2_pos p)) as d eqn:Hd.
  assert (0 < d) by lia.
  unfold double_of_int, binary_normalize. rewrite Hconv, d0_70710678_value.
  unfold dmul, SFmul. cbn [xorb].
  remember (mz * 6369051661838303)%positive as M eqn:HM.
  remember (2 ^ (53 - d)) as W eqn:HWdef.
  assert (HMprod : Zpos M = Zpos mz * 6369051661838303) by (subst M; lia).
  assert (Hmzlo : 2 ^ 52 <= Zpos mz).
  { rewrite Hmz, HWdef. replace 52 with ((d - 1) + (53 - d)) by lia.
    rewrite Z.pow_add_r by lia. apply Z.mul_le_mono_nonneg_r; [|lia].
    apply Z.pow_nonneg. lia. }
  assert (Hmzhi : Zpos mz < 2 ^ 53).
  { rewrite Hmz, HWdef. replace 53 with (d + (53 - d)) at 2 by lia.
    rewrite Z.pow_add_r by lia. apply Z.mul_lt_mono_pos_r; [|lia].
    apply Z.pow_pos_nonneg; lia. }
  pose proof (digits2_pos_bounds M) as [HMlo HMhi].
  remember (Zpos (digits2_pos M)) as D eqn:HD.
  assert (HD' : 105 <= D <= 106).
  { assert (2 ^ 104 <= Zpos M).
    { rewrite HMprod. change (2 ^ 104) with (2 ^ 52 * 2 ^ 52).
      apply Z.mul_le_mono_nonneg; lia. }
    assert (Zpos M < 2 ^ 106).
    { rewrite HMprod. change (2 ^ 106) with (2 ^ 53 * 2 ^ 53).
      apply Z.mul_lt_mono_nonneg; lia. }
    assert (104 < D) by (apply pow2_lt_mono; lia).
    assert (D - 1 < 106) by (apply pow2_lt_mono; lia).
    lia. }
  destruct (binary_round_aux_trunc 53 1024 ltac:(lia) M (d + 0 - 53 + -53))
    as (b & Hb & Htrunc); [rewrite <- HD; lia..|].
  rewrite <- HD in Htrunc.
  exists W, (2 ^ (D - 53)), (2 ^ (53 - D - (d + 0 - 53 + -53))), b.
  rewrite <- Hmz, <- HMprod.
  assert (0 < 2 ^ (D - 53)) by (apply Z.pow_pos_nonneg; lia).
  repeat (split; [first [assumption | lia | idtac]|]); [| | |exact Htrunc].
  - apply Z.pow_le_mono_r; lia.
  - change 2 with (2 ^ 1) at 1. apply Z.pow_le_mono_r; lia.
  - rewrite HWdef, <- !Z.pow_add_r by lia. f_equal. lia.
Qed.

(** The conversion of line 38 is defined for every [int] dimension, and
    [rhoRange] lies between 0 and the dimension. *)
Lemma rhoRange_defined n :
  0 <= n < 2 ^ 31 ->
  exists k, int_of_float (dmul (double_of_int n) d0_70710678) = Some k /\ 0 <= k <= n.
Proof.
  intros Hn. destruct (Z.eq_dec n 0) as [->|Hne]; [exists 0; split; [reflexivity|lia]|].
  destruct (rhoRange_trunc n) as (W & K & J & b & HnW & HK & HJ & HKJ & Hb & Htrunc);
    [lia|].
  unfold int_of_float. rewrite Htrunc. cbn [mbind option_bind].
  set (q := n * W * 6369051661838303 / K) in *.
  assert (0 < W) by nia.
  assert (Hq0 : 0 <= q) by (apply Z.div_pos; nia).
  assert (Hqn : q < n * J).
  { apply Z.div_lt_upper_bound; [lia|].
    replace (K * (n * J)) with (n * (W * 2 ^ 53)) by (rewrite <- HKJ; ring).
    rewrite <- Z.mul_assoc. apply Z.mul_lt_mono_pos_l; [lia|].
    apply Z.mul_lt_mono_pos_l; lia. }
  assert (Hk0 : 0 <= (q + b) / J) by (apply Z.div_pos; lia).
  assert (Hkn : (q + b) / J <= n).
  { apply Z.div_le_upper_bound; [lia|]. nia. }
  exists ((q + b) / J). split; [|lia].
  unfold INT_MIN, INT_MAX.
  destruct (Z.leb_spec (- 2 ^ 31) ((q + b) / J)); [|lia].
  destruct (Z.leb_spec ((q + b) / J) (2 ^ 31 - 1)); [reflexivity|lia].
Qed.

(** The integer side of the rounding below [2^24]: the unit of rounding
    never reaches the next integer. *)
Lemma rhoRange_arith n W K J b :
  0 < n < 2 ^ 24 ->
  2 ^ 52 <= n * W -> 0 < K <= 2 ^ 53 -> 0 < J -> K * J = W * 2 ^ 53 ->
  b = 0 \/ b = 1 ->
  (n * W * 6369051661838303 / K + b) / J = n * 70710678 / 100000000.
Proof.
  intros Hn HnW HK HJ HKJ Hb.
  assert (HW : 2 ^ 28 < W) by nia.
  replace (n * 70710678) with (2 * (n * 35355339)) by lia.
  change 100000000 with (2 * 50000000). rewrite Z.div_mul_cancel_l by lia.
  set (G := n * 35355339 / 50000000).
  pose proof (Z.div_mod (n * 35355339) 50000000 ltac:(lia)) as Hdiv.
  pose proof (Z.mod_pos_bound (n * 35355339) 50000000 ltac:(lia)) as Hmod.
  fold G in Hdiv.
  set (A := n * 6369051661838303).
  assert (HAlo : G * 2 ^ 53 <= A) by (unfold A; lia).
  assert (HAhi : A <= (G + 1) * 2 ^ 53 - 2 ^ 25) by (unfold A; lia).
  replace (n * W * 6369051661838303) with (A * W) by (unfold A; ring).
  assert (Hlo : G * J <= A * W / K).
  { apply Z.div_le_lower_bound; [lia|].
    replace (K * (G * J)) with (G * 2 ^ 53 * W)
      by (rewrite <- Z.mul_assoc, <- (Z.mul_comm W), <- HKJ; ring).
    apply Z.mul_le_mono_nonneg_r; lia. }
  assert (Hhi : A * W / K < (G + 1) * J - 1).
  { apply Z.div_lt_upper_bound; [lia|].
    replace (K * ((G + 1) * J - 1)) with ((G + 1) * 2 ^ 53 * W - K)
      by (rewrite <- Z.mul_assoc, <- (Z.mul_comm W), <- HKJ; ring).
    assert (A * W <= ((G + 1) * 2 ^ 53 - 2 ^ 25) * W)
      by (apply Z.mul_le_mono_nonneg_r; lia).
    assert (2 ^ 25 * 2 ^ 28 <= 2 ^ 25 * W) by (apply Z.mul_le_mono_nonneg_l; lia).
    lia. }
  symmetry. apply (Z.div_unique _ _ _ (A * W / K + b - G * J)); lia.
Qed.

(** Below [2^24], [rhoRange] is the floor of [n * 0.70710678]. *)
Lemma rhoRange_floor n :
  0 <= n < 2 ^ 24 ->
  int_of_float (dmul (double_of_int n) d0_70710678)
  = Some (n * 70710678 / 100000000).
Proof.
  intros Hn. destruct (Z.eq_dec n 0) as [->|Hne]; [reflexivity|].
  destruct (rhoRange_defined n) as (k & Hk & Hkn); [lia|]. rewrite Hk. f_equal.
  destruct (rhoRange_trunc n) as (W & K & J & b & HnW & HK & HJ & HKJ & Hb & Htrunc);
    [lia|].
  unfold int_of_float in Hk. rewrite Htrunc in Hk. cbn [mbind option_bind] in Hk.
  rewrite (rhoRange_arith n W K J b) in Hk by (assumption || lia).
  destruct (_ && _) in Hk; congruence.
Qed.

(** The nearest integer of the specification: [spec_rhoRange] is within
    one half of [n * sqrt(2) / 2]. *)
Lemma spec_rhoRange_nearest n :
  0 < n ->
  (2 * spec_rhoRange n n - 1) ^ 2 <= 2 * n * n < (2 * spec_rhoRange n n + 1) ^ 2.
Proof.
  intros Hn. unfold spec_rhoRange. rewrite Z.max_id. cbn zeta.
  pose proof (Z.sqrt_spec (2 * n * n) ltac:(nia)) as [Hlo Hhi].
  set (s := Z.sqrt (2 * n * n)) in *.
  assert (1 <= s) by (apply Z.sqrt_le_square; nia).
  pose proof (Z.div_mod (s + 1) 2 ltac:(lia)) as Hdiv.
  pose proof (Z.mod_pos_bound (s + 1) 2 ltac:(lia)) as Hmod.
  set (k := (s + 1) / 2) in *. nia.
Qed.

(** ** [init]: the geometry and the size of the histogram *)

Lemma int_mul_Some a b z : int_mul a b = Some z -> z = a * b /\ INT_MIN <= z <= INT_MAX.
Proof.
  unfold int_mul, is_int. destruct (_ && _) eqn:H; [|discriminate].
  intros [= <-]. lia.
Qed.

Lemma int_mul_defined a b : INT_MIN <= a * b <= INT_MAX -> int_mul a b = Some (a * b).
Proof.
  intros H. unfold int_mul, is_int.
  destruct (Z.leb_spec INT_MIN (a * b)), (Z.leb_spec (a * b) INT_MAX); (reflexivity || lia).
Qed.

Lemma int_sub_Some a b z : int_sub a b = Some z -> z = a - b /\ INT_MIN <= z <= INT_MAX.
Proof.
  unfold int_sub, is_int. destruct (_ && _) eqn:H; [|discriminate].
  intros [= <-]. lia.
Qed.


(** The geometry, when it is defined: [rhoRange] is the truncated product
    of line 38 and the histogram has [rhoRange * 2] rows, an [int]. *)
Lemma init_geometry_Some this size_src image g :
  init_geometry this size_src image = Some g ->
  exists k,
    int_of_float (dmul (double_of_int (MAX (cols image) (rows image))) d0_70710678) = Some k /\
    INT_MIN <= k * 2 <= INT_MAX /\
    g = mkHough (cosines this) (sines this) (zeros (k * 2) thetaMax) k
                (Z.quot (cols image) 2) (Z.quot (rows image) 2) size_src.
Proof.
  unfold init_geometry. intros Hg.
  destruct (int_of_float _) as [k|]; [|discriminate]. cbn [mbind option_bind] in Hg.
  destruct (int_mul k 2) as [r|] eqn:Hr; [|discriminate].
  apply int_mul_Some in Hr as [-> Hr]. injection Hg as <-. now exists k.
Qed.

Lemma init_geometry_on_defined this size_src image :
  0 <= rows image < 2 ^ 30 -> 0 <= cols image < 2 ^ 30 ->
  exists k,
    int_of_float (dmul (double_of_int (MAX (cols image) (rows image))) d0_70710678) = Some k /\
    0 <= k <= MAX (cols image) (rows image) /\
    init_geometry this size_src image
    = Some (mkHough (cosines this) (sines this) (zeros (k * 2) thetaMax) k
                    (Z.quot (cols image) 2) (Z.quot (rows image) 2) size_src).
Proof.
  intros Hrows Hcols.
  destruct (rhoRange_defined (MAX (cols image) (rows image))) as (k & Hk & Hkn).
  { unfold MAX. destruct (cols image <? rows image); lia. }
  exists k. split; [exact Hk|]. split; [exact Hkn|].
  unfold init_geometry. rewrite Hk. cbn [mbind option_bind].
  rewrite int_mul_defined; [reflexivity|].
  unfold INT_MIN, INT_MAX, MAX in *. destruct (cols image <? rows image); lia.
Qed.

Lemma init_geometry_defined this src :
  0 <= rows src < 2 ^ 30 -> 0 <= cols src < 2 ^ 30 ->
  exists k,
    int_of_float (dmul (double_of_int (MAX (cols src) (rows src))) d0_70710678) = Some k /\
    0 <= k <= MAX (cols src) (rows src) /\
    init_geometry this (size src) (normalize src)
    = Some (mkHough (cosines this) (sines this) (zeros (k * 2) thetaMax) k
                    (Z.quot (cols src) 2) (Z.quot (rows src) 2)
                    (mkSize (cols src) (rows src))).
Proof.
  intros Hrows Hcols.
  exact (init_geometry_on_defined this (size src) (normalize src) Hrows Hcols).
Qed.

Lemma init_returns_src this src this' src' :
  init this src = Some (this', src') -> src' = src.
Proof.
  unfold init. intros Hrun.
  destruct (init_on this (size src) (normalize src)) as [h|]; [|discriminate].
  now injection Hrun as _ <-.
Qed.

Lemma vote_length this dx dy theta acc acc' :
  vote this dx dy theta acc = Some acc' -> length acc' = length acc.
Proof.
  unfold vote. intros Hrun.
  destruct (rho_index_of this dx dy theta) as [rho_index|]; [|discriminate].
  cbn [mbind option_bind] in Hrun.
  destruct (load acc _) as [v|]; [|discriminate].
  now apply store_length in Hrun.
Qed.

Lemma init_row_length this image y acc acc' :
  init_row this image y acc = Some acc' -> length acc' = length acc.
Proof.
  unfold init_row. apply (for_each_inv (fun a => length a = length acc)); [|reflexivity].
  intros x t t' _ Ht. unfold init_pixel.
  destruct (load (data image) _) as [p|]; [|discriminate]. cbn [mbind option_bind].
  destruct (p =? 0); [now intros [= <-]|].
  apply (for_each_inv (fun a => length a = length acc)); [|exact Ht].
  intros theta u u' _ Hu Hvote. apply vote_length in Hvote. congruence.
Qed.

Lemma init_row_no_edges this image y acc :
  (forall x, 0 <= x < cols image -> load (data image) (ptr image y + x) = Some 0) ->
  init_row this image y acc = Some acc.
Proof.
  intros Hrow. unfold init_row. apply for_each_id.
  intros x Hx. apply elem_of_range in Hx. unfold init_pixel.
  rewrite Hrow by lia. reflexivity.
Qed.

(** C4, as the code has it. After [init], [rhoRange] is the product
    [max(w, h) * 0.70710678], computed in double and truncated toward zero
    (for dimensions below [2^24], the floor of the decimal product), and the
    histogram has exactly [2 * rhoRange] rows and [thetaMax] columns. *)
Theorem init_histogram_size this src this' src' :
  0 <= rows src < 2 ^ 31 -> 0 <= cols src < 2 ^ 31 ->
  init this src = Some (this', src') ->
  int_of_float (dmul (double_of_int (MAX (cols src) (rows src))) d0_70710678)
    = Some (rhoRange this') /\
  (MAX (cols src) (rows src) < 2 ^ 24 ->
   rhoRange this' = MAX (cols src) (rows src) * 70710678 / 100000000) /\
  rows (accum this') = 2 * rhoRange this' /\
  cols (accum this') = thetaMax /\
  Z.of_nat (length (data (accum this'))) = rows (accum this') * cols (accum this').
Proof.
  intros Hrows Hcols Hrun.
  unfold init, init_on in Hrun.
  destruct (init_geometry this (size src) (normalize src)) as [g|] eqn:Hgeo; [|discriminate].
  apply init_geometry_Some in Hgeo as (k & Hk & Hint & ->). cbn [normalize rows cols] in Hk.
  assert (Hk0 : 0 <= k <= MAX (cols src) (rows src)).
  { destruct (rhoRange_defined (MAX (cols src) (rows src))) as (k' & Hk' & Hb).
    { unfold MAX. destruct (cols src <? rows src); lia. }
    rewrite Hk in Hk'. now injection Hk' as <-. }
  cbn [mbind option_bind] in Hrun.
  destruct (for_each _ _ _) as [acc|] eqn:Hloop; [|discriminate].
  cbn [mbind option_bind] in Hrun. injection Hrun as <- <-. cbn [rhoRange accum rows cols data zeros].
  split; [exact Hk|]. split; [|split; [lia|split; [reflexivity|]]].
  - intros Hsmall. assert (Hfloor := rhoRange_floor (MAX (cols src) (rows src))).
    rewrite Hk in Hfloor. assert (0 <= MAX (cols src) (rows src)).
    { unfold MAX. destruct (cols src <? rows src); lia. }
    specialize (Hfloor ltac:(lia)). congruence.
  - assert (Hlen : length acc = Z.to_nat (k * 2 * thetaMax)).
    { revert Hloop.
      apply (for_each_inv (fun a => length a = Z.to_nat (k * 2 * thetaMax))).
      - intros y t t' _ Ht Hrow. apply init_row_length in Hrow. congruence.
      - cbn [accum data zeros]. apply length_replicate. }
    rewrite Hlen. unfold thetaMax. lia.
Qed.

Lemma init_histogram_size_witness :
  exists this',
    init Hough_ctor blank7 = Some (this', blank7) /\
    rhoRange this' = 7 * 70710678 / 100000000 /\
    rows (accum this') = 2 * rhoRange this' /\ cols (accum this') = thetaMax.
Proof.
  assert (Hdef : defined (init Hough_ctor blank7) = true)
    by (rewrite Hough_ctor_tables; vm_compute; reflexivity).
  destruct (init Hough_ctor blank7) as [[this' src']|] eqn:Hrun; [|discriminate Hdef].
  destruct (init_histogram_size Hough_ctor blank7 this' src')
    as (_ & Hfloor & Hr & Hc & _); [cbn; lia..|exact Hrun|].
  pose proof (init_returns_src _ _ _ _ Hrun) as ->.
  exists this'. split; [reflexivity|]. split; [apply Hfloor; cbn; lia|]. split; assumption.
Defined.

(** C4 as stated fails: for a 7x7 image the nearest integer to
    [7 * sqrt(2) / 2 = 4.95] is 5 and [init] stores 4; and for the dimension
    66922, where the product with the square root is 47321.00001, the
    constant 0.70710678 gives 47320 under either rounding. *)
Lemma rhoRange_is_not_rounded :
  fmap (M := option) (fun p : Hough * Mat Z => rhoRange (fst p)) (init Hough_ctor blank7)
    = Some 4 /\
  spec_rhoRange 7 7 = 5 /\
  int_of_float (dmul (double_of_int 66922) d0_70710678) = Some 47320 /\
  spec_rhoRange 66922 66922 = 47321 /\
  spec_rhoRange_truncated 66922 66922 = 47321.
Proof.
  rewrite Hough_ctor_tables.
  split; [|split; [|split; [|split]]]; vm_compute; reflexivity.
Qed.

(** ** [init]: the input image *)

(** The buffer that [normalize] writes for the empty [image] of line 34 is a
    new one. *)
Lemma normalize_into_empty st src m :
  Store.deref st src = Some m ->
  Store.normalize_into st src (Store.mkHeader 0 0 None)
  = Some (st ++ [data (normalize m)],
          Store.mkHeader (Store.h_rows src) (Store.h_cols src) (Some (length st))).
Proof. intros Hm. unfold Store.normalize_into. now rewrite Hm. Qed.

Lemma deref_dims st h m :
  Store.deref st h = Some m -> rows m = Store.h_rows h /\ cols m = Store.h_cols h.
Proof.
  unfold Store.deref. destruct (Store.h_buf h) as [b|].
  - destruct (st !! b); [|discriminate]. now intros [= <-].
  - now intros [= <-].
Qed.

(** On the store, [init] computes what it computes on the value of the
    image, and adds the buffer of the normalized image. *)
Lemma Store_init_agrees this st src m :
  Store.deref st src = Some m ->
  Store.init this st src
  = (fun p : Hough * Mat Z => (fst p, st ++ [data (normalize m)])) <$> init this m.
Proof.
  intros Hm. unfold Store.init. rewrite Hm. cbn [mbind option_bind].
  rewrite (normalize_into_empty st src m Hm). cbn [mbind option_bind].
  destruct (deref_dims st src m Hm) as [Hr Hc].
  unfold Store.deref at 1. cbn [Store.h_buf Store.h_rows Store.h_cols].
  rewrite lookup_app_r, Nat.sub_diag by lia. cbn [lookup list_lookup mbind option_bind].
  rewrite <- Hr, <- Hc. change (mkMat (rows m) (cols m) (data (normalize m))) with (normalize m).
  unfold init. now destruct (init_on this (size m) (normalize m)).
Qed.

(** C10. [init] does not write to the image it is given: every buffer of
    the store, the one of [src] among them, holds after the call what it
    held before, and [src] still denotes the same image. The normalized
    pixels go to a new buffer, that of the local [image]. *)
Theorem init_keeps_src this st src this' st' :
  Store.init this st src = Some (this', st') ->
  (forall b d, st !! b = Some d -> st' !! b = Some d) /\
  Store.deref st' src = Store.deref st src.
Proof.
  intros Hrun. destruct (Store.deref st src) as [m|] eqn:Hm.
  - rewrite (Store_init_agrees this st src m Hm) in Hrun.
    destruct (init this m) as [[h m']|]; [|discriminate]. injection Hrun as _ <-.
    assert (Hkeep : forall (out : list Z) b d,
               st !! b = Some d -> (st ++ [out]) !! b = Some d).
    { intros out b d Hb. rewrite lookup_app_l; [exact Hb|]. eapply lookup_lt_Some; eauto. }
    split; [apply Hkeep|]. unfold Store.deref in Hm. unfold Store.deref.
    destruct (Store.h_buf src) as [b|]; [|exact Hm].
    destruct (st !! b) as [d|] eqn:Hb; [|discriminate].
    rewrite (Hkeep _ b d Hb). exact Hm.
  - unfold Store.init in Hrun. rewrite Hm in Hrun. discriminate.
Qed.

Lemma init_keeps_src_witness :
  exists this' st',
    Store.init Hough_ctor [data two_rows] (Store.mkHeader 2 2 (Some 0%nat))
    = Some (this', st') /\
    st' !! 0%nat = Some (data two_rows) /\
    st' !! 1%nat = Some [255; 0; 255; 0].
Proof.
  assert (Hst : fmap (M := option) snd
                  (Store.init Hough_ctor [data two_rows] (Store.mkHeader 2 2 (Some 0%nat)))
                = Some [data two_rows; [255; 0; 255; 0]])
    by (rewrite Hough_ctor_tables; vm_compute; reflexivity).
  destruct (Store.init Hough_ctor [data two_rows] (Store.mkHeader 2 2 (Some 0%nat)))
    as [[this' st']|] eqn:Hrun; [|discriminate Hst].
  injection Hst as Hst. exists this', st'. split; [reflexivity|].
  split; [|rewrite Hst; reflexivity].
  apply (proj1 (init_keeps_src _ _ _ _ _ Hrun)). reflexivity.
Defined.

(** A normalization whose destination is the source itself would overwrite
    the pixels of the source. *)
Lemma normalize_in_place_overwrites :
  Store.normalize_into [data two_rows] (Store.mkHeader 2 2 (Some 0%nat))
                       (Store.mkHeader 2 2 (Some 0%nat))
  = Some ([[255; 0; 255; 0]], Store.mkHeader 2 2 (Some 0%nat)).
Proof. reflexivity. Qed.

(** ** [init]: the index of a vote *)

(** C2, evaluated where the code departs from it. For the 7x7 image
    [corner7], [rhoRange] is 4 and the histogram has 8 rows; the edge pixel
    (6, 6) has [dx = dy = 3], and at [theta = 45] its index is
    [int(4 + 4.24) = 8 = 2 * rhoRange]: the increment of line 59 is outside
    the buffer, and [init] is undefined. *)
Theorem init_index_out_of_bounds :
  fmap (M := option) (fun g => (rhoRange g, rows (accum g), centerX g, centerY g))
       (init_geometry Hough_ctor (size corner7) (normalize corner7)) = Some (4, 8, 3, 3) /\
  load (data (normalize corner7)) (ptr (normalize corner7) 6 + 6) = Some 255 /\
  (g ← init_geometry Hough_ctor (size corner7) (normalize corner7);
   rho_index_of g (float_of_int (6 - centerX g)) (float_of_int (6 - centerY g)) 45)
    = Some 8 /\
  init Hough_ctor corner7 = None.
Proof.
  rewrite Hough_ctor_tables. split; [|split; [|split]]; vm_compute; reflexivity.
Qed.

(** ** [init]: an image with one pixel, at the centre *)

(** With [dx = dy = 0] every angle votes for the row [rhoRange]. *)
Lemma rho_index_of_centre this theta c s :
  load (cosines this) theta = Some c -> is_finite c = true ->
  load (sines this) theta = Some s -> is_finite s = true ->
  0 < rhoRange this < 2 ^ 24 ->
  rho_index_of this (float_of_int 0) (float_of_int 0) theta = Some (rhoRange this).
Proof.
  intros Hc Hfc Hs Hfs Hrho. unfold rho_index_of.
  rewrite Hc, Hs. cbn [mbind option_bind].
  apply int_of_float_of_int; [exact Hrho|].
  apply fadd_zero_zero; now apply fmul_zero_finite.
Qed.

Lemma foldr_min_le d l :
  foldr Z.min d l <= d /\ forall p, p ∈ l -> foldr Z.min d l <= p.
Proof.
  induction l as [|a l [IHd IHl]]; cbn [foldr].
  - split; [lia|]. intros p Hp. inversion Hp.
  - split; [lia|]. intros p Hp. apply elem_of_cons in Hp as [->|Hp]; [lia|].
    specialize (IHl p Hp). lia.
Qed.

Lemma foldr_min_elem d l : foldr Z.min d l = d \/ foldr Z.min d l ∈ l.
Proof.
  induction l as [|a l IH]; cbn [foldr]; [now left|].
  destruct (Z.min_spec a (foldr Z.min d l)) as [[_ ->]|[_ ->]].
  - right. left.
  - destruct IH as [IH|IH]; [now left|right; now right].
Qed.

Lemma foldr_max_ge d l :
  d <= foldr Z.max d l /\ forall p, p ∈ l -> p <= foldr Z.max d l.
Proof.
  induction l as [|a l [IHd IHl]]; cbn [foldr].
  - split; [lia|]. intros p Hp. inversion Hp.
  - split; [lia|]. intros p Hp. apply elem_of_cons in Hp as [->|Hp]; [lia|].
    specialize (IHl p Hp). lia.
Qed.

Lemma foldr_max_elem d l : foldr Z.max d l = d \/ foldr Z.max d l ∈ l.
Proof.
  induction l as [|a l IH]; cbn [foldr]; [now left|].
  destruct (Z.max_spec a (foldr Z.max d l)) as [[_ ->]|[_ ->]].
  - destruct IH as [IH|IH]; [now left|right; now right].
  - right. left.
Qed.

(** The extrema of a list whose elements are 0 or [v]. *)
Lemma minVal_two_values l v :
  0 < v -> (forall p, p ∈ l -> p = 0 \/ p = v) -> 0 ∈ l -> minVal l = 0.
Proof.
  intros Hv Hall H0. unfold minVal.
  destruct (foldr_min_le (default 0 (head l)) l) as [_ Hle].
  specialize (Hle 0 H0).
  destruct (foldr_min_elem (default 0 (head l)) l) as [Heq|Hin].
  - destruct l as [|a l]; [inversion H0|]. cbn [head default] in *.
    change (id a) with a in *. destruct (Hall a ltac:(left)); lia.
  - destruct (Hall _ Hin); lia.
Qed.

Lemma maxVal_two_values l v :
  0 < v -> (forall p, p ∈ l -> p = 0 \/ p = v) -> v ∈ l -> maxVal l = v.
Proof.
  intros Hv Hall Hin. unfold maxVal.
  destruct (foldr_max_ge (default 0 (head l)) l) as [_ Hge].
  specialize (Hge v Hin).
  destruct (foldr_max_elem (default 0 (head l)) l) as [Heq|Hin'].
  - destruct l as [|a l]; [inversion Hin|]. cbn [head default] in *.
    change (id a) with a in *. destruct (Hall a ltac:(left)); lia.
  - destruct (Hall _ Hin'); lia.
Qed.

Lemma normalize_pixel_max v : 0 < v -> normalize_pixel 0 v v = 255.
Proof.
  intros Hv. unfold normalize_pixel, round_half_even.
  destruct (Z.ltb_spec 0 v); [|lia].
  rewrite Z.sub_0_r, Z.div_mul, Z.mod_mul by lia. cbn zeta.
  destruct (Z.ltb_spec (2 * 0) v); [reflexivity|lia].
Qed.

Lemma normalize_pixel_min v : 0 < v -> normalize_pixel 0 v 0 = 0.
Proof.
  intros Hv. unfold normalize_pixel, round_half_even.
  destruct (Z.ltb_spec 0 v); [|lia].
  replace (255 * (0 - 0)) with 0 by lia. rewrite Z.sub_0_r.
  rewrite Z.div_0_l, Z.mod_0_l by lia.
  destruct (Z.ltb_spec (2 * 0) v); [reflexivity|lia].
Qed.

Lemma normalize_pixel_constant v p : normalize_pixel v v p = 0.
Proof. unfold normalize_pixel. now rewrite Z.ltb_irrefl. Qed.

(** The elements of the data of [centre_only] image, by position. *)
Lemma centre_only_elements src v i p :
  centre_only src v -> data src !! i = Some p ->
  p = if (Z.of_nat i =? ptr src (Z.quot (rows src) 2) + Z.quot (cols src) 2) then v else 0.
Proof.
  intros (Hr & Hc & Hlen & Hv & Hpix) Hi.
  assert (Hlt : (i < length (data src))%nat) by (eapply lookup_lt_Some; eauto).
  rewrite Hlen in Hlt.
  set (y := Z.of_nat i / cols src). set (x := Z.of_nat i mod cols src).
  pose proof (Z.div_mod (Z.of_nat i) (cols src) ltac:(lia)) as Hdm.
  pose proof (Z.mod_pos_bound (Z.of_nat i) (cols src) ltac:(lia)) as Hmod.
  fold y x in Hdm, Hmod.
  assert (Hy : 0 <= y < rows src).
  { split; [apply Z.div_pos; lia|]. apply Z.div_lt_upper_bound; [lia|]. nia. }
  specialize (Hpix y x Hy Hmod).
  assert (Hoff : ptr src y + x = Z.of_nat i) by (unfold ptr; lia).
  rewrite Hoff in Hpix. apply load_Some in Hpix as [_ Hpix].
  rewrite Nat2Z.id, Hi in Hpix. injection Hpix as ->.
  pose proof (Z.quot_pos (rows src) 2 ltac:(lia) ltac:(lia)).
  pose proof (Z.quot_pos (cols src) 2 ltac:(lia) ltac:(lia)).
  pose proof (Z.quot_lt (cols src) 2 ltac:(lia) ltac:(lia)).
  unfold ptr in *.
  destruct (Z.eqb_spec y (Z.quot (rows src) 2)), (Z.eqb_spec x (Z.quot (cols src) 2)),
    (Z.eqb_spec (Z.of_nat i) (Z.quot (rows src) 2 * cols src + Z.quot (cols src) 2));
    cbn [andb]; try reflexivity; try nia.
Qed.

(** After normalization the centre holds 255 when the image has another
    pixel, and every other pixel holds 0; the image of a single pixel is
    constant and is sent to zero. *)
Lemma normalize_centre_only src v y x :
  centre_only src v -> 0 <= y < rows src -> 0 <= x < cols src ->
  load (data (normalize src)) (ptr (normalize src) y + x)
  = Some (if (y =? Z.quot (rows src) 2) && (x =? Z.quot (cols src) 2)
             && (2 <=? rows src * cols src)
          then 255 else 0).
Proof.
  intros Hsrc Hy Hx. pose proof Hsrc as (Hr & Hc & Hlen & Hv & Hpix).
  unfold normalize. cbn [data]. change (ptr (mkMat _ _ _) y) with (ptr src y).
  rewrite load_fmap, (Hpix y x Hy Hx). cbn [fmap option_fmap option_map]. f_equal.
  assert (Hall : forall p, p ∈ data src -> p = 0 \/ p = v).
  { intros p Hp. apply list_elem_of_lookup in Hp as [i Hi].
    rewrite (centre_only_elements src v i p Hsrc Hi). destruct (_ =? _); auto. }
  assert (Hcentre : v ∈ data src).
  { pose proof (Z.quot_pos (rows src) 2 ltac:(lia) ltac:(lia)).
    pose proof (Z.quot_pos (cols src) 2 ltac:(lia) ltac:(lia)).
    pose proof (Z.quot_lt (cols src) 2 ltac:(lia) ltac:(lia)).
    pose proof (Z.quot_lt (rows src) 2 ltac:(lia) ltac:(lia)).
    specialize (Hpix (Z.quot (rows src) 2) (Z.quot (cols src) 2) ltac:(lia) ltac:(lia)).
    rewrite !Z.eqb_refl in Hpix. apply load_Some in Hpix as [_ Hpix].
    eapply list_elem_of_lookup_2; eauto. }
  destruct (Z.leb_spec 2 (rows src * cols src)) as [Hmany|Hone].
  - assert (Hzero : 0 ∈ data src).
    { (* a pixel other than the centre: the first or the last one *)
      set (cy := Z.quot (rows src) 2). set (cx := Z.quot (cols src) 2).
      assert (Hother : exists y' x', 0 <= y' < rows src /\ 0 <= x' < cols src /\
                                     (y' <> cy \/ x' <> cx)).
      { destruct (Z.eq_dec cy 0), (Z.eq_dec cx 0).
        - assert (rows src = 1) by (subst cy; apply Z.quot_small_iff in e; lia).
          assert (cols src = 1) by (subst cx; apply Z.quot_small_iff in e0; lia). nia.
        - exists 0, 0. lia.
        - exists 0, 0. lia.
        - exists 0, 0. lia. }
      destruct Hother as (y' & x' & Hy' & Hx' & Hne).
      specialize (Hpix y' x' Hy' Hx'). fold cy cx in Hpix.
      replace ((y' =? cy) && (x' =? cx)) with false in Hpix
        by (destruct (Z.eqb_spec y' cy), (Z.eqb_spec x' cx); cbn; lia || reflexivity).
      apply load_Some in Hpix as [_ Hpix]. eapply list_elem_of_lookup_2; eauto. }
    rewrite (minVal_two_values _ v), (maxVal_two_values _ v) by (assumption || lia).
    rewrite andb_true_r.
    destruct ((y =? Z.quot (rows src) 2) && (x =? Z.quot (cols src) 2));
      [apply normalize_pixel_max|apply normalize_pixel_min]; lia.
  - rewrite andb_false_r.
    assert (Hdata : exists a, data src = [a]).
    { destruct (data src) as [|a [|b l]] eqn:Hd; cbn [length] in Hlen; [nia|eauto|nia]. }
    destruct Hdata as [a ->]. cbn. apply normalize_pixel_constant.
Qed.

Lemma centre_only_b_sound src v : centre_only_b src v = true -> centre_only src v.
Proof.
  unfold centre_only_b, centre_only. rewrite !andb_true_iff.
  intros [[[[[Hr Hc] Hlen] Hv0] Hv1] Hpix].
  repeat split; try lia.
  intros y x Hy Hx. rewrite forallb_forall in Hpix.
  specialize (Hpix y). rewrite <- list_elem_of_In, elem_of_range in Hpix.
  specialize (Hpix ltac:(lia)). rewrite forallb_forall in Hpix.
  specialize (Hpix x). rewrite <- list_elem_of_In, elem_of_range in Hpix.
  specialize (Hpix ltac:(lia)).
  destruct (load (data src) (ptr src y + x)) as [p|]; [|discriminate].
  f_equal. lia.
Qed.

Lemma row_voted_zeros k : 0 <= k -> row_voted k 0 (data (zeros (k * 2) thetaMax)).
Proof.
  intros Hk. unfold row_voted, zeros. cbn [data]. split; [apply length_replicate|].
  intros off Hoff. rewrite load_replicate by lia.
  destruct (Z.leb_spec (k * thetaMax) off), (Z.ltb_spec off (k * thetaMax + 0));
    cbn [andb]; try reflexivity; lia.
Qed.

(** One vote of the centre pixel: the cell [(k, t)] goes from 0 to 1. *)
Lemma vote_centre this k t acc :
  rhoRange this = k -> cols (accum this) = thetaMax ->
  0 < k < 2 ^ 24 -> finite_tables this = true -> 0 <= t < thetaMax ->
  row_voted k t acc ->
  exists acc', vote this (float_of_int 0) (float_of_int 0) t acc = Some acc'
               /\ row_voted k (t + 1) acc'.
Proof.
  intros Hrho Hcols Hk Hfin Ht [Hlen Hcells].
  destruct (finite_tables_at this t Hfin Ht) as (c & s & Hc & Hfc & Hs & Hfs).
  unfold vote. rewrite (rho_index_of_centre this t c s) by (assumption || lia).
  cbn [mbind option_bind]. unfold at_, ptr. rewrite Hrho, Hcols.
  assert (Hoff : 0 <= k * thetaMax + t < k * 2 * thetaMax) by (unfold thetaMax in *; lia).
  rewrite (Hcells _ Hoff).
  destruct (Z.leb_spec (k * thetaMax) (k * thetaMax + t)); [|lia].
  destruct (Z.ltb_spec (k * thetaMax + t) (k * thetaMax + t)); [lia|].
  cbn [andb mbind option_bind].
  destruct (store_defined acc (k * thetaMax + t) (fadd fzero fone)) as [acc' Hst].
  { rewrite Hlen. unfold thetaMax in *. lia. }
  exists acc'. split; [exact Hst|]. split.
  - rewrite (store_length _ _ _ _ Hst). exact Hlen.
  - intros off Hoff'. rewrite (load_store _ _ _ _ off Hst).
    destruct (Z.eqb_spec off (k * thetaMax + t)) as [->|Hne].
    + destruct (Z.ltb_spec (k * thetaMax + t) (k * thetaMax + (t + 1))); [|lia].
      destruct (Z.leb_spec (k * thetaMax) (k * thetaMax + t)); [|lia].
      reflexivity.
    + rewrite (Hcells _ Hoff').
      destruct (Z.leb_spec (k * thetaMax) off), (Z.ltb_spec off (k * thetaMax + t)),
        (Z.ltb_spec off (k * thetaMax + (t + 1))); cbn [andb]; try reflexivity; lia.
Qed.

(** The loop of lines 54-60 for the centre pixel fills the row [k]. *)
Lemma votes_centre this k acc :
  rhoRange this = k -> cols (accum this) = thetaMax ->
  0 < k < 2 ^ 24 -> finite_tables this = true ->
  row_voted k 0 acc ->
  exists acc', for_each (range 0 thetaMax) (vote this (float_of_int 0) (float_of_int 0)) acc
               = Some acc' /\ row_voted k thetaMax acc'.
Proof.
  intros Hrho Hcols Hk Hfin Hacc.
  apply (for_each_range (row_voted k)); [unfold thetaMax; lia| |exact Hacc].
  intros t u Ht Hu. now apply vote_centre.
Qed.

(** The row of the centre: the pixels before and after the centre are
    skipped, the centre fills the row [k] of the histogram. *)
Lemma init_row_centre this image k cx cy acc :
  rhoRange this = k -> cols (accum this) = thetaMax ->
  centerX this = cx -> centerY this = cy ->
  0 < k < 2 ^ 24 -> finite_tables this = true ->
  0 <= cx < cols image ->
  (forall x, 0 <= x < cols image ->
     load (data image) (ptr image cy + x) = Some (if x =? cx then 255 else 0)) ->
  row_voted k 0 acc ->
  exists acc', init_row this image cy acc = Some acc' /\ row_voted k thetaMax acc'.
Proof.
  intros Hrho Hcols HcX HcY Hk Hfin Hcx Hpix Hacc. unfold init_row.
  destruct (for_each_range
              (fun x a => row_voted k (if x <=? cx then 0 else thetaMax) a)
              0 (cols image)
              (init_pixel this image cy (float_of_int (cy - centerY this))) acc)
    as (acc' & Hrun & Hend); [lia| | |].
  - intros x a Hx Ha. unfold init_pixel. rewrite (Hpix x Hx). cbn [mbind option_bind].
    destruct (Z.eqb_spec x cx) as [->|Hne].
    + change (255 =? 0) with false. cbn iota.
      rewrite HcX, HcY, !Z.sub_diag.
      destruct (Z.leb_spec cx cx); [|lia].
      destruct (Z.leb_spec (cx + 1) cx); [lia|].
      now apply votes_centre.
    + change (0 =? 0) with true. cbn iota. exists a. split; [reflexivity|].
      destruct (Z.leb_spec x cx), (Z.leb_spec (x + 1) cx); try lia; exact Ha.
  - destruct (Z.leb_spec 0 cx); [exact Hacc|lia].
  - exists acc'. split; [exact Hrun|].
    destruct (Z.leb_spec (cols image) cx); [lia|exact Hend].
Qed.

(** C8. For an image whose only pixel that is not zero is the centre,
    [init] is defined and leaves one vote in every cell of the row
    [rhoRange] of the histogram, for all [theta], and no vote in any other
    cell. (The dimensions stay below [2^24], where an [int] is a float; the
    tables hold finite values, as those of the constructor do.) *)
Theorem init_centre_pixel this src v :
  finite_tables this = true ->
  rows src < 2 ^ 24 -> cols src < 2 ^ 24 ->
  centre_only src v ->
  exists this',
    init this src = Some (this', src) /\
    rows (accum this') = 2 * rhoRange this' /\
    cols (accum this') = thetaMax /\
    forall rho_index theta,
      0 <= rho_index < rows (accum this') -> 0 <= theta < thetaMax ->
      load (data (accum this')) (at_ (accum this') rho_index theta)
      = Some (if rho_index =? rhoRange this' then fone else fzero).
Proof.
  intros Hfin Hrows Hcols Hsrc. pose proof Hsrc as (Hr & Hc & Hlen & Hv & Hpix).
  set (cy := Z.quot (rows src) 2). set (cx := Z.quot (cols src) 2).
  assert (Hcy : 0 <= cy < rows src)
    by (split; [apply Z.quot_pos|apply Z.quot_lt]; lia).
  assert (Hcx : 0 <= cx < cols src)
    by (split; [apply Z.quot_pos|apply Z.quot_lt]; lia).
  assert (Hn : 1 <= MAX (cols src) (rows src) < 2 ^ 24)
    by (unfold MAX; destruct (cols src <? rows src); lia).
  destruct (init_geometry_defined this src) as (k & Hk & Hk0 & Hgeo); [lia..|].
  rewrite rhoRange_floor in Hk by lia. injection Hk as Hk.
  unfold init, init_on. rewrite Hgeo. cbn [mbind option_bind].
  set (g := mkHough _ _ _ _ _ _ _).
  cbn [rhoRange accum rows cols centerX centerY cosines sines imageSize].
  assert (Hloop : exists acc,
             for_each (range 0 (rows (normalize src))) (init_row g (normalize src))
                      (data (accum g)) = Some acc /\
             (1 <= k -> row_voted k thetaMax acc)).
  { destruct (Z.leb_spec 2 (rows src * cols src)) as [Hmany|Hone].
    - (* the centre is an edge pixel *)
      assert (Hk1 : 0 < k < 2 ^ 24).
      { assert (2 <= MAX (cols src) (rows src))
          by (unfold MAX; destruct (Z.ltb_spec (cols src) (rows src)); nia).
        split; [|lia]. rewrite <- Hk.
        apply Z.lt_le_trans with 1; [lia|]. apply Z.div_le_lower_bound; lia. }
      destruct (for_each_range
                  (fun y a => row_voted k (if y <=? cy then 0 else thetaMax) a)
                  0 (rows (normalize src)) (init_row g (normalize src)) (data (accum g)))
        as (acc & Hrun & Hend); [cbn; lia| | |].
      + intros y a Hy Ha. cbn [normalize rows] in Hy.
        destruct (Z.eq_dec y cy) as [->|Hne].
        * destruct (Z.leb_spec cy cy); [|lia].
          destruct (Z.leb_spec (cy + 1) cy); [lia|].
          apply (init_row_centre g (normalize src) k cx cy); try reflexivity;
            try assumption.
          intros x Hx. cbn [normalize cols] in Hx.
          rewrite (normalize_centre_only src v cy x Hsrc) by lia.
          fold cy cx. rewrite Z.eqb_refl. cbn [andb].
          destruct (Z.leb_spec 2 (rows src * cols src)); [|lia].
          now rewrite andb_true_r.
        * exists a. split.
          -- apply init_row_no_edges. intros x Hx. cbn [normalize cols] in Hx.
             rewrite (normalize_centre_only src v y x Hsrc) by lia. fold cy cx.
             destruct (Z.eqb_spec y cy); [lia|reflexivity].
          -- destruct (Z.leb_spec y cy), (Z.leb_spec (y + 1) cy); try lia; exact Ha.
      + destruct (Z.leb_spec 0 cy); [|lia]. apply row_voted_zeros. lia.
      + exists acc. split; [exact Hrun|]. intros _.
        cbn [normalize rows] in Hend.
        destruct (Z.leb_spec (rows src) cy); [lia|exact Hend].
    - (* a single pixel: the normalized image is zero, and k = 0 *)
      exists (data (accum g)). split.
      + apply for_each_id. intros y Hy. apply elem_of_range in Hy.
        cbn [normalize rows] in Hy.
        apply init_row_no_edges. intros x Hx. cbn [normalize cols] in Hx.
        rewrite (normalize_centre_only src v y x Hsrc) by lia.
        destruct (Z.leb_spec 2 (rows src * cols src)); [lia|].
        now rewrite andb_false_r.
      + assert (rows src = 1 /\ cols src = 1) as [Hr1 Hc1] by nia.
        rewrite Hr1, Hc1 in Hk. vm_compute in Hk. lia. }
  destruct Hloop as (acc & -> & Hvoted).
  eexists. split; [reflexivity|].
  unfold g, zeros. cbn [rhoRange accum rows cols data].
  split; [lia|]. split; [reflexivity|].
  intros rho_index theta Hrho Htheta.
  destruct Hvoted as [_ Hcells]; [lia|].
  unfold at_, ptr. cbn [cols]. rewrite Hcells by (unfold thetaMax in *; lia).
  f_equal. unfold thetaMax in *.
  destruct (Z.eqb_spec rho_index k), (Z.leb_spec (k * 180) (rho_index * 180 + theta)),
    (Z.ltb_spec (rho_index * 180 + theta) (k * 180 + 180)); cbn [andb];
    try reflexivity; lia.
Qed.

Lemma init_centre_pixel_witness :
  exists this',
    init Hough_ctor centre5 = Some (this', centre5) /\
    rhoRange this' = 3 /\
    load (data (accum this')) (at_ (accum this') 3 45) = Some fone /\
    load (data (accum this')) (at_ (accum this') 2 45) = Some fzero.
Proof.
  assert (Hfin : finite_tables Hough_ctor = true)
    by (rewrite Hough_ctor_tables; vm_compute; reflexivity).
  assert (Hsrc : centre_only centre5 9)
    by (apply centre_only_b_sound; vm_compute; reflexivity).
  destruct (init_centre_pixel Hough_ctor centre5 9 Hfin ltac:(cbn; lia) ltac:(cbn; lia) Hsrc)
    as (this' & Hinit & Hr & Hc & Hcells).
  assert (Hrho : fmap (M := option) (fun p : Hough * Mat Z => rhoRange (fst p))
                   (init Hough_ctor centre5) = Some 3)
    by (rewrite Hough_ctor_tables; vm_compute; reflexivity).
  rewrite Hinit in Hrho. injection Hrho as Hrho.
  exists this'. split; [exact Hinit|]. split; [exact Hrho|].
  split; [rewrite (Hcells 3 45)|rewrite (Hcells 2 45)];
    rewrite ?Hrho, ?Hr; try reflexivity; unfold thetaMax; lia.
Defined.

(** ** [init]: rows that run at the same time *)

(** C5, evaluated where the code departs from it. In [two_rows] the pixels
    (0, 0) and (0, 1) both vote for the cell (0, 0) at [theta = 0]. Run one
    after the other, the two row tasks leave 2 votes in the cell; under the
    schedule [racy], where each task reads the cell before the other writes
    it, every task runs to its end and the cell holds 1 vote. *)
Theorem init_race_loses_a_vote :
  Parallel.init Hough_ctor two_rows (Parallel.sequential [180; 180]%nat)
    = fst <$> init Hough_ctor two_rows /\
  fmap (M := option) (fun h => cell (accum h) 0 0) (fst <$> init Hough_ctor two_rows)
    = Some (float_of_int 2) /\
  fmap (M := option) (fun h => cell (accum h) 0 0) (Parallel.init Hough_ctor two_rows racy)
    = Some (float_of_int 1).
Proof. rewrite Hough_ctor_tables. split; [|split]; vm_compute; reflexivity. Qed.

(** ** [getLines]: the elements pushed and the row pointers *)

Lemma scan_cell_pushed this th prev_row curr_row next_row rho_index theta c_lines c_lines' :
  1 <= rho_index < rows (accum this) - 1 ->
  1 <= theta < thetaMax - 1 ->
  Forall (pushed_by this) c_lines ->
  scan_cell this th prev_row curr_row next_row rho_index theta c_lines = Some c_lines' ->
  Forall (pushed_by this) c_lines'.
Proof.
  intros Hrho Htheta Hall Hrun. unfold scan_cell in Hrun.
  destruct (load th (curr_row + theta)) as [max|]; [|discriminate].
  cbn [mbind option_bind] in Hrun.
  destruct (negb _); [|now injection Hrun as <-].
  destruct (for_each _ _ max) as [max'|]; [|discriminate].
  cbn [mbind option_bind] in Hrun.
  destruct (feq max' max); [|now injection Hrun as <-].
  destruct (getLines_segment this rho_index theta) as [segment|] eqn:Hseg;
    [|discriminate].
  injection Hrun as <-. apply Forall_app. split; [exact Hall|].
  apply Forall_singleton. cbn. auto.
Qed.

Lemma scan_row_pushed this th rho_index st st' :
  1 <= rho_index < rows (accum this) - 1 ->
  Forall (pushed_by this) (snd st) ->
  scan_row this th rho_index st = Some st' ->
  Forall (pushed_by this) (snd st').
Proof.
  destruct st as [[[prev_row curr_row] next_row] c_lines]. cbn [snd scan_row].
  intros Hrho Hall Hrun.
  destruct (for_each _ _ c_lines) as [c_lines'|] eqn:Hloop; [|discriminate].
  injection Hrun as <-. cbn [snd].
  revert Hloop. apply for_each_inv; [|exact Hall].
  intros theta t t' Htheta Ht. apply elem_of_range in Htheta.
  now apply scan_cell_pushed.
Qed.

Lemma getLines_entries_pushed this thresh c_lines :
  getLines_entries this thresh = Some c_lines -> Forall (pushed_by this) c_lines.
Proof.
  unfold getLines_entries. intros Hrun.
  destruct (thresh <? 1); [injection Hrun as <-; constructor|].
  destruct (for_each _ _ _) as [st|] eqn:Hloop; [|discriminate].
  injection Hrun as <-. revert Hloop.
  apply (for_each_inv (fun st => Forall (pushed_by this) (snd st))); [|constructor].
  intros rho_index t t' Hrho Ht. apply elem_of_range in Hrho. cbn in Hrho.
  now apply scan_row_pushed.
Qed.

(** The segments that [getLines] returns are those of its entries. *)
Lemma getLines_entries_segments this thresh :
  getLines this thresh = fmap (M := option) (map snd) (getLines_entries this thresh).
Proof. unfold getLines. now destruct (getLines_entries this thresh). Qed.

Lemma row_pointers_succ {A : Type} (th : Mat A) rho_index :
  1 <= rho_index ->
  row_pointers th (rho_index + 1) = advance th (row_pointers th rho_index) rho_index.
Proof.
  intros H. unfold row_pointers. now rewrite range_snoc, foldl_snoc by lia.
Qed.

(** The row pointers in closed form: from the fourth iteration on, the
    pointer [curr_row] is one row behind the loop index. *)
Lemma row_pointers_closed {A : Type} (th : Mat A) rho_index :
  1 <= rho_index ->
  row_pointers th rho_index =
    if rho_index =? 1 then (ptr th 0, ptr th 1, ptr th 2)
    else if rho_index =? 2 then (ptr th 1, ptr th 2, ptr th 2)
    else if rho_index =? 3 then (ptr th 2, ptr th 2, ptr th 3)
    else (ptr th (rho_index - 2), ptr th (rho_index - 1), ptr th rho_index).
Proof.
  intros H. unfold row_pointers.
  pattern rho_index. apply (Zlt_lower_bound_ind _ 1); [|exact H].
  clear rho_index H. intros r IH Hr.
  destruct (Z.eq_dec r 1) as [->|Hne]; [reflexivity|].
  replace r with ((r - 1) + 1) at 1 by lia.
  rewrite range_snoc, foldl_snoc by lia. rewrite IH by lia.
  destruct (Z.eq_dec r 2) as [->|H2]; [reflexivity|].
  destruct (Z.eq_dec r 3) as [->|H3]; [reflexivity|].
  destruct (Z.eq_dec r 4) as [->|H4]; [reflexivity|].
  repeat match goal with
         | |- context [?a =? ?b] => destruct (Z.eqb_spec a b); [lia|]
         end.
  cbn. do 3 f_equal; lia.
Qed.

(** C9. No element that [getLines] pushes has [rho_index] equal to 0 or to
    [rows - 1], or [theta] equal to 0 or to [thetaMax - 1]; and the row whose
    cells an iteration tests as centres (the row of [curr_row]) is never row
    0 nor row [rows - 1]. *)
Theorem getLines_excludes_boundary this thresh c_lines :
  getLines_entries this thresh = Some c_lines ->
  (forall rho_index theta segment,
      (rho_index, theta, segment) ∈ c_lines ->
      rho_index <> 0 /\ rho_index <> rows (accum this) - 1 /\
      theta <> 0 /\ theta <> thetaMax - 1 /\
      1 <= rho_index <= rows (accum this) - 2 /\ 1 <= theta <= thetaMax - 2) /\
  (forall rho_index,
      1 <= rho_index < rows (accum this) - 1 ->
      exists r, snd (fst (row_pointers (accum this) rho_index)) = ptr (accum this) r /\
                1 <= r <= rows (accum this) - 2).
Proof.
  intros Hrun. split.
  - intros rho_index theta segment Hin. apply getLines_entries_pushed in Hrun.
    rewrite Forall_forall in Hrun. specialize (Hrun _ Hin). cbn in Hrun. lia.
  - intros rho_index Hrho. rewrite row_pointers_closed by lia.
    repeat match goal with
           | |- context [?a =? ?b] => destruct (Z.eqb_spec a b)
           end; cbn [fst snd]; eexists; (split; [reflexivity|lia]).
Qed.

Lemma getLines_excludes_boundary_witness :
  getLines_entries (sample one_cell) 1 = Some [(4, 50, (mkPoint 0 4, mkPoint 5 0))] /\
  (4 <> 0 /\ 4 <> rows (accum (sample one_cell)) - 1 /\ 50 <> 0 /\ 50 <> thetaMax - 1).
Proof.
  assert (Hrun : getLines_entries (sample one_cell) 1
                 = Some [(4, 50, (mkPoint 0 4, mkPoint 5 0))]) by (vm_compute; reflexivity).
  split; [exact Hrun|].
  destruct (getLines_excludes_boundary _ _ _ Hrun) as [Hout _].
  destruct (Hout 4 50 (mkPoint 0 4, mkPoint 5 0) (list_elem_of_here _ _))
    as (H1 & H2 & H3 & H4 & _).
  repeat split; assumption.
Defined.

(** C1, evaluated where the code departs from it. After [init] on the 5x5
    image [centre5] the histogram has 6 rows and one vote in every cell of
    row 3: with the threshold 1 every cell (3, theta) is a local maximum and
    no cell of row 4 is. [getLines] pushes exactly the pairs (4, theta): in
    iteration 3 [curr_row] still points to row 2, and in iteration 4 to row
    3. On the histogram [two_cells] (5 votes at (2, 50), 9 votes at (2, 51))
    only (2, 51) is a local maximum; [getLines] pushes (2, 50) as well,
    since its window reads the columns -1, 0, 1 of the three rows instead of
    the columns around [theta], and (3, 50), (3, 51), whose cells are zero. *)
Theorem getLines_scans_wrong_window :
  (h ← fst <$> init Hough_ctor centre5;
   c_lines ← getLines_entries h 1;
   let thresholded := copyTo_ge (accum h) (float_of_int 1) in
   Some (rows (accum h), map fst c_lines,
         forallb (spec_is_peak thresholded 3) (range 1 (thetaMax - 1)),
         existsb (spec_is_peak thresholded 4) (range 1 (thetaMax - 1))))
    = Some (6, map (fun theta => (4, theta)) (range 1 (thetaMax - 1)), true, false) /\
  fmap (M := option) (map fst) (getLines_entries (sample two_cells) 1)
    = Some [(2, 50); (2, 51); (3, 50); (3, 51)] /\
  map (fun c : Z * Z => spec_is_peak (copyTo_ge two_cells (float_of_int 1)) (fst c) (snd c))
      [(2, 50); (2, 51); (3, 50); (3, 51)] = [false; true; false; false] /\
  row_pointers two_cells 3 = (ptr two_cells 2, ptr two_cells 2, ptr two_cells 3).
Proof.
  rewrite Hough_ctor_tables. split; [|split; [|split]]; vm_compute; reflexivity.
Qed.

(** ** [getLines]: a histogram without votes *)

Lemma copyTo_ge_zeros r c thresh : copyTo_ge (zeros r c) thresh = zeros r c.
Proof.
  unfold copyTo_ge, zeros. cbn [rows cols data]. f_equal.
  rewrite fmap_replicate. f_equal. now destruct (fle thresh fzero).
Qed.

(** On a histogram of zeros no cell passes the test of line 114: the scan
    reads every centre inside the buffer and pushes nothing. *)
Lemma getLines_entries_zeros this thresh r :
  0 <= r -> accum this = zeros r thetaMax ->
  getLines_entries this thresh = Some [].
Proof.
  intros Hr Hacc. unfold getLines_entries.
  destruct (thresh <? 1); [reflexivity|].
  rewrite Hacc, copyTo_ge_zeros. set (th := zeros r thetaMax).
  change (rows th) with r.
  change (ptr th 0, ptr th 1, ptr th 2, @nil entry) with (row_pointers th 1, @nil entry).
  destruct (Z.le_gt_cases 1 (r - 1)) as [Hle|Hgt];
    [|rewrite range_nil by lia; reflexivity].
  destruct (for_each_range (fun rho_index st => st = (row_pointers th rho_index, @nil entry))
              1 (r - 1) (scan_row this th) (row_pointers th 1, [])) as (st & -> & ->);
    [exact Hle| |reflexivity|reflexivity].
  intros rho_index st Hrho ->. eexists. split; [|reflexivity].
  rewrite row_pointers_succ by lia.
  pose proof (row_pointers_closed th rho_index ltac:(lia)) as Hclosed.
  destruct (row_pointers th rho_index) as [[prev_row curr_row] next_row].
  assert (Hcurr : exists r', curr_row = ptr th r' /\ 1 <= r' <= r - 2).
  { repeat match type of Hclosed with
           | context [?a =? ?b] => destruct (Z.eqb_spec a b)
           end; injection Hclosed as _ -> _; eexists; (split; [reflexivity|lia]). }
  destruct Hcurr as (r' & -> & Hr').
  cbn [scan_row advance]. rewrite for_each_id; [reflexivity|].
  intros theta Htheta. apply elem_of_range in Htheta. unfold scan_cell.
  assert (Hload : load (data th) (ptr th r' + theta) = Some fzero).
  { unfold th, zeros, ptr, thetaMax in *. cbn [data cols]. apply load_replicate. nia. }
  rewrite Hload. reflexivity.
Qed.

(** X20. Lines 38-62 on an image without pixels (no rows or no columns),
    whatever its two dimensions below [2^30] are: the loop writes nothing,
    the histogram is left with [2 * rhoRange] rows of zeros, where
    [rhoRange] comes from the larger dimension as for any image, and every
    later [getLines] returns the empty list. The histogram has no rows when
    both dimensions are zero; it has rows when one of them is 2 or more. *)
Theorem init_on_without_pixels this size_src image :
  0 <= rows image < 2 ^ 30 -> 0 <= cols image < 2 ^ 30 ->
  rows image = 0 \/ cols image = 0 ->
  exists this',
    init_on this size_src image = Some this' /\
    int_of_float (dmul (double_of_int (MAX (cols image) (rows image))) d0_70710678)
      = Some (rhoRange this') /\
    accum this' = zeros (rhoRange this' * 2) thetaMax /\
    0 <= rhoRange this' /\
    (rows image = 0 -> cols image = 0 -> rhoRange this' = 0 /\ rows (accum this') = 0) /\
    (2 <= MAX (cols image) (rows image) < 2 ^ 24 -> 2 <= rows (accum this')) /\
    forall thresh, getLines this' thresh = Some [].
Proof.
  intros Hrows Hcols Hempty.
  destruct (init_geometry_on_defined this size_src image Hrows Hcols)
    as (k & Hk & Hk0 & Hgeo).
  eexists. split; [|split; [|split; [|split; [|split; [|split]]]]].
  - unfold init_on. rewrite Hgeo. cbn [mbind option_bind].
    rewrite for_each_id; [reflexivity|].
    intros y Hy. apply elem_of_range in Hy.
    destruct Hempty as [Hr|Hc]; [lia|].
    unfold init_row. rewrite Hc. reflexivity.
  - exact Hk.
  - reflexivity.
  - cbn [rhoRange]. lia.
  - intros Hr Hc. rewrite Hr, Hc in Hk. cbn [rhoRange accum rows zeros].
    assert (k = 0) by (vm_compute in Hk; congruence). lia.
  - intros Hn. cbn [rhoRange accum rows zeros].
    rewrite rhoRange_floor in Hk by lia. injection Hk as <-.
    assert (1 <= MAX (cols image) (rows image) * 70710678 / 100000000)
      by (apply Z.div_le_lower_bound; lia).
    lia.
  - intros thresh. unfold getLines.
    rewrite (getLines_entries_zeros _ thresh (k * 2)); [reflexivity|lia|reflexivity].
Qed.

Lemma init_on_without_pixels_witness :
  exists this',
    init_on Hough_ctor (size no_rows) no_rows = Some this' /\
    rows (accum this') = 14 /\ getLines this' 1 = Some [].
Proof.
  destruct (init_on_without_pixels Hough_ctor (size no_rows) no_rows)
    as (this' & Hinit & Hrho & Hacc & _ & _ & _ & Hlines); [cbn; lia..|].
  exists this'. split; [exact Hinit|]. split; [|apply Hlines].
  assert (Hk : Some (rhoRange this') = Some 7) by (rewrite <- Hrho; vm_compute; reflexivity).
  injection Hk as Hk.
  rewrite Hacc, Hk. reflexivity.
Defined.

(** ** The line conversion *)

Lemma getLine_zero_sine this rho_index theta s :
  load (sines this) theta = Some s -> is_zero s = true ->
  getLine this rho_index theta = None.
Proof.
  intros Hs Hz. unfold getLine.
  destruct (int_sub rho_index _) as [r|]; [|reflexivity].
  cbn [fmap option_fmap option_map mbind option_bind].
  destruct (int_sub 0 _) as [d1|]; [|reflexivity]. cbn [mbind option_bind].
  destruct (load (cosines this) theta) as [c|]; [|reflexivity].
  cbn [mbind option_bind]. rewrite Hs. cbn [mbind option_bind].
  assert (Hdiv : forall x y, int_of_float (fadd (fdiv x s) y) = None).
  { intros x y. apply int_of_float_not_finite. now apply fdiv_by_zero. }
  rewrite Hdiv. reflexivity.
Qed.

(** * More properties of the program *)

(** ** Sums over index ranges *)

Lemma sum_over_cons i idx f : sum_over (i :: idx) f = f i + sum_over idx f.
Proof. reflexivity. Qed.

Lemma sum_over_bump idx (f g : Z -> Z) r :
  NoDup idx ->
  (forall i, i ∈ idx -> g i = f i + (if i =? r then 1 else 0)) ->
  sum_over idx g = sum_over idx f + (if bool_decide (r ∈ idx) then 1 else 0).
Proof.
  induction idx as [|i idx IH]; intros Hnd Hfg; [reflexivity|].
  apply NoDup_cons in Hnd as [Hni Hnd].
  rewrite !sum_over_cons, IH by (try assumption; intros; apply Hfg; now right).
  rewrite (Hfg i) by left.
  destruct (Z.eqb_spec i r) as [->|Hne].
  - rewrite (bool_decide_eq_true_2 (r ∈ r :: idx)) by left.
    rewrite (bool_decide_eq_false_2 (r ∈ idx)) by assumption. lia.
  - destruct (decide (r ∈ idx)) as [Hin|Hnin].
    + rewrite !bool_decide_eq_true_2; [lia|now right|assumption].
    + rewrite !bool_decide_eq_false_2; [lia| |assumption].
      intros [->|?]%elem_of_cons; tauto.
Qed.

Lemma sum_over_ext idx (f g : Z -> Z) :
  (forall i, i ∈ idx -> g i = f i) -> sum_over idx g = sum_over idx f.
Proof.
  induction idx as [|i idx IH]; intros Hfg; [reflexivity|].
  rewrite !sum_over_cons, IH, (Hfg i); [reflexivity|left|].
  intros; apply Hfg; now right.
Qed.

Lemma sum_over_nonneg idx (f : Z -> Z) :
  (forall i, i ∈ idx -> 0 <= f i) -> 0 <= sum_over idx f.
Proof.
  induction idx as [|i idx IH]; intros Hf; [cbn; lia|].
  rewrite sum_over_cons. specialize (Hf i ltac:(left)) as Hi.
  assert (0 <= sum_over idx f) by (apply IH; intros; apply Hf; now right). lia.
Qed.

Lemma sum_over_term_le idx (f : Z -> Z) i :
  (forall j, j ∈ idx -> 0 <= f j) -> i ∈ idx -> f i <= sum_over idx f.
Proof.
  induction idx as [|k idx IH]; intros Hf Hi; [inversion Hi|].
  rewrite sum_over_cons.
  assert (0 <= f k) by (apply Hf; left).
  assert (0 <= sum_over idx f) by (apply sum_over_nonneg; intros; apply Hf; now right).
  apply elem_of_cons in Hi as [->|Hi]; [lia|].
  specialize (IH ltac:(intros; apply Hf; now right) Hi). lia.
Qed.

Lemma sum_over_const idx (c : Z) :
  sum_over idx (fun _ => c) = c * Z.of_nat (length idx).
Proof.
  induction idx as [|i idx IH]; [cbn; lia|].
  rewrite sum_over_cons, IH. cbn [length]. lia.
Qed.

Lemma NoDup_range lo hi : NoDup (range lo hi).
Proof.
  unfold range. apply NoDup_fmap_2; [|apply NoDup_seq].
  intros a b. lia.
Qed.

Lemma length_range lo hi : length (range lo hi) = Z.to_nat (hi - lo).
Proof. unfold range. now rewrite length_fmap, length_seq. Qed.

(** ** Exact conversions and sums in [SpecFloat] *)

Section Exact.

Variables prec emax : Z.
Hypothesis prec_pos : 0 < prec.

(** Shifting out digits that are zero loses nothing. *)
Lemma shr_iter_exact n m M :
  M = Zpos m * 2 ^ Z.of_nat n ->
  Nat.iter n shr_1 (Build_shr_record M false false) = Build_shr_record (Zpos m) false false.
Proof.
  revert M. induction n as [|n IH]; intros M HM.
  - cbn in *. f_equal. lia.
  - rewrite Nat.iter_succ_r.
    rewrite Nat2Z.inj_succ, Z.pow_succ_r in HM by lia.
    destruct M as [|[p|p|]|p]; try lia.
    cbn [shr_1 orb]. apply IH. lia.
Qed.

(** A mantissa whose digits beyond the first [prec] are zero is rounded to
    these [prec] digits. *)
Lemma binary_round_aux_exact s q k M e :
  Zpos (digits2_pos q) = prec -> 0 < k -> Zpos M = Zpos q * 2 ^ k ->
  3 - emax - prec <= e + k <= emax - prec ->
  binary_round_aux prec emax s (Zpos M) e loc_Exact = S754_finite s q (e + k).
Proof.
  intros Hq Hk HM He.
  pose proof (digits2_pos_bounds q) as [Hlo Hhi]. rewrite Hq in Hlo, Hhi.
  assert (H2k : 0 < 2 ^ k) by (apply Z.pow_pos_nonneg; lia).
  assert (HD : Zpos (digits2_pos M) = prec + k).
  { apply digits2_pos_unique. rewrite HM.
    replace (prec + k - 1) with ((prec - 1) + k) by lia.
    rewrite !Z.pow_add_r by lia. nia. }
  destruct k as [|k|k]; [lia| |lia].
  unfold binary_round_aux.
  assert (Hshr : shr_fexp prec emax (Zpos M) e loc_Exact
                 = (Build_shr_record (Zpos q) false false, e + Zpos k)).
  { unfold shr_fexp, fexp, emin. cbn [Zdigits2 shr_record_of_loc]. rewrite HD.
    replace (Z.max (prec + Zpos k + e - prec) (3 - emax - prec) - e) with (Zpos k) by lia.
    cbn [shr]. f_equal. rewrite iter_pos_nat. apply shr_iter_exact.
    now rewrite positive_nat_Z. }
  rewrite Hshr. cbn [shr_m loc_of_shr_record round_nearest_even].
  assert (Hshr' : shr_fexp prec emax (Zpos q) (e + Zpos k) loc_Exact
                  = (Build_shr_record (Zpos q) false false, e + Zpos k)).
  { unfold shr_fexp, fexp, emin. cbn [Zdigits2 shr_record_of_loc]. rewrite Hq.
    replace (Z.max (prec + (e + Zpos k) - prec) (3 - emax - prec) - (e + Zpos k))
      with 0 by lia.
    reflexivity. }
  rewrite Hshr'. cbn [shr_m].
  destruct (Z.leb_spec (e + Zpos k) (emax - prec)); [reflexivity|lia].
Qed.

(** The rounding of [m * 2^j * 2^e], where [m] needs no more than [prec]
    digits, is exact, and depends on the number alone. *)
Lemma binary_round_scaled s m j M e :
  let d := Zpos (digits2_pos m) in
  d <= prec -> 0 <= j -> Zpos M = Zpos m * 2 ^ j ->
  3 - emax - prec <= d + j + e - prec <= emax - prec ->
  exists mz, Zpos mz = Zpos m * 2 ^ (prec - d) /\
             binary_round prec emax s M e = S754_finite s mz (d + j + e - prec).
Proof.
  intros d Hd Hj HM He.
  pose proof (digits2_pos_bounds m) as [Hlo Hhi]. fold d in Hlo, Hhi.
  assert (Hd0 : 0 < d) by (unfold d; lia).
  assert (H2j : 0 < 2 ^ j) by (apply Z.pow_pos_nonneg; lia).
  assert (HD : Zpos (digits2_pos M) = d + j).
  { apply digits2_pos_unique. rewrite HM.
    replace (d + j - 1) with ((d - 1) + j) by lia.
    rewrite !Z.pow_add_r by lia. nia. }
  destruct (Z.le_gt_cases (d + j) prec) as [Hfit|Hbig].
  - destruct (binary_round_exact prec emax s M e) as (mz & Hmz & Hr);
      [rewrite HD; lia..|].
    rewrite HD in Hmz, Hr. exists mz. split; [|exact Hr].
    rewrite Hmz, HM, <- Z.mul_assoc, <- Z.pow_add_r by lia. do 2 f_equal. lia.
  - assert (Hmz : exists mz, Zpos mz = Zpos m * 2 ^ (prec - d)).
    { assert (0 < Zpos m * 2 ^ (prec - d)).
      { apply Z.mul_pos_pos; [lia|]. apply Z.pow_pos_nonneg; lia. }
      destruct (Zpos m * 2 ^ (prec - d)) as [|q|q] eqn:Hq; try lia. now exists q. }
    destruct Hmz as (mz & Hmz). exists mz. split; [exact Hmz|].
    assert (Hdz : Zpos (digits2_pos mz) = prec).
    { apply digits2_pos_unique. rewrite Hmz.
      assert (0 < 2 ^ (prec - d)) by (apply Z.pow_pos_nonneg; lia).
      assert (E1 : 2 ^ (prec - 1) = 2 ^ (d - 1) * 2 ^ (prec - d))
        by (rewrite <- Z.pow_add_r by lia; f_equal; lia).
      assert (E2 : 2 ^ prec = 2 ^ d * 2 ^ (prec - d))
        by (rewrite <- Z.pow_add_r by lia; f_equal; lia).
      rewrite E1, E2. nia. }
    unfold binary_round, shl_align, fexp, emin. rewrite HD.
    replace (Z.max (d + j + e - prec) (3 - emax - prec) - e) with (d + j - prec) by lia.
    destruct (d + j - prec) as [|k|k] eqn:Hk; [lia| |lia].
    rewrite (binary_round_aux_exact s mz (Zpos k)); [f_equal; lia|exact Hdz|lia| |lia].
    rewrite HM, Hmz, <- Z.mul_assoc, <- Z.pow_add_r by lia. do 2 f_equal. lia.
Qed.

(** The rounding of a mantissa [M] of more than [prec] digits, in the normal
    range: [D - prec] digits are dropped and a unit [b] is added or not,
    and it is not when the digits dropped are zero. The result has the
    exponent of the digits kept, or the next one when the unit carries. *)
Lemma binary_round_aux_big s M e :
  let D := Zpos (digits2_pos M) in
  prec < D ->
  3 - emax - prec <= D + e - prec ->
  D + e + 1 <= emax ->
  exists m' e' b,
    binary_round_aux prec emax s (Zpos M) e loc_Exact = S754_finite s m' e' /\
    (b = 0 \/ b = 1) /\
    (Zpos M mod 2 ^ (D - prec) = 0 -> b = 0) /\
    (e' = D + e - prec \/ e' = D + e - prec + 1) /\
    Zpos m' * 2 ^ (e' - (D + e - prec)) = Zpos M / 2 ^ (D - prec) + b /\
    Zpos (digits2_pos m') = prec.
Proof.
  intros D HD Hmin Hmax.
  pose proof (digits2_pos_bounds M) as [HMlo HMhi]. fold D in HMlo, HMhi.
  destruct (D - prec) as [|k|k] eqn:Hk; [lia| |lia].
  assert (H2k : 0 < 2 ^ Zpos k) by (apply Z.pow_pos_nonneg; lia).
  assert (Hpp : 2 ^ prec = 2 * 2 ^ (prec - 1)).
  { replace prec with (Z.succ (prec - 1)) at 1 by lia. apply Z.pow_succ_r. lia. }
  assert (0 < 2 ^ (prec - 1)) by (apply Z.pow_pos_nonneg; lia).
  assert (Hqlo : 2 ^ (prec - 1) <= Zpos M / 2 ^ Zpos k).
  { apply Z.div_le_lower_bound; [lia|].
    replace (D - 1) with (Zpos k + (prec - 1)) in HMlo by lia.
    rewrite Z.pow_add_r in HMlo by lia. lia. }
  assert (Hqhi : Zpos M / 2 ^ Zpos k < 2 ^ prec).
  { apply Z.div_lt_upper_bound; [lia|].
    replace D with (Zpos k + prec) in HMhi by lia.
    rewrite Z.pow_add_r in HMhi by lia. lia. }
  destruct (Z.eq_dec (Zpos M mod 2 ^ Zpos k) 0) as [Hex|Hinex].
  - (* nothing is lost *)
    pose proof (Z.div_mod (Zpos M) (2 ^ Zpos k) ltac:(lia)) as Hdm. rewrite Hex in Hdm.
    destruct (Zpos M / 2 ^ Zpos k) as [|q|q] eqn:Hq; [lia| |lia].
    assert (Hdq : Zpos (digits2_pos q) = prec) by (apply digits2_pos_unique; lia).
    exists q, (e + Zpos k), 0. split; [|split; [auto|split; [auto|split; [left; lia|split]]]].
    + apply binary_round_aux_exact; [exact Hdq|lia|lia|lia].
    + replace (e + Zpos k - (D + e - prec)) with 0 by lia. cbn. lia.
    + exact Hdq.
  - assert (Hshr : shr_fexp prec emax (Zpos M) e loc_Exact
                   = (SpecFloat.iter_pos shr_1 k (Build_shr_record (Zpos M) false false),
                      e + Zpos k)).
    { unfold shr_fexp, fexp, emin. cbn [Zdigits2 shr_record_of_loc]. fold D.
      replace (Z.max (D + e - prec) (3 - emax - prec) - e) with (Zpos k) by lia.
      reflexivity. }
    unfold binary_round_aux. rewrite Hshr. clear Hshr.
    set (mrs := SpecFloat.iter_pos shr_1 k _).
    assert (Hq : shr_m mrs = Zpos M / 2 ^ Zpos k).
    { unfold mrs. rewrite iter_pos_nat.
      destruct (shr_m_iter (Pos.to_nat k) (Build_shr_record (Zpos M) false false)) as [-> _];
        [cbn; lia|].
      cbn [shr_m]. now rewrite positive_nat_Z. }
    set (m1 := round_nearest_even (shr_m mrs) (loc_of_shr_record mrs)).
    assert (Hb : exists b, (b = 0 \/ b = 1) /\ m1 = Zpos M / 2 ^ Zpos k + b).
    { rewrite <- Hq. destruct (round_nearest_even_step (shr_m mrs) (loc_of_shr_record mrs));
        [exists 0|exists 1]; (split; [auto|unfold m1; lia]). }
    destruct Hb as (b & Hb & Hm1).
    destruct m1 as [|p1|p1] eqn:Hp1; [lia| |lia].
    destruct (Z.lt_ge_cases (Zpos p1) (2 ^ prec)) as [Hlt|Hge].
    + (* no carry *)
      assert (Hd1 : Zpos (digits2_pos p1) = prec) by (apply digits2_pos_unique; lia).
      assert (Hshr : shr_fexp prec emax (Zpos p1) (e + Zpos k) loc_Exact
                     = (Build_shr_record (Zpos p1) false false, e + Zpos k)).
      { unfold shr_fexp, fexp, emin. cbn [Zdigits2 shr_record_of_loc]. rewrite Hd1.
        replace (Z.max (prec + (e + Zpos k) - prec) (3 - emax - prec) - (e + Zpos k))
          with 0 by lia.
        reflexivity. }
      rewrite Hshr. cbn [shr_m].
      destruct (Z.leb_spec (e + Zpos k) (emax - prec)); [|lia].
      exists p1, (e + Zpos k), b.
      split; [reflexivity|split; [exact Hb|split; [tauto|split; [left; lia|split]]]].
      * replace (e + Zpos k - (D + e - prec)) with 0 by lia. cbn. lia.
      * exact Hd1.
    + (* the rounding carries into a new digit *)
      assert (Hp1' : Zpos p1 = 2 ^ prec) by lia.
      assert (Hshr : shr_fexp prec emax (Zpos p1) (e + Zpos k) loc_Exact
                     = (shr_1 (Build_shr_record (Zpos p1) false false), e + Zpos k + 1)).
      { unfold shr_fexp, fexp, emin. cbn [Zdigits2 shr_record_of_loc].
        rewrite (digits2_pos_unique p1 (prec + 1)).
        - replace (Z.max (prec + 1 + (e + Zpos k) - prec) (3 - emax - prec) - (e + Zpos k))
            with 1 by lia.
          reflexivity.
        - replace (prec + 1 - 1) with prec by lia. rewrite Z.pow_add_r by lia. lia. }
      rewrite Hshr. clear Hshr.
      destruct p1 as [p2|p2|]; [lia| |lia].
      cbn [shr_1 shr_m orb].
      assert (Hp2 : Zpos p2 = 2 ^ (prec - 1)) by lia.
      destruct (Z.leb_spec (e + Zpos k + 1) (emax - prec)); [|lia].
      exists p2, (e + Zpos k + 1), b.
      split; [reflexivity|split; [exact Hb|split; [tauto|split; [right; lia|split]]]].
      * replace (e + Zpos k + 1 - (D + e - prec)) with 1 by lia. lia.
      * apply digits2_pos_unique. rewrite Hp2. lia.
Qed.

End Exact.

(** The float of an [int] below [2^24], in canonical form: a mantissa of
    24 digits. *)
Lemma float_of_int_canonical c :
  0 < c < 2 ^ 24 ->
  exists m d, 1 <= d <= 24 /\ 2 ^ (d - 1) <= c < 2 ^ d /\
              Zpos m = c * 2 ^ (24 - d) /\
              float_of_int c = S754_finite false m (d - 24).
Proof.
  intros Hc. destruct c as [|p|p]; [lia| |lia].
  pose proof (digits2_pos_bounds p) as [Hlo Hhi].
  assert (Hd24 : Zpos (digits2_pos p) <= 24).
  { assert (Zpos (digits2_pos p) - 1 < 24) by (apply pow2_lt_mono; lia). lia. }
  destruct (binary_round_exact 24 128 false p 0) as (mz & Hmz & Hr); [lia|lia|].
  exists mz, (Zpos (digits2_pos p)). split; [lia|]. split; [lia|]. split; [exact Hmz|].
  unfold float_of_int, binary_normalize. rewrite Hr. f_equal; lia.
Qed.

Lemma votes_float_of_int c : 0 <= c < 2 ^ 24 -> votes (float_of_int c) = c.
Proof.
  intros Hc. destruct (Z.eq_dec c 0) as [->|Hne]; [reflexivity|].
  destruct (float_of_int_canonical c) as (m & d & Hd & Hcd & Hm & ->); [lia|].
  unfold votes. cbn [trunc cond_Zopp from_option id].
  destruct (Z.leb_spec 0 (d - 24)).
  - replace (d - 24) with 0 by lia. replace (24 - d) with 0 in Hm by lia.
    rewrite Hm. cbn. lia.
  - replace (- (d - 24)) with (24 - d) by lia. rewrite Hm.
    apply Z.div_mul. apply Z.pow_nonzero; lia.
Qed.

(** The increment of line 59 is exact below [2^24]. *)
Lemma fadd_one c :
  0 <= c -> c + 1 < 2 ^ 24 -> fadd (float_of_int c) fone = float_of_int (c + 1).
Proof.
  intros Hc0 Hc. destruct (Z.eq_dec c 0) as [->|Hne]; [reflexivity|].
  destruct (float_of_int_canonical c) as (m & d & Hd & Hcd & Hm & ->); [lia|].
  change fone with (S754_finite false 8388608 (-23)).
  unfold fadd, SFadd.
  replace (Z.min (d - 24) (-23)) with (-23) by lia.
  assert (Hal : exists ma, Zpos ma = c * 2 ^ 23 /\
                           fst (shl_align m (d - 24) (-23)) = ma).
  { unfold shl_align. destruct (-23 - (d - 24)) as [|k|k] eqn:Hk; [| lia |].
    - replace (24 - d) with 23 in Hm by lia. now exists m.
    - exists (Pos.iter xO m k). split; [|reflexivity].
      rewrite Pos_iter_xO, Hm, <- Z.mul_assoc, <- Z.pow_add_r by lia.
      do 2 f_equal. lia. }
  destruct Hal as (ma & Hma & ->).
  replace (shl_align 8388608 (-23) (-23)) with (8388608%positive, -23) by reflexivity.
  cbn [fst cond_Zopp].
  destruct (float_of_int_canonical (c + 1)) as (m1 & d1 & Hd1 & Hcd1 & Hm1 & ->); [lia|].
  remember (Zpos ma + 8388608) as S eqn:HS.
  destruct S as [|M|M]; [lia| |lia]. cbn [binary_normalize].
  destruct (c + 1) as [|p1|p1] eqn:Hp1; [lia| |lia].
  assert (Hdp : Zpos (digits2_pos p1) = d1) by (apply digits2_pos_unique; lia).
  destruct (binary_round_scaled 24 128 ltac:(lia) false p1 23 M (-23))
    as (mz & Hmz & ->); [lia|lia|lia|lia|].
  rewrite Hdp in *. f_equal; [|lia]. lia.
Qed.

(** The order of the floats of two [int]s below [2^24] is that of the
    [int]s. *)
Lemma SFcompare_float_of_int a b :
  0 <= a < 2 ^ 24 -> 0 <= b < 2 ^ 24 ->
  SFcompare (float_of_int a) (float_of_int b) = Some (a ?= b).
Proof.
  intros Ha Hb.
  destruct (Z.eq_dec a 0) as [->|Hane], (Z.eq_dec b 0) as [->|Hbne].
  - reflexivity.
  - destruct (float_of_int_canonical b) as (m & d & _ & _ & _ & ->); [lia|].
    destruct b; [lia|reflexivity|lia].
  - destruct (float_of_int_canonical a) as (m & d & _ & _ & _ & ->); [lia|].
    destruct a; [lia|reflexivity|lia].
  - destruct (float_of_int_canonical a) as (ma & da & Hda & Hca & Hma & ->); [lia|].
    destruct (float_of_int_canonical b) as (mb & db & Hdb & Hcb & Hmb & ->); [lia|].
    cbn [SFcompare]. f_equal.
    destruct (Z.compare_spec (da - 24) (db - 24)) as [Heq|Hlt|Hgt].
    + assert (da = db) as -> by lia.
      rewrite Pos.compare_cont_spec.
      replace (Pos.switch_Eq Eq (ma ?= mb)%positive) with (Zpos ma ?= Zpos mb)
        by (cbn [Z.compare]; now destruct (ma ?= mb)%positive).
      rewrite Hma, Hmb.
      assert (0 < 2 ^ (24 - db)) by (apply Z.pow_pos_nonneg; lia).
      destruct (Z.compare_spec a b) as [->|?|?].
      * apply Z.compare_eq_iff. reflexivity.
      * apply Z.compare_lt_iff. nia.
      * apply Z.compare_gt_iff. nia.
    + symmetry. apply Z.compare_lt_iff.
      assert (2 ^ da <= 2 ^ (db - 1)) by (apply Z.pow_le_mono_r; lia). lia.
    + symmetry. apply Z.compare_gt_iff.
      assert (2 ^ db <= 2 ^ (da - 1)) by (apply Z.pow_le_mono_r; lia). lia.
Qed.

Lemma fle_float_of_int a b :
  0 <= a < 2 ^ 24 -> 0 <= b < 2 ^ 24 ->
  fle (float_of_int a) (float_of_int b) = (a <=? b).
Proof.
  intros Ha Hb. unfold fle, SFleb. rewrite SFcompare_float_of_int by assumption.
  unfold Z.leb. now destruct (a ?= b).
Qed.

Lemma feq_float_of_int a b :
  0 <= a < 2 ^ 24 -> 0 <= b < 2 ^ 24 ->
  feq (float_of_int a) (float_of_int b) = (a =? b).
Proof.
  intros Ha Hb. unfold feq, SFeqb. rewrite SFcompare_float_of_int by assumption.
  rewrite Z.eqb_compare. now destruct (a ?= b).
Qed.

Lemma flt_float_of_int a b :
  0 <= a < 2 ^ 24 -> 0 <= b < 2 ^ 24 ->
  flt (float_of_int a) (float_of_int b) = (a <? b).
Proof.
  intros Ha Hb. unfold flt, SFltb. rewrite SFcompare_float_of_int by assumption.
  unfold Z.ltb. now destruct (a ?= b).
Qed.

(** ** More loop rules *)

(** The rule of a counted loop for an invariant that depends on the index,
    for a loop that is known to end. *)
Lemma for_each_range_inv {S : Type} (I : Z -> S -> Prop) lo hi
    (body : Z -> S -> option S) s s' :
  lo <= hi ->
  (forall i t t', lo <= i < hi -> I i t -> body i t = Some t' -> I (i + 1) t') ->
  I lo s -> for_each (range lo hi) body s = Some s' -> I hi s'.
Proof.
  intros Hle Hbody.
  remember (Z.to_nat (hi - lo)) as n eqn:Hn. revert lo s Hle Hbody Hn.
  induction n as [|n IH]; intros lo s Hle Hbody Hn Hs Hrun.
  - assert (lo = hi) as -> by lia. rewrite range_nil in Hrun by lia.
    cbn in Hrun. congruence.
  - rewrite range_cons in Hrun by lia. cbn in Hrun.
    destruct (body lo s) as [t|] eqn:Ht; [|discriminate]. cbn in Hrun.
    apply (IH (lo + 1) t); [lia| |lia| |exact Hrun].
    + intros i u u' Hi. apply Hbody. lia.
    + apply (Hbody lo s t); [lia|exact Hs|exact Ht].
Qed.

(** A loop whose iteration [i] accounts for the elements of [f i]: the
    invariant counts the elements seen, up to a bound [B]. *)
Lemma for_each_counted {S A : Type} (I : Z -> S -> Prop) (f : Z -> list A) B idx
    (body : Z -> S -> option S) s s' n :
  (forall i t t' m, i ∈ idx -> I m t -> m + Z.of_nat (length (f i)) <= B ->
                    body i t = Some t' -> I (m + Z.of_nat (length (f i))) t') ->
  I n s -> n + Z.of_nat (length (idx ≫= f)) <= B ->
  for_each idx body s = Some s' -> I (n + Z.of_nat (length (idx ≫= f))) s'.
Proof.
  revert s n. induction idx as [|i idx IH]; intros s n Hbody Hs HB Hrun.
  - cbn in *. injection Hrun as <-. now rewrite Z.add_0_r.
  - cbn in Hrun. destruct (body i s) as [t|] eqn:Ht; [|discriminate]. cbn in Hrun.
    change ((i :: idx) ≫= f) with (f i ++ (idx ≫= f)) in *.
    rewrite length_app, Nat2Z.inj_add in *. rewrite Z.add_assoc.
    apply (IH t); [| |lia|exact Hrun].
    + intros j u u' m Hj. apply Hbody. now right.
    + apply (Hbody i s t n); [left|exact Hs|lia|exact Ht].
Qed.

(** A loop with an iteration that fails in every state has no result. *)
Lemma for_each_fails {S : Type} idx (body : Z -> S -> option S) s i :
  i ∈ idx -> (forall t, body i t = None) -> for_each idx body s = None.
Proof.
  revert s. induction idx as [|j idx IH]; intros s Hi Hfail; [inversion Hi|].
  cbn. apply elem_of_cons in Hi as [->|Hi]; [now rewrite Hfail|].
  destruct (body j s) as [t|]; [|reflexivity]. cbn. now apply IH.
Qed.

(** ** [init]: the votes of a histogram *)

Lemma tally_zeros R : tally R 0 0 (data (zeros R thetaMax)).
Proof.
  unfold zeros. cbn [data]. split; [apply length_replicate|]. split.
  - intros off Hoff. exists 0. split; [|lia].
    apply load_replicate. lia.
  - intros theta Htheta. destruct (Z.ltb_spec theta 0); [lia|].
    rewrite (sum_over_ext _ (fun _ => 0)); [now rewrite sum_over_const|].
    intros i Hi. apply elem_of_range in Hi.
    rewrite load_replicate; [reflexivity|]. unfold thetaMax in *. nia.
Qed.

Lemma tally_next R n acc : tally R n thetaMax acc <-> tally R (n + 1) 0 acc.
Proof.
  unfold tally. split; intros (Hlen & Hcells & Hsum); (split; [exact Hlen|split; [exact Hcells|]]);
    intros theta Htheta; rewrite (Hsum theta Htheta);
    destruct (Z.ltb_spec theta thetaMax), (Z.ltb_spec theta 0); lia.
Qed.

(** One vote (lines 55-59) adds one to the column of its [theta]. *)
Lemma vote_tally this dx dy R n t acc acc' :
  cols (accum this) = thetaMax ->
  0 <= t < thetaMax -> n + 1 < 2 ^ 24 ->
  tally R n t acc ->
  vote this dx dy t acc = Some acc' ->
  tally R n (t + 1) acc'.
Proof.
  intros Hcols Ht Hn (Hlen & Hcells & Hsum) Hvote.
  assert (Hlen' : length acc' = length acc) by (eapply vote_length; eassumption).
  unfold vote in Hvote.
  destruct (rho_index_of this dx dy t) as [rho|]; [|discriminate].
  cbn [mbind option_bind] in Hvote. unfold at_, ptr in Hvote. rewrite Hcols in Hvote.
  set (off := rho * thetaMax + t) in *.
  destruct (load acc off) as [v|] eqn:Hv; [|discriminate].
  cbn [mbind option_bind] in Hvote.
  assert (Hoff : 0 <= off < R * thetaMax).
  { apply load_Some in Hv as [H0 Hlk]. apply lookup_lt_Some in Hlk. lia. }
  assert (Hrho : 0 <= rho < R) by (unfold off, thetaMax in *; nia).
  destruct (Hcells off Hoff) as (c & Hc & Hc0). rewrite Hv in Hc. injection Hc as ->.
  assert (Hnonneg : forall theta i, i ∈ range 0 R -> 0 <= theta < thetaMax ->
            0 <= votes (default fzero (load acc (i * thetaMax + theta)))).
  { intros theta i Hi Htheta. apply elem_of_range in Hi.
    destruct (Hcells (i * thetaMax + theta)) as (c' & -> & Hc'); [unfold thetaMax in *; nia|].
    cbn [from_option id]. rewrite votes_float_of_int; lia. }
  assert (Hcn : c <= n).
  { pose proof (sum_over_term_le (range 0 R)
                  (fun i => votes (default fzero (load acc (i * thetaMax + t)))) rho
                  ltac:(intros; now apply Hnonneg)
                  ltac:(apply elem_of_range; lia)) as Hle.
    cbn beta in Hle. fold off in Hle. rewrite Hv, (Hsum t Ht) in Hle. cbn [from_option id] in Hle.
    rewrite votes_float_of_int in Hle by lia.
    destruct (Z.ltb_spec t t); lia. }
  rewrite fadd_one in Hvote by lia.
  assert (Hload : forall off', load acc' off'
            = if off' =? off then Some (float_of_int (c + 1)) else load acc off')
    by (intros off'; now apply load_store).
  split; [rewrite Hlen'; exact Hlen|]. split.
  - intros off' Hoff'. rewrite Hload. destruct (Z.eqb_spec off' off).
    + exists (c + 1). split; [reflexivity|lia].
    + now apply Hcells.
  - intros theta Htheta. destruct (Z.eq_dec theta t) as [->|Hne].
    + rewrite (sum_over_bump _ (fun i => votes (default fzero (load acc (i * thetaMax + t)))) _ rho
                 (NoDup_range 0 R)).
      * rewrite (Hsum t Ht), bool_decide_eq_true_2 by (apply elem_of_range; lia).
        destruct (Z.ltb_spec t t), (Z.ltb_spec t (t + 1)); lia.
      * intros i Hi. apply elem_of_range in Hi. rewrite Hload.
        destruct (Z.eqb_spec i rho) as [->|Hir].
        -- fold off. rewrite Z.eqb_refl, Hv. cbn [from_option id].
           rewrite !votes_float_of_int; lia.
        -- destruct (Z.eqb_spec (i * thetaMax + t) off); [unfold off in *; nia|lia].
    + rewrite (sum_over_ext _ (fun i => votes (default fzero (load acc (i * thetaMax + theta))))).
      * rewrite (Hsum theta Htheta).
        destruct (Z.ltb_spec theta t), (Z.ltb_spec theta (t + 1)); lia.
      * intros i Hi. rewrite Hload.
        destruct (Z.eqb_spec (i * thetaMax + theta) off); [|reflexivity].
        unfold off, thetaMax in *. nia.
Qed.

(** The votes of one pixel (lines 47-61). *)
Lemma init_pixel_tally this image y dy R x m acc acc' :
  cols (accum this) = thetaMax ->
  tally R m 0 acc ->
  m + Z.of_nat (length (if is_edge image y x then [(x, y)] else [])) < 2 ^ 24 ->
  init_pixel this image y dy x acc = Some acc' ->
  tally R (m + Z.of_nat (length (if is_edge image y x then [(x, y)] else []))) 0 acc'.
Proof.
  intros Hcols Hacc Hm Hrun. unfold init_pixel in Hrun. unfold is_edge in *.
  destruct (load (data image) (ptr image y + x)) as [p|]; [|discriminate].
  cbn [mbind option_bind] in Hrun.
  destruct (p =? 0); cbn [negb length] in *.
  - injection Hrun as <-. now rewrite Z.add_0_r.
  - apply tally_next. revert Hrun.
    apply (for_each_range_inv (fun t a => tally R m t a)); [unfold thetaMax; lia| |exact Hacc].
    intros t u u' Ht Hu. apply (vote_tally this _ _ R m t u u' Hcols Ht); [lia|exact Hu].
Qed.

Lemma init_row_tally this image y R m acc acc' :
  cols (accum this) = thetaMax ->
  tally R m 0 acc ->
  m + Z.of_nat (length (row_edges image y)) < 2 ^ 24 ->
  init_row this image y acc = Some acc' ->
  tally R (m + Z.of_nat (length (row_edges image y))) 0 acc'.
Proof.
  intros Hcols Hacc Hm. unfold init_row, row_edges.
  apply (for_each_counted (fun m a => tally R m 0 a)
           (fun x => if is_edge image y x then [(x, y)] else []) (2 ^ 24 - 1));
    [|exact Hacc|unfold row_edges in Hm; lia].
  intros x t t' k _ Ht Hk. apply init_pixel_tally; [exact Hcols|exact Ht|lia].
Qed.

(** After [init] on an image with fewer than [2^24] edge pixels, every cell
    of the histogram holds a whole number of votes and every column holds
    as many votes as the image has edge pixels. *)
Lemma init_on_tally this size_src image this' :
  edge_count image < 2 ^ 24 ->
  init_on this size_src image = Some this' ->
  cols (accum this') = thetaMax /\
  tally (rows (accum this')) (edge_count image) 0 (data (accum this')).
Proof.
  intros HN Hrun. unfold init_on in Hrun.
  destruct (init_geometry this size_src image) as [g|] eqn:Hg; [|discriminate].
  cbn [mbind option_bind] in Hrun.
  destruct (for_each _ _ _) as [acc|] eqn:Hloop; [|discriminate].
  injection Hrun as <-. cbn [accum rows cols data].
  apply init_geometry_Some in Hg as (k & _ & _ & ->).
  cbn [accum rows cols data zeros] in *. split; [reflexivity|].
  unfold edge_count, edge_pixels in *.
  apply (for_each_counted (fun m a => tally (k * 2) m 0 a) (row_edges image) (2 ^ 24 - 1))
    with (n := 0) in Hloop.
  - now rewrite Z.add_0_l in Hloop.
  - intros y t t' m _ Ht Hm. apply init_row_tally; [reflexivity|exact Ht|lia].
  - apply tally_zeros.
  - lia.
Qed.

(** ** Thresholds against vote counts *)

(** An [int] from [2^24] on is rounded to a float with a positive exponent. *)
Lemma float_of_int_big z :
  2 ^ 24 <= z < 2 ^ 31 ->
  exists m e, float_of_int z = S754_finite false m e /\ 1 <= e.
Proof.
  intros Hz. destruct z as [|p|p]; [lia| |lia].
  pose proof (digits2_pos_bounds p) as [Hlo Hhi].
  remember (Zpos (digits2_pos p)) as D eqn:HD.
  assert (HD' : 24 < D <= 31).
  { assert (24 < D) by (apply pow2_lt_mono; lia).
    assert (D - 1 < 31) by (apply pow2_lt_mono; lia). lia. }
  destruct (binary_round_aux_big 24 128 ltac:(lia) false p 0)
    as (m' & e' & b & Hr & _ & _ & He' & _); [rewrite <- HD; lia..|].
  rewrite <- HD in He'.
  exists m', e'. split; [|lia].
  unfold float_of_int, binary_normalize, binary_round, shl_align, fexp, emin.
  rewrite <- HD.
  replace (Z.max (D + 0 - 24) (3 - 128 - 24) - 0) with (D - 24) by lia.
  destruct (D - 24) as [|k|k] eqn:Hk; [lia|exact Hr|lia].
Qed.

(** A threshold above the votes of a cell rejects it. *)
Lemma fle_above c thresh :
  0 <= c < 2 ^ 24 -> c < thresh < 2 ^ 31 ->
  fle (float_of_int thresh) (float_of_int c) = false.
Proof.
  intros Hc Ht. destruct (Z.lt_ge_cases thresh (2 ^ 24)) as [Hsmall|Hbig].
  - rewrite fle_float_of_int by lia. apply Z.leb_gt. lia.
  - destruct (float_of_int_big thresh) as (m & e & -> & He); [lia|].
    destruct (Z.eq_dec c 0) as [->|Hne]; [reflexivity|].
    destruct (float_of_int_canonical c) as (mc & d & Hd & _ & _ & ->); [lia|].
    unfold fle, SFleb, SFcompare.
    destruct (Z.compare_spec e (d - 24)); [lia|lia|reflexivity].
Qed.

(** A threshold of at most one vote keeps every cell as it is. *)
Lemma copy_cell_below c thresh :
  0 <= c < 2 ^ 24 -> - 2 ^ 24 < thresh <= 1 ->
  (if fle (float_of_int thresh) (float_of_int c) then float_of_int c else fzero)
  = float_of_int c.
Proof.
  intros Hc Ht. destruct (Z.eq_dec c 0) as [->|Hne].
  - now destruct (fle _ _).
  - destruct (Z.le_gt_cases 0 thresh).
    + rewrite fle_float_of_int by lia. destruct (Z.leb_spec thresh c); [reflexivity|lia].
    + destruct (float_of_int_canonical c) as (mc & d & Hd & _ & _ & ->); [lia|].
      destruct thresh as [|p|p]; [lia|lia|].
      unfold float_of_int at 1. cbn [binary_normalize].
      pose proof (digits2_pos_bounds p) as [Hlo Hhi].
      assert (Hd24 : Zpos (digits2_pos p) <= 24).
      { assert (Zpos (digits2_pos p) - 1 < 24) by (apply pow2_lt_mono; lia). lia. }
      destruct (binary_round_exact 24 128 true p 0) as (mz & _ & ->); [lia|lia|].
      reflexivity.
Qed.

(** The cells of the histogram that [init] leaves, read by their two
    indices, and its columns. *)
Lemma init_cells this src this' src' :
  edge_count (normalize src) < 2 ^ 24 ->
  init this src = Some (this', src') ->
  cols (accum this') = thetaMax /\
  length (data (accum this')) = Z.to_nat (rows (accum this') * thetaMax) /\
  (forall off, 0 <= off < rows (accum this') * thetaMax ->
     exists c, load (data (accum this')) off = Some (float_of_int c) /\
               0 <= c <= edge_count (normalize src)) /\
  (forall theta, 0 <= theta < thetaMax ->
     column_votes (accum this') theta = edge_count (normalize src)).
Proof.
  intros HN Hrun. unfold init in Hrun.
  destruct (init_on this (size src) (normalize src)) as [h|] eqn:Hon; [|discriminate].
  injection Hrun as <- <-.
  destruct (init_on_tally _ _ _ _ HN Hon) as (Hcols & Hlen & Hcells & Hsum).
  assert (Hcol : forall theta, 0 <= theta < thetaMax ->
            column_votes (accum h) theta = edge_count (normalize src)).
  { intros theta Htheta. unfold column_votes, cell, at_, ptr. rewrite Hcols.
    rewrite (Hsum theta Htheta). destruct (Z.ltb_spec theta 0); lia. }
  split; [exact Hcols|]. split; [exact Hlen|]. split; [|exact Hcol].
  intros off Hoff. destruct (Hcells off Hoff) as (c & Hc & Hc0).
  exists c. split; [exact Hc|]. split; [lia|].
  set (R := rows (accum h)) in *.
  assert (Hq : 0 <= off / thetaMax < R).
  { unfold thetaMax in *. split; [apply Z.div_pos; lia|].
    apply Z.div_lt_upper_bound; lia. }
  pose proof (Z.div_mod off thetaMax ltac:(unfold thetaMax; lia)) as Hdm.
  pose proof (Z.mod_pos_bound off thetaMax ltac:(unfold thetaMax; lia)) as Hmod.
  rewrite <- (Hcol (off mod thetaMax) Hmod).
  unfold column_votes, cell, at_, ptr. rewrite Hcols. fold R.
  pose proof (sum_over_term_le (range 0 R)
                (fun i => votes (default fzero (load (data (accum h))
                                                  (i * thetaMax + off mod thetaMax))))
                (off / thetaMax)) as Hle.
  cbn beta in Hle.
  replace (off / thetaMax * thetaMax + off mod thetaMax) with off in Hle by lia.
  rewrite Hc in Hle. cbn [from_option id] in Hle.
  rewrite votes_float_of_int in Hle by lia. apply Hle; [|apply elem_of_range; lia].
  intros i Hi. apply elem_of_range in Hi.
  destruct (Hcells (i * thetaMax + off mod thetaMax)) as (c' & -> & Hc');
    [unfold thetaMax in *; nia|].
  cbn [from_option id]. rewrite votes_float_of_int; lia.
Qed.

Lemma getLines_entries_thresholded_zeros this thresh r :
  0 <= r ->
  copyTo_ge (accum this) (float_of_int thresh) = zeros r thetaMax ->
  getLines_entries this thresh = Some [].
Proof.
  intros Hr Hth.
  pose proof (getLines_entries_zeros
                (mkHough (cosines this) (sines this) (zeros r thetaMax) (rhoRange this)
                         (centerX this) (centerY this) (imageSize this))
                thresh r Hr eq_refl) as H0.
  unfold getLines_entries in *. cbn [accum] in H0. rewrite copyTo_ge_zeros in H0.
  rewrite Hth. exact H0.
Qed.

(** Above the number of edge pixels no cell passes the threshold. *)
Lemma copyTo_ge_above this src this' src' thresh :
  edge_count (normalize src) < 2 ^ 24 ->
  init this src = Some (this', src') ->
  edge_count (normalize src) < thresh < 2 ^ 31 ->
  copyTo_ge (accum this') (float_of_int thresh) = zeros (rows (accum this')) thetaMax.
Proof.
  intros HN Hrun Ht.
  destruct (init_cells _ _ _ _ HN Hrun) as (Hcols & Hlen & Hcells & _).
  unfold copyTo_ge, zeros. rewrite Hcols. f_equal.
  apply list_eq. intros i.
  rewrite list_lookup_fmap.
  destruct (data (accum this') !! i) as [v|] eqn:Hv; cbn [fmap option_fmap option_map].
  - pose proof (lookup_lt_Some _ _ _ Hv) as Hi. rewrite Hlen in Hi.
    destruct (Hcells (Z.of_nat i)) as (c & Hc & Hc0); [lia|].
    apply load_Some in Hc as [_ Hc]. rewrite Nat2Z.id, Hv in Hc. injection Hc as ->.
    rewrite fle_above by lia.
    symmetry. apply lookup_replicate. split; [reflexivity|lia].
  - apply lookup_ge_None in Hv. symmetry. apply lookup_ge_None.
    rewrite length_replicate. lia.
Qed.

(** ** [init]: which pixels vote *)

Lemma for_each_ext {S : Type} idx (body1 body2 : Z -> S -> option S) s :
  (forall i t, i ∈ idx -> body1 i t = body2 i t) ->
  for_each idx body1 s = for_each idx body2 s.
Proof.
  revert s. induction idx as [|i idx IH]; intros s Hext; [reflexivity|].
  cbn. rewrite (Hext i s) by left.
  destruct (body2 i s) as [t|]; [|reflexivity]. cbn.
  apply IH. intros j u Hj. apply Hext. now right.
Qed.

(** In an 8-bit image the normalization sends exactly the pixels of the
    smallest value to zero. *)
Lemma normalize_pixel_zero_iff smin smax p :
  smin <= p <= smax -> smax - smin <= 255 ->
  (normalize_pixel smin smax p =? 0) = (p =? smin).
Proof.
  intros Hp Hrange. unfold normalize_pixel.
  destruct (Z.ltb_spec smin smax) as [Hlt|Hge].
  - destruct (Z.eqb_spec p smin) as [->|Hne].
    + replace (255 * (smin - smin)) with 0 by lia.
      unfold round_half_even. rewrite Z.div_0_l, Z.mod_0_l by lia.
      destruct (Z.ltb_spec (2 * 0) (smax - smin)); [reflexivity|lia].
    + apply Z.eqb_neq.
      assert (Hq : 1 <= 255 * (p - smin) / (smax - smin))
        by (apply Z.div_le_lower_bound; lia).
      unfold round_half_even, saturate_uchar.
      repeat match goal with |- context [if ?c then _ else _] => destruct c end; lia.
  - destruct (Z.eqb_spec p smin); [reflexivity|lia].
Qed.

Lemma extrema_8bit l p :
  (forall q, q ∈ l -> 0 <= q <= 255) -> p ∈ l ->
  minVal l <= p <= maxVal l /\ maxVal l - minVal l <= 255.
Proof.
  intros Hall Hp. unfold minVal, maxVal.
  destruct l as [|a l]; [inversion Hp|]. cbn [head from_option id].
  change (default 0 (Some a)) with a.
  destruct (foldr_min_le a (a :: l)) as [_ Hmin].
  destruct (foldr_max_ge a (a :: l)) as [_ Hmax].
  pose proof (Hall a ltac:(left)) as Ha.
  assert (0 <= foldr Z.min a (a :: l)).
  { destruct (foldr_min_elem a (a :: l)) as [->|Hin]; [lia|]. apply Hall in Hin. lia. }
  assert (foldr Z.max a (a :: l) <= 255).
  { destruct (foldr_max_elem a (a :: l)) as [->|Hin]; [lia|]. apply Hall in Hin. lia. }
  specialize (Hmin p Hp). specialize (Hmax p Hp). lia.
Qed.

Lemma normalize_zero_iff src off p :
  (forall q, q ∈ data src -> 0 <= q <= 255) ->
  load (data src) off = Some p ->
  exists p', load (data (normalize src)) off = Some p' /\
             (p' =? 0) = (p =? minVal (data src)).
Proof.
  intros H8 Hp. unfold normalize. cbn [data]. rewrite load_fmap, Hp.
  eexists. split; [reflexivity|].
  assert (Hin : p ∈ data src).
  { apply load_Some in Hp as [_ Hp]. eapply list_elem_of_lookup_2; eauto. }
  destruct (extrema_8bit _ _ H8 Hin). now apply normalize_pixel_zero_iff.
Qed.


(** ** [init] and the thresholds: theorems *)

Lemma getLines_entries_few_rows this thresh :
  rows (accum this) <= 2 -> getLines_entries this thresh = Some [].
Proof.
  intros Hrows. unfold getLines_entries. destruct (thresh <? 1); [reflexivity|].
  cbn [copyTo_ge rows]. rewrite range_nil by lia. reflexivity.
Qed.

(** X2. A threshold above the number of edge pixels finds no line: no cell
    of the histogram holds that many votes, the thresholded copy is zero
    and [getLines] returns the empty list. *)
Theorem getLines_above_edge_count this src this' src' thresh :
  edge_count (normalize src) < 2 ^ 24 ->
  init this src = Some (this', src') ->
  edge_count (normalize src) < thresh < 2 ^ 31 ->
  getLines this' thresh = Some [].
Proof.
  intros HN Hrun Ht. unfold getLines.
  destruct (Z.le_gt_cases 0 (rows (accum this'))) as [Hr|Hr].
  - rewrite (getLines_entries_thresholded_zeros this' thresh (rows (accum this')));
      [reflexivity|exact Hr|].
    now apply (copyTo_ge_above this src this' src').
  - rewrite getLines_entries_few_rows by lia. reflexivity.
Qed.

Lemma getLines_above_edge_count_witness :
  exists this', init Hough_ctor centre5 = Some (this', centre5) /\
                getLines this' 2 = Some [].
Proof.
  assert (Hdef : defined (init Hough_ctor centre5) = true)
    by (rewrite Hough_ctor_tables; vm_compute; reflexivity).
  destruct (init Hough_ctor centre5) as [[this' src']|] eqn:Hrun; [|discriminate Hdef].
  assert (HN : edge_count (normalize centre5) = 1) by (vm_compute; reflexivity).
  pose proof (getLines_above_edge_count Hough_ctor centre5 this' src' 2) as Hlines.
  rewrite HN in Hlines.
  pose proof (init_returns_src _ _ _ _ Hrun) as ->.
  exists this'. split; [reflexivity|]. apply Hlines; [reflexivity|exact Hrun|lia].
Defined.

(** ** [init]: images without contrast, brightness, repeated calls *)

Lemma extrema_constant l v :
  (forall p, p ∈ l -> p = v) -> l <> [] -> minVal l = v /\ maxVal l = v.
Proof.
  intros Hall Hne. destruct l as [|a l]; [congruence|].
  unfold minVal, maxVal. change (default 0 (head (a :: l))) with a.
  assert (a = v) as -> by (apply Hall; left).
  split.
  - destruct (foldr_min_elem v (v :: l)) as [->|Hin]; [reflexivity|now apply Hall].
  - destruct (foldr_max_elem v (v :: l)) as [->|Hin]; [reflexivity|now apply Hall].
Qed.

(** X4. An image without contrast has no edge pixel. When every pixel of
    an image with dimensions below [2^30] has the same value (255
    included), the normalization sends all of them to zero: [init] is
    defined, leaves a histogram of zeros, and [getLines] returns the empty
    list for every threshold. (From [2^30] on the product [rhoRange * 2] of
    line 39 may not be an [int].) *)
Theorem init_constant_image this src v :
  0 <= rows src < 2 ^ 30 -> 0 <= cols src < 2 ^ 30 ->
  length (data src) = Z.to_nat (rows src * cols src) ->
  (forall p, p ∈ data src -> p = v) ->
  exists this',
    init this src = Some (this', src) /\
    accum this' = zeros (rhoRange this' * 2) thetaMax /\
    forall thresh, getLines this' thresh = Some [].
Proof.
  intros Hrows Hcols Hlen Hall.
  destruct (init_geometry_defined this src Hrows Hcols) as (k & Hk & Hk0 & Hgeo).
  eexists. split; [|split].
  - unfold init, init_on. rewrite Hgeo. cbn [mbind option_bind].
    rewrite for_each_id; [reflexivity|].
    intros y Hy. apply elem_of_range in Hy. cbn [normalize rows] in Hy.
    apply init_row_no_edges. intros x Hx. cbn [normalize cols] in Hx.
    unfold normalize, ptr. cbn [data cols]. rewrite load_fmap.
    assert (Hoff : (Z.to_nat (y * cols src + x) < length (data src))%nat) by nia.
    apply lookup_lt_is_Some_2 in Hoff as [p Hp].
    assert (Hload : load (data src) (y * cols src + x) = Some p)
      by (apply load_Some; split; [nia|exact Hp]).
    rewrite Hload. cbn [fmap option_fmap option_map]. f_equal.
    assert (Hne : data src <> []) by (intros E; rewrite E in Hp; discriminate).
    destruct (extrema_constant _ v Hall Hne) as [-> ->].
    apply normalize_pixel_constant.
  - reflexivity.
  - intros thresh. unfold getLines.
    rewrite (getLines_entries_zeros _ thresh (k * 2)); [reflexivity|lia|reflexivity].
Qed.

Lemma init_constant_image_witness :
  exists this', init Hough_ctor white3 = Some (this', white3) /\
                accum this' = zeros (rhoRange this' * 2) thetaMax /\
                getLines this' 1 = Some [].
Proof.
  destruct (init_constant_image Hough_ctor white3 255) as (this' & Hinit & Hacc & Hlines).
  - cbn. lia.
  - cbn. lia.
  - reflexivity.
  - intros p Hp. vm_compute in Hp.
    repeat (apply elem_of_cons in Hp as [->|Hp]; [reflexivity|]). inversion Hp.
  - exists this'. split; [exact Hinit|]. split; [exact Hacc|apply Hlines].
Defined.





(** X7. An image of at most 2x2 pixels never yields a line: [rhoRange] is
    at most 1, the histogram has at most two rows and so no row between the
    first and the last, and [getLines] returns the empty list whatever the
    threshold and the votes. *)
Theorem getLines_small_image this src this' src' thresh :
  0 <= rows src <= 2 -> 0 <= cols src <= 2 ->
  init this src = Some (this', src') ->
  rows (accum this') <= 2 /\ getLines this' thresh = Some [].
Proof.
  intros Hrows Hcols Hrun.
  destruct (init_geometry_defined this src) as (k & Hk & Hk0 & Hgeo); [lia|lia|].
  assert (Hn : 0 <= MAX (cols src) (rows src) <= 2)
    by (unfold MAX; destruct (cols src <? rows src); lia).
  rewrite rhoRange_floor in Hk by lia. injection Hk as Hk.
  assert (Hk1 : k <= 1).
  { assert (k < 2); [|lia]. rewrite <- Hk. apply Z.div_lt_upper_bound; lia. }
  unfold init, init_on in Hrun. rewrite Hgeo in Hrun. cbn [mbind option_bind] in Hrun.
  destruct (for_each _ _ _) as [acc|]; [|discriminate].
  injection Hrun as <- <-. cbn [accum rows zeros].
  split; [lia|]. unfold getLines. rewrite getLines_entries_few_rows; [reflexivity|].
  cbn [accum rows zeros]. lia.
Qed.

Lemma getLines_small_image_witness :
  exists this', init Hough_ctor two_rows = Some (this', two_rows) /\
                getLines this' 1 = Some [].
Proof.
  assert (Hdef : defined (init Hough_ctor two_rows) = true)
    by (rewrite Hough_ctor_tables; vm_compute; reflexivity).
  destruct (init Hough_ctor two_rows) as [[this' src']|] eqn:Hrun; [|discriminate Hdef].
  destruct (getLines_small_image Hough_ctor two_rows this' src' 1) as [_ Hlines];
    [cbn; lia|cbn; lia|exact Hrun|].
  pose proof (init_returns_src _ _ _ _ Hrun) as ->.
  exists this'. split; [reflexivity|exact Hlines].
Defined.

(** ** [init]: when it is defined *)

Lemma for_each_runs_body {S : Type} (I : S -> Prop) idx (body : Z -> S -> option S) s s' i :
  (forall j t t', j ∈ idx -> I t -> body j t = Some t' -> I t') ->
  I s -> for_each idx body s = Some s' -> i ∈ idx ->
  exists t t', I t /\ body i t = Some t'.
Proof.
  revert s. induction idx as [|j idx IH]; intros s Hinv Hs Hrun Hi; [inversion Hi|].
  cbn in Hrun. destruct (body j s) as [u|] eqn:Hj; [|discriminate]. cbn in Hrun.
  apply elem_of_cons in Hi as [->|Hi]; [now exists s, u|].
  apply (IH u); [|apply (Hinv j s u); [left|exact Hs|exact Hj]|exact Hrun|exact Hi].
  intros j' t t' Hj'. apply Hinv. now right.
Qed.

Lemma for_each_defined {S : Type} (I : S -> Prop) idx (body : Z -> S -> option S) s :
  (forall i t, i ∈ idx -> I t -> exists t', body i t = Some t' /\ I t') ->
  I s -> exists s', for_each idx body s = Some s' /\ I s'.
Proof.
  revert s. induction idx as [|i idx IH]; intros s Hbody Hs; [now exists s|].
  cbn. destruct (Hbody i s) as (t & -> & Ht); [left|exact Hs|]. cbn.
  apply IH; [|exact Ht]. intros j u Hj. apply Hbody. now right.
Qed.

Lemma elem_of_edge_pixels image x y :
  (x, y) ∈ edge_pixels image <->
  0 <= y < rows image /\ 0 <= x < cols image /\ is_edge image y x = true.
Proof.
  unfold edge_pixels, row_edges. rewrite list_elem_of_bind. split.
  - intros (y' & Hin & Hy'). apply list_elem_of_bind in Hin as (x' & Hin & Hx').
    apply elem_of_range in Hy', Hx'.
    destruct (is_edge image y' x') eqn:He; [|inversion Hin].
    apply list_elem_of_singleton in Hin. injection Hin as -> ->. auto.
  - intros (Hy & Hx & He). exists y. split; [|apply elem_of_range; lia].
    apply list_elem_of_bind. exists x. split; [|apply elem_of_range; lia].
    rewrite He. apply list_elem_of_singleton. reflexivity.
Qed.

(** A vote is defined exactly when its row index is, and names a row of
    the histogram. *)
Lemma vote_defined this dx dy theta R acc :
  cols (accum this) = thetaMax -> 0 <= theta < thetaMax ->
  length acc = Z.to_nat (R * thetaMax) ->
  (exists acc', vote this dx dy theta acc = Some acc') <->
  (exists rho_index, rho_index_of this dx dy theta = Some rho_index /\ 0 <= rho_index < R).
Proof.
  intros Hcols Htheta Hlen. unfold vote, at_, ptr. rewrite Hcols.
  destruct (rho_index_of this dx dy theta) as [rho|]; cbn [mbind option_bind].
  - split.
    + intros (acc' & Hrun).
      destruct (load acc (rho * thetaMax + theta)) as [v|] eqn:Hv; [|discriminate].
      apply load_Some in Hv as [H0 Hv]. apply lookup_lt_Some in Hv.
      exists rho. split; [reflexivity|]. unfold thetaMax in *. nia.
    + intros (rho' & [= <-] & Hrho).
      assert (Hoff : 0 <= rho * thetaMax + theta < Z.of_nat (length acc))
        by (unfold thetaMax in *; nia).
      destruct (lookup_lt_is_Some_2 acc (Z.to_nat (rho * thetaMax + theta))) as [v Hv]; [lia|].
      assert (Hload : load acc (rho * thetaMax + theta) = Some v)
        by (apply load_Some; split; [lia|exact Hv]).
      rewrite Hload. cbn [mbind option_bind]. now apply store_defined.
  - split; [intros (? & [=])|intros (? & [=] & _)].
Qed.

Lemma init_pixel_length this image y dy x acc acc' :
  init_pixel this image y dy x acc = Some acc' -> length acc' = length acc.
Proof.
  unfold init_pixel.
  destruct (load (data image) _) as [p|]; [|discriminate]. cbn [mbind option_bind].
  destruct (p =? 0); [now intros [= <-]|].
  apply (for_each_inv (fun a => length a = length acc)); [|reflexivity].
  intros theta u u' _ Hu Hvote. apply vote_length in Hvote. congruence.
Qed.

Lemma init_pixel_defined_iff this image y dy x p R acc :
  cols (accum this) = thetaMax ->
  load (data image) (ptr image y + x) = Some p ->
  length acc = Z.to_nat (R * thetaMax) ->
  (exists acc', init_pixel this image y dy x acc = Some acc') <->
  (is_edge image y x = true -> forall theta, 0 <= theta < thetaMax ->
     exists rho_index,
       rho_index_of this (float_of_int (x - centerX this)) dy theta = Some rho_index /\
       0 <= rho_index < R).
Proof.
  intros Hcols Hp Hlen. unfold init_pixel, is_edge. rewrite Hp. cbn [mbind option_bind].
  destruct (p =? 0); cbn [negb].
  - split; [discriminate|]. intros _. now exists acc.
  - set (dx := float_of_int (x - centerX this)).
    assert (Hkeep : forall j t t', j ∈ range 0 thetaMax ->
              length t = Z.to_nat (R * thetaMax) -> vote this dx dy j t = Some t' ->
              length t' = Z.to_nat (R * thetaMax)).
    { intros j t t' _ Ht Hj. apply vote_length in Hj. congruence. }
    split.
    + intros (acc' & Hrun) _ theta Htheta.
      destruct (for_each_runs_body _ _ _ _ _ theta Hkeep Hlen Hrun) as (t & t' & Ht & Hbody);
        [apply elem_of_range; lia|].
      apply (vote_defined this dx dy theta R t Hcols Htheta Ht). now exists t'.
    + intros Hall.
      destruct (for_each_defined (fun a => length a = Z.to_nat (R * thetaMax))
                  (range 0 thetaMax) (vote this dx dy) acc) as (acc' & Hrun & _);
        [|exact Hlen|now exists acc'].
      intros theta t Htheta Ht. apply elem_of_range in Htheta.
      destruct (proj2 (vote_defined this dx dy theta R t Hcols Htheta Ht)) as (t' & Hvote);
        [now apply Hall|].
      exists t'. split; [exact Hvote|]. apply vote_length in Hvote. congruence.
Qed.

Lemma init_row_defined_iff this image y R acc :
  cols (accum this) = thetaMax ->
  0 <= y < rows image ->
  length (data image) = Z.to_nat (rows image * cols image) ->
  length acc = Z.to_nat (R * thetaMax) ->
  (exists acc', init_row this image y acc = Some acc') <->
  (forall x theta, 0 <= x < cols image -> is_edge image y x = true ->
     0 <= theta < thetaMax ->
     exists rho_index,
       rho_index_of this (float_of_int (x - centerX this)) (float_of_int (y - centerY this))
                    theta = Some rho_index /\ 0 <= rho_index < R).
Proof.
  intros Hcols Hy Himg Hlen.
  assert (Hpix : forall x, 0 <= x < cols image ->
            exists p, load (data image) (ptr image y + x) = Some p).
  { intros x Hx. unfold ptr.
    destruct (lookup_lt_is_Some_2 (data image) (Z.to_nat (y * cols image + x))) as [p Hp];
      [nia|].
    exists p. apply load_Some. split; [nia|exact Hp]. }
  set (dy := float_of_int (y - centerY this)).
  assert (Hkeep : forall j t t', j ∈ range 0 (cols image) ->
            length t = Z.to_nat (R * thetaMax) -> init_pixel this image y dy j t = Some t' ->
            length t' = Z.to_nat (R * thetaMax)).
  { intros j t t' _ Ht Hj. apply init_pixel_length in Hj. congruence. }
  unfold init_row. fold dy. split.
  - intros (acc' & Hrun) x theta Hx He Htheta.
    destruct (for_each_runs_body _ _ _ _ _ x Hkeep Hlen Hrun) as (t & t' & Ht & Hbody);
      [apply elem_of_range; lia|].
    destruct (Hpix x Hx) as (p & Hp).
    apply (proj1 (init_pixel_defined_iff this image y dy x p R t Hcols Hp Ht));
      [now exists t'|exact He|exact Htheta].
  - intros Hall.
    destruct (for_each_defined (fun a => length a = Z.to_nat (R * thetaMax))
                (range 0 (cols image)) (init_pixel this image y dy) acc)
      as (acc' & Hrun & _); [|exact Hlen|now exists acc'].
    intros x t Hx Ht. apply elem_of_range in Hx.
    destruct (Hpix x Hx) as (p & Hp).
    destruct (proj2 (init_pixel_defined_iff this image y dy x p R t Hcols Hp Ht))
      as (t' & Hrun).
    { intros He theta Htheta. now apply Hall. }
    exists t'. split; [exact Hrun|]. apply init_pixel_length in Hrun. congruence.
Qed.

Lemma votes_in_bounds_spec this image :
  votes_in_bounds this image = true <->
  (forall y x theta, 0 <= y < rows image -> 0 <= x < cols image ->
     is_edge image y x = true -> 0 <= theta < thetaMax ->
     exists rho_index,
       rho_index_of this (float_of_int (x - centerX this)) (float_of_int (y - centerY this))
                    theta = Some rho_index /\ 0 <= rho_index < rows (accum this)).
Proof.
  unfold votes_in_bounds. rewrite forallb_forall. split.
  - intros Hall y x theta Hy Hx He Htheta.
    specialize (Hall (x, y)). rewrite <- list_elem_of_In, elem_of_edge_pixels in Hall.
    specialize (Hall ltac:(auto)). rewrite forallb_forall in Hall.
    specialize (Hall theta). rewrite <- list_elem_of_In, elem_of_range in Hall.
    specialize (Hall Htheta). unfold vote_in_bounds in Hall. cbn [fst snd] in Hall.
    destruct (rho_index_of _ _ _ _) as [rho|]; [|discriminate].
    exists rho. split; [reflexivity|lia].
  - intros Hall [x y] Hin. apply list_elem_of_In, elem_of_edge_pixels in Hin as (Hy & Hx & He).
    apply forallb_forall. intros theta Htheta.
    apply list_elem_of_In, elem_of_range in Htheta.
    destruct (Hall y x theta Hy Hx He Htheta) as (rho & Hrho & Hb).
    unfold vote_in_bounds. cbn [fst snd]. rewrite Hrho. lia.
Qed.

(** [init] is defined exactly when every vote is in bounds. *)
Lemma init_defined_spec this src g :
  length (data src) = Z.to_nat (rows src * cols src) ->
  init_geometry this (size src) (normalize src) = Some g ->
  defined (init this src) = votes_in_bounds g (normalize src).
Proof.
  intros Hlen Hgeo. unfold init, init_on. rewrite Hgeo. cbn [mbind option_bind].
  apply init_geometry_Some in Hgeo as (k & _ & _ & ->).
  set (g := mkHough _ _ _ _ _ _ _) in *.
  set (image := normalize src) in *.
  assert (Himg : length (data image) = Z.to_nat (rows image * cols image))
    by (unfold image, normalize; cbn [data rows cols]; now rewrite length_fmap).
  assert (Hgc : cols (accum g) = thetaMax) by reflexivity.
  assert (Hkeep : forall j t t', j ∈ range 0 (rows image) ->
            length t = Z.to_nat (k * 2 * thetaMax) -> init_row g image j t = Some t' ->
            length t' = Z.to_nat (k * 2 * thetaMax)).
  { intros j t t' _ Ht Hj. apply init_row_length in Hj. congruence. }
  assert (Hzero : length (data (accum g)) = Z.to_nat (k * 2 * thetaMax))
    by apply length_replicate.
  apply Bool.eq_true_iff_eq. rewrite votes_in_bounds_spec.
  change (rows (accum g)) with (k * 2). split.
  - intros Hdef y x theta Hy Hx He Htheta.
    destruct (for_each _ _ _) as [acc|] eqn:Hloop; [|discriminate Hdef].
    destruct (for_each_runs_body _ _ _ _ _ y Hkeep Hzero Hloop) as (t & t' & Ht & Hbody);
      [apply elem_of_range; lia|].
    apply (proj1 (init_row_defined_iff g image y (k * 2) t Hgc Hy Himg Ht));
      [now exists t'|exact Hx|exact He|exact Htheta].
  - intros Hall.
    destruct (for_each_defined (fun a => length a = Z.to_nat (k * 2 * thetaMax))
                (range 0 (rows image)) (init_row g image) (data (accum g)))
      as (acc & -> & _); [|exact Hzero|reflexivity].
    intros y t Hy Ht. apply elem_of_range in Hy.
    destruct (proj2 (init_row_defined_iff g image y (k * 2) t Hgc Hy Himg Ht)) as (t' & Hrun).
    { intros x theta Hx He Htheta. now apply Hall. }
    exists t'. split; [exact Hrun|]. apply init_row_length in Hrun. congruence.
Qed.

(** ** [getLines]: what the scan reads and what it pushes *)

Lemma scan_cell_cases this th prev_row curr_row next_row rho_index theta c_lines c_lines' :
  scan_cell this th prev_row curr_row next_row rho_index theta c_lines = Some c_lines' ->
  c_lines' = c_lines \/
  exists v segment,
    load th (curr_row + theta) = Some v /\ feq v fzero = false /\
    c_lines' = c_lines ++ [(rho_index, theta, segment)].
Proof.
  unfold scan_cell. intros Hrun.
  destruct (load th (curr_row + theta)) as [v|] eqn:Hv; [|discriminate].
  cbn [mbind option_bind] in Hrun. change (float_of_int 0) with fzero in Hrun.
  destruct (feq v fzero) eqn:Hz; cbn [negb] in Hrun; [left; congruence|].
  destruct (for_each _ _ v) as [max|]; [|discriminate].
  cbn [mbind option_bind] in Hrun.
  destruct (feq max v); [|left; congruence].
  destruct (getLines_segment this rho_index theta) as [segment|]; [|discriminate].
  injection Hrun as <-. right. now exists v, segment.
Qed.

Lemma row_pointers_copyTo_ge m thresh rho_index :
  row_pointers (copyTo_ge m thresh) rho_index = row_pointers m rho_index.
Proof. reflexivity. Qed.

(** The first row that the scan tests is row 1, and the window of a cell of
    that row that is not zero starts one element before the buffer. *)
Lemma scan_cell_first_row this th theta v c_lines :
  load (data th) (ptr th 1 + theta) = Some v -> feq v fzero = false ->
  scan_cell this (data th) (ptr th 0) (ptr th 1) (ptr th 2) 1 theta c_lines = None.
Proof.
  intros Hv Hz. unfold scan_cell. rewrite Hv. cbn [mbind option_bind].
  change (float_of_int 0) with fzero. rewrite Hz. cbn [negb].
  reflexivity.
Qed.

(** X9. [getLines] reads before the start of the histogram. When the
    thresholded histogram has at least three rows and a cell of row 1 that
    is not zero, in a column from 1 to [thetaMax - 2], the scan of that cell
    reads [prev_row[-1]] with [prev_row] at row 0: the element before the
    buffer. The read is outside the matrix and [getLines] has no defined
    result. *)
Theorem getLines_reads_before_buffer this thresh theta v :
  1 <= thresh -> 3 <= rows (accum this) -> 1 <= theta < thetaMax - 1 ->
  load (data (getAccumulationMatrix this (float_of_int thresh)))
       (ptr (accum this) 1 + theta) = Some v ->
  feq v fzero = false ->
  getLines this thresh = None.
Proof.
  intros Ht Hrows Htheta Hv Hz. unfold getLines, getLines_entries.
  destruct (Z.ltb_spec thresh 1); [lia|].
  set (th := copyTo_ge (accum this) (float_of_int thresh)).
  change (rows th) with (rows (accum this)).
  rewrite range_cons by lia. cbn [for_each scan_row].
  rewrite (for_each_fails _ _ _ theta); [reflexivity|apply elem_of_range; lia|].
  intros c_lines. now apply (scan_cell_first_row this th theta v).
Qed.

Lemma getLines_reads_before_buffer_witness :
  exists this', init Hough_ctor left7 = Some (this', left7) /\ getLines this' 1 = None.
Proof.
  assert (Hcell : fmap (M := option)
            (fun p : Hough * Mat Z =>
               (rows (accum (fst p)),
                load (data (getAccumulationMatrix (fst p) (float_of_int 1)))
                     (ptr (accum (fst p)) 1 + 1)))
            (init Hough_ctor left7) = Some (8, Some fone))
    by (rewrite Hough_ctor_tables; vm_compute; reflexivity).
  destruct (init Hough_ctor left7) as [[this' src']|] eqn:Hrun; [|discriminate Hcell].
  pose proof (init_returns_src _ _ _ _ Hrun) as ->.
  injection Hcell as Hrows Hv. cbn [fst] in Hrows, Hv.
  exists this'. split; [reflexivity|].
  apply (getLines_reads_before_buffer this' 1 1 fone);
    [lia|rewrite Hrows; lia|unfold thetaMax; lia|exact Hv|reflexivity].
Defined.

(** X10. Every element that [getLines] pushes stands for a cell with at
    least [thresh] votes: the cell of column [theta] in the row that
    [curr_row] points to in the iteration [rho_index] holds a value that is
    not zero and not below the threshold. *)
Theorem getLines_reports_cells_at_threshold this thresh c_lines :
  getLines_entries this thresh = Some c_lines ->
  forall rho_index theta segment,
    (rho_index, theta, segment) ∈ c_lines ->
    1 <= thresh /\
    exists v,
      load (data (accum this))
           (snd (fst (row_pointers (accum this) rho_index)) + theta) = Some v /\
      fle (float_of_int thresh) v = true /\ feq v fzero = false.
Proof.
  unfold getLines_entries. intros Hrun.
  destruct (Z.ltb_spec thresh 1) as [|Ht].
  { injection Hrun as <-. intros ? ? ? Hin. inversion Hin. }
  set (th := copyTo_ge (accum this) (float_of_int thresh)) in *.
  destruct (for_each _ _ _) as [st|] eqn:Hloop; [|discriminate].
  injection Hrun as <-.
  set (Good := fun e : entry =>
         exists v, load (data th) (snd (fst (row_pointers th (fst (fst e)))) + snd (fst e))
                   = Some v /\ feq v fzero = false).
  assert (Hall : Forall Good (snd st)).
  { destruct (Z.le_gt_cases 1 (rows th - 1)) as [Hle|Hgt];
      [|rewrite range_nil in Hloop by lia; injection Hloop as <-; constructor].
    enough (fst st = row_pointers th (rows th - 1) /\ Forall Good (snd st)) by tauto.
    revert Hloop.
    apply (for_each_range_inv
             (fun rho_index s => fst s = row_pointers th rho_index /\ Forall Good (snd s)));
      [exact Hle| |split; [reflexivity|constructor]].
    intros rho_index [[[prev_row curr_row] next_row] l] s' Hrho [Hptr Hl] Hrow.
    cbn [fst snd] in Hptr, Hl. cbn [scan_row] in Hrow.
    destruct (for_each _ _ l) as [l'|] eqn:Hinner; [|discriminate].
    injection Hrow as <-. cbn [fst snd]. split.
    - rewrite row_pointers_succ by lia. rewrite <- Hptr. reflexivity.
    - revert Hinner. apply for_each_inv; [|exact Hl].
      intros theta t t' _ Hgood Hcell.
      apply scan_cell_cases in Hcell as [->|(v & segment & Hv & Hz & ->)]; [exact Hgood|].
      apply Forall_app. split; [exact Hgood|]. apply Forall_singleton.
      exists v. cbn [fst snd]. rewrite <- Hptr. cbn [fst snd]. auto. }
  intros rho_index theta segment Hin. split; [exact Ht|].
  rewrite Forall_forall in Hall. destruct (Hall _ Hin) as (v' & Hv' & Hz).
  cbn [fst snd] in Hv'.
  change (row_pointers th rho_index) with (row_pointers (accum this) rho_index) in Hv'.
  unfold th, copyTo_ge in Hv'. cbn [data] in Hv'. rewrite load_fmap in Hv'.
  destruct (load (data (accum this)) _) as [v|]; [|discriminate].
  injection Hv' as Hv'. exists v. split; [reflexivity|].
  destruct (fle (float_of_int thresh) v); [subst v'; auto|].
  subst v'. discriminate.
Qed.

Lemma getLines_reports_cells_at_threshold_witness :
  exists v,
    load (data (accum (sample one_cell)))
         (snd (fst (row_pointers (accum (sample one_cell)) 4)) + 50) = Some v /\
    fle (float_of_int 1) v = true /\ feq v fzero = false.
Proof.
  assert (Hrun : getLines_entries (sample one_cell) 1
                 = Some [(4, 50, (mkPoint 0 4, mkPoint 5 0))]) by (vm_compute; reflexivity).
  exact (proj2 (getLines_reports_cells_at_threshold _ _ _ Hrun 4 50 _
                  (list_elem_of_here _ _))).
Defined.

(** The index pairs of the interior of a histogram of [r] rows. *)
Lemma length_bind_const {A B : Type} (f : A -> list B) l n :
  (forall a, a ∈ l -> length (f a) = n) -> length (l ≫= f) = (length l * n)%nat.
Proof.
  induction l as [|a l IH]; intros Hf; [reflexivity|].
  change ((a :: l) ≫= f) with (f a ++ (l ≫= f)).
  rewrite length_app, IH, (Hf a) by (try left; intros; apply Hf; now right).
  cbn [length]. lia.
Qed.

(** X11. [getLines] pushes at most one element for a pair
    [(rho_index, theta)], so it returns no more segments than the histogram
    has cells off its border: [(rows - 2) * (thetaMax - 2)]. *)
Theorem getLines_one_segment_per_cell this thresh c_lines :
  getLines_entries this thresh = Some c_lines ->
  NoDup (fst <$> c_lines) /\
  (forall lines, getLines this thresh = Some lines ->
     Z.of_nat (length lines) <= Z.max 0 (rows (accum this) - 2) * (thetaMax - 2)).
Proof.
  intros Hrun.
  assert (Hnd : NoDup (fst <$> c_lines)).
  { unfold getLines_entries in Hrun.
    destruct (thresh <? 1); [injection Hrun as <-; constructor|].
    set (th := copyTo_ge (accum this) (float_of_int thresh)) in *.
    destruct (for_each _ _ _) as [st|] eqn:Hloop; [|discriminate].
    injection Hrun as <-.
    set (Before := fun (rho_index theta : Z) (l : list entry) =>
           NoDup (fst <$> l) /\
           Forall (fun e : entry => fst (fst e) < rho_index \/
                                    (fst (fst e) = rho_index /\ snd (fst e) < theta)) l).
    destruct (Z.le_gt_cases 1 (rows th - 1)) as [Hle|Hgt];
      [|rewrite range_nil in Hloop by lia; injection Hloop as <-; constructor].
    enough (Before (rows th - 1) 1 (snd st)) as [H _] by exact H.
    revert Hloop.
    apply (for_each_range_inv (fun rho_index s => Before rho_index 1 (snd s)));
      [exact Hle| |split; constructor].
    intros rho_index [[[prev_row curr_row] next_row] l] s' Hrho Hl Hrow.
    cbn [snd] in Hl. cbn [scan_row] in Hrow.
    destruct (for_each _ _ l) as [l'|] eqn:Hinner; [|discriminate].
    injection Hrow as <-. cbn [snd].
    assert (Hend : Before rho_index (thetaMax - 1) l').
    { revert Hinner.
      apply (for_each_range_inv (fun theta t => Before rho_index theta t));
        [unfold thetaMax; lia| |exact Hl].
      intros theta t t' Htheta [Hnd Hlt] Hcell.
      apply scan_cell_cases in Hcell as [->|(v & segment & _ & _ & ->)].
      - split; [exact Hnd|]. eapply Forall_impl; [exact Hlt|]. cbn. intros e. lia.
      - split.
        + rewrite fmap_app. apply NoDup_app. split; [exact Hnd|]. split; [|apply NoDup_singleton].
          intros p Hp Hp'. cbn in Hp'. apply list_elem_of_singleton in Hp'. subst p.
          apply list_elem_of_fmap in Hp as (e & He & Hin).
          rewrite Forall_forall in Hlt. specialize (Hlt e Hin).
          rewrite <- He in Hlt. cbn in Hlt. lia.
        + apply Forall_app. split.
          * eapply Forall_impl; [exact Hlt|]. cbn. intros e. lia.
          * apply Forall_singleton. cbn. lia. }
    destruct Hend as [Hnd Hlt]. split; [exact Hnd|].
    eapply Forall_impl; [exact Hlt|]. cbn. intros e. lia. }
  split; [exact Hnd|].
  intros lines Hlines. unfold getLines in Hlines. rewrite Hrun in Hlines.
  cbn [mbind option_bind] in Hlines. injection Hlines as <-.
  rewrite length_map.
  replace (length c_lines) with (length (fst <$> c_lines)) by apply length_fmap.
  set (r := rows (accum this)).
  set (interior := (range 1 (r - 1) ≫= fun rho_index =>
                      (fun theta => (rho_index, theta)) <$> range 1 (thetaMax - 1))).
  assert (Hsub : fst <$> c_lines ⊆+ interior).
  { apply NoDup_submseteq; [exact Hnd|].
    intros [rho_index theta] Hin. apply list_elem_of_fmap in Hin as ([p segment] & Hp & Hin).
    cbn in Hp. subst p. apply getLines_entries_pushed in Hrun.
    rewrite Forall_forall in Hrun. specialize (Hrun _ Hin). cbn in Hrun.
    destruct Hrun as (Hrho & Htheta & _). fold r in Hrho.
    apply list_elem_of_bind. exists rho_index. split; [|apply elem_of_range; lia].
    apply list_elem_of_fmap. exists theta. split; [reflexivity|apply elem_of_range; lia]. }
  apply submseteq_length in Hsub.
  assert (Hlen : length interior = (length (range 1 (r - 1)) * Z.to_nat (thetaMax - 2))%nat).
  { apply length_bind_const. intros rho_index _. rewrite length_fmap, length_range.
    f_equal. }
  rewrite Hlen, length_range in Hsub. unfold thetaMax in *. nia.
Qed.

Lemma getLines_one_segment_per_cell_witness :
  exists lines, getLines (sample two_cells) 1 = Some lines /\
                Z.of_nat (length lines) <= 3 * 178.
Proof.
  assert (Hdef : defined (getLines_entries (sample two_cells) 1) = true)
    by (vm_compute; reflexivity).
  destruct (getLines_entries (sample two_cells) 1) as [c_lines|] eqn:Hrun;
    [|discriminate Hdef].
  destruct (getLines_one_segment_per_cell _ _ _ Hrun) as [_ Hlen].
  exists (map (fun e : entry => snd e) c_lines).
  assert (Hlines : getLines (sample two_cells) 1
                   = Some (map (fun e : entry => snd e) c_lines))
    by (unfold getLines; rewrite Hrun; reflexivity).
  split; [exact Hlines|]. exact (Hlen _ Hlines).
Defined.

(** ** Rounding between two integers

    The rounding of binary32 is monotone; in particular a value that lies
    between two integers below [2^24] (which are binary32 numbers) is
    rounded to a float between them. Values are compared in units of
    [2^-149]. *)

Lemma pow2_split a b : 0 <= a -> 0 <= b -> 2 ^ (a + b) = 2 ^ a * 2 ^ b.
Proof. intros. now rewrite Z.pow_add_r. Qed.

Lemma round_aux_between s M e l u :
  let D := Zpos (digits2_pos M) in
  24 < D -> -149 <= e -> 0 <= l <= u -> u < 2 ^ 24 ->
  l * 2 ^ 149 <= Zpos M * 2 ^ (e + 149) <= u * 2 ^ 149 ->
  exists m' e',
    binary_round_aux 24 128 s (Zpos M) e loc_Exact = S754_finite s m' e' /\
    Zpos (digits2_pos m') = 24 /\ D + e - 24 <= e' <= 0 /\
    l * 2 ^ 149 <= Zpos m' * 2 ^ (e' + 149) <= u * 2 ^ 149.
Proof.
  intros D HD He Hlu Hu [Hlo Hhi].
  pose proof (digits2_pos_bounds M) as [HMlo HMhi]. fold D in HMlo, HMhi.
  assert (HP : 0 < 2 ^ (e + 149)) by (apply Z.pow_pos_nonneg; lia).
  assert (HDe : D + e <= 24).
  { assert (2 ^ (D - 1) * 2 ^ (e + 149) < 2 ^ 24 * 2 ^ 149) by nia.
    rewrite <- !Z.pow_add_r in H by lia.
    apply pow2_lt_mono in H; lia. }
  destruct (binary_round_aux_big 24 128 ltac:(lia) s M e)
    as (m' & e' & b & Hr & Hb & Hex & He' & Hval & Hd'); [fold D; lia..|].
  fold D in Hex, He', Hval.
  set (e0 := D + e - 24) in *.
  remember (2 ^ (e + 149)) as P eqn:HPdef.
  remember (2 ^ (D - 24)) as K eqn:HKdef.
  remember (2 ^ (- e0)) as E0 eqn:HE0def.
  remember (2 ^ (e0 + 149)) as Q eqn:HQdef.
  assert (HK : 0 < K) by (subst K; apply Z.pow_pos_nonneg; lia).
  assert (HE0 : 0 < E0) by (subst E0; apply Z.pow_pos_nonneg; unfold e0; lia).
  assert (HQ : Q = K * P).
  { subst Q K P. rewrite <- Z.pow_add_r by lia. f_equal. unfold e0. lia. }
  assert (H149 : 2 ^ 149 = E0 * Q).
  { subst E0 Q. rewrite <- Z.pow_add_r by (unfold e0; lia). f_equal. lia. }
  rewrite H149 in Hlo, Hhi.
  set (q := Zpos M / K) in *.
  pose proof (Z.div_mod (Zpos M) K ltac:(lia)) as Hdm.
  pose proof (Z.mod_pos_bound (Zpos M) K ltac:(lia)) as Hmod.
  fold q in Hdm.
  assert (HMu : Zpos M <= u * E0 * K) by nia.
  assert (HMl : l * E0 * K <= Zpos M) by nia.
  assert (Hql : l * E0 <= q) by (apply Z.div_le_lower_bound; lia).
  assert (Hqu : q + b <= u * E0).
  { assert (q <= u * E0) by (apply Z.div_le_upper_bound; lia).
    destruct (Z.eq_dec q (u * E0)) as [Heq|Hne]; [|lia].
    assert (Zpos M mod K = 0) by nia. specialize (Hex H0). lia. }
  pose proof (digits2_pos_bounds m') as [Hm'lo Hm'hi]. rewrite Hd' in Hm'lo, Hm'hi.
  assert (He'0 : e' <= 0).
  { destruct He' as [->| ->]; [unfold e0; lia|].
    destruct (Z.eq_dec e0 0) as [Hz|]; [|unfold e0 in *; lia].
    replace (e0 + 1 - e0) with 1 in Hval by lia.
    rewrite Hz in HE0def. cbn in HE0def. subst E0.
    change (2 ^ 1) with 2 in Hval. change (2 ^ (24 - 1)) with 8388608 in Hm'lo.
    change (2 ^ 24) with 16777216 in *. lia. }
  exists m', e'. split; [exact Hr|]. split; [exact Hd'|]. split; [lia|].
  assert (Hsv : Zpos m' * 2 ^ (e' + 149) = (q + b) * Q).
  { rewrite <- Hval, <- Z.mul_assoc. f_equal. subst Q.
    rewrite <- Z.pow_add_r by (unfold e0 in *; lia). f_equal. lia. }
  rewrite Hsv, H149.
  assert (0 < Q) by (subst Q; apply Z.pow_pos_nonneg; unfold e0; lia).
  split; nia.
Qed.

Lemma round_between s M e l u :
  -126 <= e -> 0 <= l <= u -> u < 2 ^ 24 ->
  l * 2 ^ 149 <= Zpos M * 2 ^ (e + 149) <= u * 2 ^ 149 ->
  exists m' e',
    binary_round 24 128 s M e = S754_finite s m' e' /\
    Zpos (digits2_pos m') = 24 /\ e - 23 <= e' <= 0 /\
    l * 2 ^ 149 <= Zpos m' * 2 ^ (e' + 149) <= u * 2 ^ 149.
Proof.
  intros He Hlu Hu Hb.
  pose proof (digits2_pos_bounds M) as [HMlo HMhi].
  remember (Zpos (digits2_pos M)) as D eqn:HD.
  assert (HD0 : 0 < D) by lia.
  destruct (Z.le_gt_cases D 24) as [Hfit|Hbig].
  - assert (HP : 0 < 2 ^ (e + 149)) by (apply Z.pow_pos_nonneg; lia).
    assert (HDe : D + e <= 24).
    { assert (2 ^ (D - 1) * 2 ^ (e + 149) < 2 ^ 24 * 2 ^ 149) by nia.
      rewrite <- !Z.pow_add_r in H by lia.
      apply pow2_lt_mono in H; lia. }
    destruct (binary_round_exact 24 128 s M e) as (mz & Hmz & Hr); [lia|lia|].
    rewrite <- HD in Hmz, Hr.
    exists mz, (D + e - 24). split; [exact Hr|]. split; [|split; [lia|]].
    + apply digits2_pos_unique. rewrite Hmz.
      assert (0 < 2 ^ (24 - D)) by (apply Z.pow_pos_nonneg; lia).
      assert (E1 : 2 ^ (24 - 1) = 2 ^ (D - 1) * 2 ^ (24 - D))
        by (rewrite <- Z.pow_add_r by lia; f_equal; lia).
      assert (E2 : 2 ^ 24 = 2 ^ D * 2 ^ (24 - D))
        by (rewrite <- Z.pow_add_r by lia; f_equal; lia).
      rewrite E1, E2. nia.
    + replace (Zpos mz * 2 ^ (D + e - 24 + 149)) with (Zpos M * 2 ^ (e + 149)); [exact Hb|].
      rewrite Hmz, <- Z.mul_assoc, <- Z.pow_add_r by lia. do 2 f_equal. lia.
  - destruct (round_aux_between s M e l u) as (m' & e' & Hr & Hd' & He' & Hv);
      [lia|lia|lia|lia|exact Hb|].
    rewrite <- HD in He'.
    exists m', e'. split; [|split; [exact Hd'|split; [lia|exact Hv]]].
    unfold binary_round, shl_align, fexp, emin. rewrite <- HD.
    replace (Z.max (D + e - 24) (3 - 128 - 24) - e) with (D - 24) by lia.
    destruct (D - 24) as [|k|k] eqn:Hk; [lia|exact Hr|lia].
Qed.

Lemma normalize_between M e l u :
  -126 <= e -> - 2 ^ 24 < l -> l <= u -> u < 2 ^ 24 ->
  l * 2 ^ 149 <= M * 2 ^ (e + 149) <= u * 2 ^ 149 ->
  small_float (e - 23) (binary_normalize 24 128 M e false) /\
  l * 2 ^ 149 <= sval (binary_normalize 24 128 M e false) <= u * 2 ^ 149.
Proof.
  intros He Hl Hlu Hu Hb.
  assert (HP : 0 < 2 ^ (e + 149)) by (apply Z.pow_pos_nonneg; lia).
  destruct M as [|M|M]; cbn [binary_normalize].
  - cbn. lia.
  - destruct (round_between false M e (Z.max l 0) u) as (m' & e' & -> & Hd & He' & Hv);
      [lia|nia|lia|nia|].
    cbn [small_float sval cond_Zopp]. split; [split; [exact Hd|lia]|]. lia.
  - destruct (round_between true M e (Z.max (- u) 0) (- l)) as (m' & e' & -> & Hd & He' & Hv);
      [lia|nia|lia|nia|].
    cbn [small_float sval cond_Zopp]. split; [split; [exact Hd|lia]|]. lia.
Qed.

Lemma shl_align_value m e ez :
  ez <= e -> Zpos (fst (shl_align m e ez)) = Zpos m * 2 ^ (e - ez).
Proof.
  intros Hle. unfold shl_align. destruct (ez - e) as [|k|k] eqn:Hk; cbn [fst].
  - replace (e - ez) with 0 by lia. cbn. lia.
  - lia.
  - rewrite Pos_iter_xO. do 2 f_equal. lia.
Qed.

Lemma sval_shift s m e ez :
  -149 <= ez <= e ->
  cond_Zopp s (Zpos m * 2 ^ (e - ez)) * 2 ^ (ez + 149) = sval (S754_finite s m e).
Proof.
  intros He. cbn [sval].
  replace (e + 149) with ((e - ez) + (ez + 149)) by lia.
  rewrite (Z.pow_add_r 2 (e - ez) (ez + 149)) by lia. destruct s; cbn [cond_Zopp]; ring.
Qed.

(** The sum of two floats whose exact sum lies between two integers. *)
Lemma fadd_between lo x y l u :
  -126 <= lo -> small_float lo x -> small_float lo y ->
  - 2 ^ 24 < l -> l <= u -> u < 2 ^ 24 ->
  l * 2 ^ 149 <= sval x + sval y <= u * 2 ^ 149 ->
  small_float (lo - 23) (fadd x y) /\
  l * 2 ^ 149 <= sval (fadd x y) <= u * 2 ^ 149.
Proof.
  intros Hlo Hx Hy Hl Hlu Hu Hb.
  destruct x as [sx| | |sx mx ex], y as [sy| | |sy my ey]; cbn [small_float] in Hx, Hy;
    try contradiction.
  - cbn [sval] in Hb. split; [now destruct sx, sy|]. destruct sx, sy; cbn; lia.
  - cbn [fadd SFadd]. cbn [sval] in Hb |- *. split; [cbn; lia|]. cbn [sval]. lia.
  - cbn [fadd SFadd]. cbn [sval] in Hb |- *. split; [cbn; lia|]. cbn [sval]. lia.
  - unfold fadd, SFadd.
    set (ez := Z.min ex ey).
    rewrite !shl_align_value by (unfold ez; lia).
    destruct (normalize_between
                (cond_Zopp sx (Zpos mx * 2 ^ (ex - ez)) + cond_Zopp sy (Zpos my * 2 ^ (ey - ez)))
                ez l u) as [Hs Hv]; [unfold ez; lia|lia|lia|lia| |].
    + rewrite Z.mul_add_distr_r, !sval_shift by (unfold ez; lia). exact Hb.
    + split; [|exact Hv].
      destruct (binary_normalize _ _ _ _ _); cbn [small_float] in *; try tauto.
      unfold ez in *. lia.
Qed.

(** The float of an [int] below [2^24]: its value and its shape. *)
Lemma float_of_int_small n :
  - 2 ^ 24 < n < 2 ^ 24 ->
  small_float (-23) (float_of_int n) /\ sval (float_of_int n) = n * 2 ^ 149.
Proof.
  intros Hn. unfold float_of_int.
  destruct (normalize_between n 0 n n) as [Hs Hv]; [lia|lia|lia|lia|cbn; lia|].
  split; [|lia].
  destruct (binary_normalize _ _ _ _ _); cbn [small_float] in *; tauto.
Qed.

Lemma small_float_weaken lo lo' x : lo' <= lo -> small_float lo x -> small_float lo' x.
Proof. intros Hle. destruct x; cbn; try tauto. lia. Qed.

(** The product of an [int] by an entry of a table is no larger than the
    [int]. *)
Lemma fmul_unit n c A :
  Z.abs n <= A -> A < 2 ^ 24 -> unit_entry c = true ->
  small_float (-60) (fmul (float_of_int n) c) /\
  - A * 2 ^ 149 <= sval (fmul (float_of_int n) c) <= A * 2 ^ 149.
Proof.
  intros Hn HA Hc.
  destruct (float_of_int_small n) as [Hs Hv]; [lia|].
  destruct (float_of_int n) as [sx| | |sx mx ex]; cbn [small_float] in Hs; try contradiction.
  - destruct c as [sc| | |sc mc ec]; try discriminate; cbn; lia.
  - destruct c as [sc| | |sc mc ec]; try discriminate; [cbn; lia|].
    unfold unit_entry in Hc. rewrite !andb_true_iff in Hc.
    destruct Hc as [[[Hdc Hec] Hec'] Hmc].
    apply Z.eqb_eq in Hdc. apply Z.leb_le in Hec, Hec', Hmc.
    destruct Hs as [Hdx Hex].
    pose proof (digits2_pos_bounds mx) as [Hxlo Hxhi]. rewrite Hdx in Hxlo, Hxhi.
    pose proof (digits2_pos_bounds mc) as [Hclo Hchi]. rewrite Hdc in Hclo, Hchi.
    change (2 ^ (24 - 1)) with 8388608 in *. change (2 ^ 24) with 16777216 in *.
    assert (Hmx : Zpos mx * 2 ^ (ex + 149) <= A * 2 ^ 149).
    { cbn [sval] in Hv. destruct sx; cbn [cond_Zopp] in Hv; nia. }
    pose proof (digits2_pos_bounds (mx * mc)) as [HMlo HMhi].
    remember (Zpos (digits2_pos (mx * mc))) as D eqn:HD.
    assert (HD' : 47 <= D).
    { assert (2 ^ 46 < 2 ^ D); [|apply pow2_lt_mono in H; lia].
      rewrite Pos2Z.inj_mul in HMhi. change (2 ^ 46) with (8388608 * 8388608). nia. }
    assert (Hexact : Zpos (mx * mc) * 2 ^ (ex + ec + 149) <= A * 2 ^ 149).
    { assert (0 < 2 ^ (ex + ec + 149)) by (apply Z.pow_pos_nonneg; lia).
      assert (E : 2 ^ (ex + 149) = 2 ^ (- ec) * 2 ^ (ex + ec + 149))
        by (rewrite <- Z.pow_add_r by lia; f_equal; lia).
      rewrite Pos2Z.inj_mul. rewrite E in Hmx. nia. }
    assert (0 <= Zpos (mx * mc) * 2 ^ (ex + ec + 149)).
    { apply Z.mul_nonneg_nonneg; [lia|]. apply Z.pow_nonneg. lia. }
    destruct (round_aux_between (xorb sx sc) (mx * mc) (ex + ec) 0 A)
      as (m' & e' & Hr & Hd' & He' & Hval); [lia|lia|lia|lia|lia|].
    rewrite <- HD in He'.
    unfold fmul, SFmul. rewrite Hr. cbn [small_float sval].
    split; [split; [exact Hd'|lia]|].
    destruct (xorb sx sc); cbn [cond_Zopp]; lia.
Qed.

(** The conversion to [int] of a float between two integers. *)
Lemma int_of_float_between lo z l u :
  -149 <= lo -> small_float lo z -> 1 <= l -> u < 2 ^ 31 ->
  l * 2 ^ 149 <= sval z <= u * 2 ^ 149 ->
  exists rho, int_of_float z = Some rho /\ l <= rho <= u.
Proof.
  intros Hlo Hz Hl Hu [Hzl Hzu].
  destruct z as [sz| | |sz m e]; cbn [small_float] in Hz; try contradiction.
  - cbn [sval] in Hzl. lia.
  - destruct Hz as [Hd He]. cbn [sval] in Hzl, Hzu.
    assert (HP : 0 < 2 ^ (e + 149)) by (apply Z.pow_pos_nonneg; lia).
    destruct sz; cbn [cond_Zopp] in Hzl, Hzu; [nia|].
    assert (HQ : 0 < 2 ^ (- e)) by (apply Z.pow_pos_nonneg; lia).
    assert (E : 2 ^ 149 = 2 ^ (- e) * 2 ^ (e + 149))
      by (rewrite <- Z.pow_add_r by lia; f_equal; lia).
    rewrite E in Hzl, Hzu.
    assert (Hml : l * 2 ^ (- e) <= Zpos m) by nia.
    assert (Hmu : Zpos m <= u * 2 ^ (- e)) by nia.
    set (rho := if 0 <=? e then Zpos m * 2 ^ e else Zpos m / 2 ^ (- e)).
    assert (Hrho : l <= rho <= u).
    { unfold rho. destruct (Z.leb_spec 0 e).
      - replace e with 0 in * by lia. cbn in *. lia.
      - split; [apply Z.div_le_lower_bound; lia|apply Z.div_le_upper_bound; lia]. }
    exists rho. split; [|exact Hrho].
    unfold int_of_float. cbn [trunc cond_Zopp mbind option_bind]. fold rho.
    unfold INT_MIN, INT_MAX.
    destruct (Z.leb_spec (- 2 ^ 31) rho); [|lia].
    destruct (Z.leb_spec rho (2 ^ 31 - 1)); [reflexivity|lia].
Qed.

Lemma unit_tables_at this theta :
  unit_tables this = true -> 0 <= theta < thetaMax ->
  exists c s, load (cosines this) theta = Some c /\ unit_entry c = true /\
              load (sines this) theta = Some s /\ unit_entry s = true.
Proof.
  intros Hunit Htheta. unfold unit_tables in Hunit. rewrite forallb_forall in Hunit.
  specialize (Hunit theta). rewrite <- list_elem_of_In, elem_of_range in Hunit.
  specialize (Hunit Htheta).
  destruct (load (cosines this) theta) as [c|], (load (sines this) theta) as [s|];
    try discriminate.
  apply andb_true_iff in Hunit as [Hc Hs]. eauto 10.
Qed.

(** The row index of a vote of a pixel at [(nx, ny)] from the centre lies
    within [|nx| + |ny|] of [rhoRange]. *)
Lemma rho_index_of_between this nx ny theta :
  unit_tables this = true -> 0 <= theta < thetaMax ->
  Z.abs nx + Z.abs ny < rhoRange this -> 2 * rhoRange this <= 2 ^ 24 ->
  exists rho_index,
    rho_index_of this (float_of_int nx) (float_of_int ny) theta = Some rho_index /\
    rhoRange this - (Z.abs nx + Z.abs ny) <= rho_index
      <= rhoRange this + (Z.abs nx + Z.abs ny).
Proof.
  intros Hunit Htheta Hin Hk.
  destruct (unit_tables_at this theta Hunit Htheta) as (c & s & Hc & Huc & Hs & Hus).
  unfold rho_index_of. rewrite Hc, Hs. cbn [mbind option_bind].
  set (k := rhoRange this) in *.
  destruct (fmul_unit nx c (Z.abs nx)) as [Hp1 Hv1]; [lia|lia|exact Huc|].
  destruct (fmul_unit ny s (Z.abs ny)) as [Hp2 Hv2]; [lia|lia|exact Hus|].
  destruct (fadd_between (-60) _ _ (- (Z.abs nx + Z.abs ny)) (Z.abs nx + Z.abs ny)
              ltac:(lia) Hp1 Hp2) as [Hr Hvr]; [lia|lia|lia|lia|].
  destruct (float_of_int_small k) as [Hfk Hvk]; [lia|].
  destruct (fadd_between (-83) (float_of_int k) _
              (k - (Z.abs nx + Z.abs ny)) (k + (Z.abs nx + Z.abs ny))
              ltac:(lia) (small_float_weaken (-23) (-83) _ ltac:(lia) Hfk) Hr)
    as [Hz Hvz]; [lia|lia|lia|lia|].
  apply (int_of_float_between (-83 - 23)); [lia|exact Hz|lia|lia|exact Hvz].
Qed.

(** ** [init]: the images on which it is defined *)

Lemma unit_tables_ctor : unit_tables Hough_ctor = true.
Proof. rewrite Hough_ctor_tables. vm_compute. reflexivity. Qed.

(** X12. [init] is defined on every image whose edge pixels lie within the
    diamond [|x - centerX| + |y - centerY| < rhoRange] around the centre:
    every vote of a pixel at distance [d = |x - centerX| + |y - centerY|]
    falls in a row of the histogram, between [rhoRange - d] and
    [rhoRange + d]. The tables hold numbers of magnitude at most 1 (those of
    the constructor do) and the image has at most [2^23] rows and columns. *)
Theorem init_defined_within_diamond this src :
  unit_tables this = true ->
  0 <= rows src <= 2 ^ 23 -> 0 <= cols src <= 2 ^ 23 ->
  length (data src) = Z.to_nat (rows src * cols src) ->
  (forall x y, (x, y) ∈ edge_pixels (normalize src) ->
     Z.abs (x - Z.quot (cols src) 2) + Z.abs (y - Z.quot (rows src) 2)
     < MAX (cols src) (rows src) * 70710678 / 100000000) ->
  exists this',
    init this src = Some (this', src) /\
    forall x y theta, (x, y) ∈ edge_pixels (normalize src) -> 0 <= theta < thetaMax ->
      exists rho_index,
        rho_index_of this' (float_of_int (x - centerX this'))
                     (float_of_int (y - centerY this')) theta = Some rho_index /\
        Z.abs (rho_index - rhoRange this')
        <= Z.abs (x - centerX this') + Z.abs (y - centerY this').
Proof.
  intros Hunit Hrows Hcols Hlen Hdiamond.
  destruct (init_geometry_defined this src) as (k & Hk & Hk0 & Hgeo); [lia|lia|].
  assert (Hn : 0 <= MAX (cols src) (rows src) <= 2 ^ 23)
    by (unfold MAX; destruct (cols src <? rows src); lia).
  rewrite rhoRange_floor in Hk by lia. injection Hk as Hk. rewrite Hk in Hdiamond.
  unfold init, init_on. rewrite Hgeo. cbn [mbind option_bind].
  set (g := mkHough _ _ _ _ _ _ _) in *.
  set (image := normalize src) in *.
  assert (Himg : length (data image) = Z.to_nat (rows image * cols image))
    by (unfold image, normalize; cbn [data rows cols]; now rewrite length_fmap).
  assert (Hgu : unit_tables g = true) by exact Hunit.
  assert (Hvotes : forall x y theta, (x, y) ∈ edge_pixels image -> 0 <= theta < thetaMax ->
            exists rho_index,
              rho_index_of g (float_of_int (x - centerX g)) (float_of_int (y - centerY g))
                           theta = Some rho_index /\
              k - (Z.abs (x - centerX g) + Z.abs (y - centerY g)) <= rho_index
                <= k + (Z.abs (x - centerX g) + Z.abs (y - centerY g)) /\
              0 <= rho_index < k * 2).
  { intros x y theta Hin Htheta. specialize (Hdiamond x y Hin).
    destruct (rho_index_of_between g (x - centerX g) (y - centerY g) theta Hgu Htheta)
      as (rho & Hrho & Hb); [exact Hdiamond|cbn [g rhoRange]; lia|].
    exists rho. split; [exact Hrho|]. cbn [g rhoRange centerX centerY] in *. lia. }
  destruct (for_each_defined (fun a => length a = Z.to_nat (k * 2 * thetaMax))
              (range 0 (rows image)) (init_row g image) (data (accum g)))
    as (acc & -> & _); [|apply length_replicate|].
  - intros y t Hy Ht. apply elem_of_range in Hy.
    destruct (proj2 (init_row_defined_iff g image y (k * 2) t eq_refl Hy Himg Ht))
      as (t' & Hrun).
    { intros x theta Hx He Htheta.
      destruct (Hvotes x y theta ltac:(apply elem_of_edge_pixels; auto) Htheta)
        as (rho & Hrho & _ & Hb).
      exists rho. split; [exact Hrho|exact Hb]. }
    exists t'. split; [exact Hrun|]. apply init_row_length in Hrun. congruence.
  - eexists. split; [reflexivity|]. cbn [mbind option_bind].
    intros x y theta Hin Htheta.
    destruct (Hvotes x y theta Hin Htheta) as (rho & Hrho & Hb & _).
    exists rho. split; [exact Hrho|]. cbn [rhoRange centerX centerY g] in *. lia.
Qed.

Lemma init_defined_within_diamond_witness :
  exists this', init Hough_ctor left7 = Some (this', left7).
Proof.
  destruct (init_defined_within_diamond Hough_ctor left7) as (this' & Hrun & _).
  - exact unit_tables_ctor.
  - cbn. lia.
  - cbn. lia.
  - reflexivity.
  - intros x y Hin. vm_compute in Hin.
    apply list_elem_of_singleton in Hin. injection Hin as -> ->. vm_compute. reflexivity.
  - now exists this'.
Defined.

(** ** [init]: the row tasks run one after the other *)

Lemma for_each_app {S : Type} l1 l2 (body : Z -> S -> option S) s :
  for_each (l1 ++ l2) body s = s' ← for_each l1 body s; for_each l2 body s'.
Proof.
  revert s. induction l1 as [|i l1 IH]; intros s; [reflexivity|].
  cbn. destruct (body i s) as [t|]; [|reflexivity]. cbn. apply IH.
Qed.

(** A loop whose body computes a target and then acts on it is the loop of
    the action over the list of targets. *)
Lemma for_each_mapM {S : Type} (f : Z -> option Z) (act : Z -> S -> option S) idx s :
  for_each idx (fun i t => o ← f i; act o t) s = offs ← mapM f idx; for_each offs act s.
Proof.
  revert s. induction idx as [|i idx IH]; intros s; [reflexivity|].
  cbn. destruct (f i) as [o|]; [|reflexivity]. cbn.
  destruct (act o s) as [t|] eqn:Ht; cbn.
  - rewrite IH. destruct (mapM f idx) as [offs|]; [|reflexivity]. cbn. now rewrite Ht.
  - destruct (mapM f idx) as [offs|]; [|reflexivity]. cbn. now rewrite Ht.
Qed.

Lemma for_each_mapM_join {S : Type} (f : Z -> option (list Z)) (act : Z -> S -> option S)
    idx s :
  for_each idx (fun i t => offs ← f i; for_each offs act t) s
  = l ← mapM f idx; for_each (mjoin l) act s.
Proof.
  revert s. induction idx as [|i idx IH]; intros s; [reflexivity|].
  cbn. destruct (f i) as [offs|]; [|reflexivity]. cbn.
  destruct (for_each offs act s) as [t|] eqn:Ht; cbn.
  - rewrite IH. destruct (mapM f idx) as [l|]; [|reflexivity]. cbn.
    now rewrite for_each_app, Ht.
  - destruct (mapM f idx) as [l|]; [|reflexivity]. cbn.
    now rewrite for_each_app, Ht.
Qed.

(** The votes of a pixel and of a row are the increments of their targets. *)
Lemma init_pixel_targets this image y dy x acc :
  init_pixel this image y dy x acc
  = offs ← Parallel.pixel_targets this image y dy x; for_each offs bump acc.
Proof.
  unfold init_pixel, Parallel.pixel_targets.
  destruct (load (data image) _) as [p|]; [|reflexivity]. cbn [mbind option_bind].
  destruct (p =? 0); [reflexivity|].
  rewrite <- for_each_mapM. apply for_each_ext. intros theta t _. unfold vote.
  destruct (rho_index_of _ _ _ _); reflexivity.
Qed.

Lemma init_row_targets this image y acc :
  init_row this image y acc
  = offs ← Parallel.row_targets this image y; for_each offs bump acc.
Proof.
  unfold init_row, Parallel.row_targets.
  rewrite (for_each_ext _ _ (fun x t => offs ← Parallel.pixel_targets this image y
                                            (float_of_int (y - centerY this)) x;
                                        for_each offs bump t))
    by (intros; apply init_pixel_targets).
  rewrite for_each_mapM_join. now destruct (mapM _ _).
Qed.

(** A task that runs alone performs its increments one after the other. *)
Lemma run_task_alone offs i schedule mem tasks :
  tasks !! i = Some (Parallel.mkTask offs None) ->
  Parallel.run (replicate (2 * length offs) i ++ schedule) mem tasks
  = mem' ← for_each offs bump mem;
    Parallel.run schedule mem' (<[i := Parallel.mkTask [] None]> tasks).
Proof.
  revert mem tasks. induction offs as [|off offs IH]; intros mem tasks Hi.
  - cbn. now rewrite list_insert_id.
  - replace (2 * length (off :: offs))%nat with (S (S (2 * length offs))) by (cbn; lia).
    cbn [replicate app Parallel.run for_each]. rewrite Hi.
    cbn [mbind option_bind Parallel.step Parallel.pending Parallel.loaded].
    change (bump off mem) with (v ← load mem off; store mem off (fadd v fone)).
    destruct (load mem off) as [v|]; [|reflexivity]. cbn [mbind option_bind].
    assert (Hlt : (i < length tasks)%nat) by (eapply lookup_lt_Some; eauto).
    rewrite list_lookup_insert_eq by exact Hlt.
    cbn [mbind option_bind Parallel.step Parallel.pending Parallel.loaded].
    destruct (store mem off (fadd v fone)) as [mem'|]; [|reflexivity].
    cbn [mbind option_bind]. rewrite list_insert_insert_eq.
    rewrite IH by (apply list_lookup_insert_eq; exact Hlt).
    now rewrite list_insert_insert_eq.
Qed.

Lemma run_sequential ts done mem :
  Parallel.run (mjoin (imap (fun i n => replicate (2 * n) (length done + i)%nat)
                            (length <$> ts)))
               mem (done ++ ((fun l => Parallel.mkTask l None) <$> ts))
  = mem' ← for_each (mjoin ts) bump mem;
    Some (mem', done ++ ((fun _ => Parallel.mkTask [] None) <$> ts)).
Proof.
  revert done mem. induction ts as [|t ts IH]; intros done mem; [reflexivity|].
  cbn [fmap list_fmap imap mjoin list_join].
  rewrite Nat.add_0_r, run_task_alone
    by (rewrite lookup_app_r, Nat.sub_diag by lia; reflexivity).
  rewrite for_each_app.
  destruct (for_each t bump mem) as [mem1|]; [|reflexivity]. cbn [mbind option_bind].
  replace (<[length done := Parallel.mkTask [] None]>
             (done ++ Parallel.mkTask t None :: ((fun l => Parallel.mkTask l None) <$> ts)))
    with ((done ++ [Parallel.mkTask [] None]) ++ ((fun l => Parallel.mkTask l None) <$> ts)).
  2:{ rewrite insert_app_r_alt, Nat.sub_diag by lia. cbn. now rewrite <- app_assoc. }
  rewrite (imap_ext _ (fun i n => replicate (2 * n)
                                    (length (done ++ [Parallel.mkTask [] None]) + i)%nat)).
  2:{ intros j n _. cbn. rewrite length_app. cbn. f_equal. lia. }
  rewrite IH. destruct (for_each (mjoin ts) bump mem1); [|reflexivity].
  cbn. now rewrite <- app_assoc.
Qed.

(** X13. Run one after the other, the row tasks of the parallel loop of
    [init] leave the histogram of the sequential loop, for every image:
    the sequential execution is one of the executions of the parallel
    loop, and the two embeddings of [init] agree on it. *)
Theorem parallel_init_sequential this src :
  Parallel.init this src (Parallel.sequential (increments this src))
  = fst <$> init this src.
Proof.
  unfold Parallel.init, init, init_on, increments, row_tasks, Parallel.sequential.
  destruct (init_geometry this (size src) (normalize src)) as [g|]; [|reflexivity].
  cbn [mbind option_bind].
  rewrite (for_each_ext _ _ (fun y t => offs ← Parallel.row_targets g (normalize src) y;
                                        for_each offs bump t))
    by (intros; apply init_row_targets).
  rewrite for_each_mapM_join.
  destruct (mapM _ _) as [ts|]; [|reflexivity]. cbn [mbind option_bind from_option id].
  pose proof (run_sequential ts [] (data (accum g))) as Hrun.
  cbn [app length] in Hrun.
  rewrite (imap_ext _ (fun i n => replicate (2 * n) i)) in Hrun by reflexivity.
  rewrite Hrun. destruct (for_each (mjoin ts) bump _) as [mem|]; [|reflexivity].
  cbn [mbind option_bind fmap option_fmap option_map fst].
  replace (forallb Parallel.finished ((fun _ => Parallel.mkTask [] None) <$> ts)) with true;
    [reflexivity|].
  symmetry. apply forallb_forall. intros t Ht.
  apply list_elem_of_In, list_elem_of_fmap in Ht as (? & -> & _). reflexivity.
Qed.

(** ** The tables of the constructor and the domain of [getLine] *)

Lemma ctor_table_lengths :
  length (cosines Hough_ctor) = Z.to_nat thetaMax /\
  length (sines Hough_ctor) = Z.to_nat thetaMax.
Proof. rewrite Hough_ctor_tables. split; reflexivity. Qed.

(** X14. The constructor fills the two tables with [thetaMax] numbers
    each, all of them finite binary32 numbers of magnitude at most 1, and
    no sine is negative. The first entries are exact ([cosines[0] = 1],
    [sines[0] = 0], [sines[90] = 1]), but [cosines[90]] is not zero: the
    angle [90 * M_PI / 180.0], rounded to [float], is not the half of pi. *)
Theorem Hough_ctor_fills_tables :
  length (cosines Hough_ctor) = Z.to_nat thetaMax /\
  length (sines Hough_ctor) = Z.to_nat thetaMax /\
  unit_tables Hough_ctor = true /\
  finite_tables Hough_ctor = true /\
  (forall theta s, load (sines Hough_ctor) theta = Some s -> flt s fzero = false) /\
  load (cosines Hough_ctor) 0 = Some fone /\
  load (sines Hough_ctor) 0 = Some fzero /\
  load (sines Hough_ctor) 90 = Some fone /\
  load (cosines Hough_ctor) 90 = Some (S754_finite true 12303662 (-48)).
Proof.
  destruct ctor_table_lengths as [Hc Hs].
  split; [exact Hc|]. split; [exact Hs|]. split; [exact unit_tables_ctor|].
  rewrite Hough_ctor_tables. cbn [cosines sines].
  split; [vm_compute; reflexivity|].
  split; [|split; [|split; [|split]]; reflexivity].
  intros theta s Hload. apply load_Some in Hload as [_ Hload].
  assert (Hall : forallb (fun s => negb (flt s fzero)) sines_table = true)
    by (vm_compute; reflexivity).
  rewrite forallb_forall in Hall. apply negb_true_iff, Hall.
  apply list_elem_of_In. eapply list_elem_of_lookup_2. exact Hload.
Qed.

(** X15. [getLine] indexes the two tables with [theta] without a check, and
    divides by [sines[theta]]: for an object with the tables of the
    constructor it has a result only for [theta] from 1 to
    [thetaMax - 1]. The segment then runs from [x = 0] to
    [x = imageSize.width]. *)
Theorem getLine_domain this rho_index theta segment :
  cosines this = cosines Hough_ctor -> sines this = sines Hough_ctor ->
  getLine this rho_index theta = Some segment ->
  1 <= theta <= thetaMax - 1 /\
  Point_x (fst segment) = 0 /\ Point_x (snd segment) = width (imageSize this).
Proof.
  intros Hcos Hsin Hrun.
  destruct ctor_table_lengths as [_ Hlen].
  assert (Htheta : 1 <= theta <= thetaMax - 1).
  { destruct (load (sines this) theta) as [s|] eqn:Hs.
    - pose proof Hs as Hs'. rewrite Hsin in Hs'.
      apply load_Some in Hs' as [H0 Hlk]. apply lookup_lt_Some in Hlk.
      destruct (Z.eq_dec theta 0) as [->|Hne]; [|lia].
      rewrite (getLine_zero_sine this rho_index 0 s Hs) in Hrun; [discriminate|].
      rewrite Hsin, Hough_ctor_tables in Hs. vm_compute in Hs. now injection Hs as <-.
    - unfold getLine in Hrun. rewrite Hs in Hrun.
      repeat match type of Hrun with
             | mbind _ ?a = _ => destruct a; [|discriminate]; cbn [mbind option_bind] in Hrun
             end.
      discriminate Hrun. }
  split; [exact Htheta|].
  unfold getLine in Hrun.
  repeat match type of Hrun with
         | mbind _ ?a = _ => destruct a; [|discriminate]; cbn [mbind option_bind] in Hrun
         end.
  injection Hrun as <-. split; reflexivity.
Qed.

Lemma getLine_domain_witness :
  getLine (sample one_cell) 4 50 = Some (mkPoint 0 4, mkPoint 5 0) /\
  1 <= 50 <= thetaMax - 1.
Proof.
  assert (Hrun : getLine (sample one_cell) 4 50 = Some (mkPoint 0 4, mkPoint 5 0))
    by (vm_compute; reflexivity).
  split; [exact Hrun|].
  refine (proj1 (getLine_domain (sample one_cell) 4 50 _ _ _ Hrun));
    rewrite Hough_ctor_tables; reflexivity.
Defined.

(** ** [init]: one row task with work *)

(** When a single task has increments to do, a schedule that ends with
    every task finished has run that task alone, and its increments were
    whole. *)
Lemma run_single_task i0 schedule mem tasks offs ld mem' tasks' :
  tasks !! i0 = Some (Parallel.mkTask offs ld) ->
  (forall v, ld = Some v -> exists off rest, offs = off :: rest /\ load mem off = Some v) ->
  (forall j t, j <> i0 -> tasks !! j = Some t -> t = Parallel.mkTask [] None) ->
  Parallel.run schedule mem tasks = Some (mem', tasks') ->
  forallb Parallel.finished tasks' = true ->
  for_each offs bump mem = Some mem'.
Proof.
  revert mem tasks offs ld.
  induction schedule as [|i schedule IH]; intros mem tasks offs ld Hi0 Hld Hothers Hrun Hfin.
  - cbn in Hrun. injection Hrun as <- <-.
    rewrite forallb_forall in Hfin.
    specialize (Hfin _ (proj1 (list_elem_of_In _ _) (list_elem_of_lookup_2 _ _ _ Hi0))).
    destruct offs, ld; try discriminate. reflexivity.
  - cbn [Parallel.run] in Hrun.
    destruct (tasks !! i) as [t|] eqn:Hi; [|discriminate]. cbn [mbind option_bind] in Hrun.
    destruct (Nat.eq_dec i i0) as [->|Hne].
    2:{ rewrite (Hothers i t Hne Hi) in Hrun. discriminate. }
    rewrite Hi0 in Hi. injection Hi as <-.
    assert (Hlt : (i0 < length tasks)%nat) by (eapply lookup_lt_Some; eauto).
    destruct offs as [|off rest]; [discriminate|].
    destruct ld as [v|]; cbn [Parallel.step Parallel.pending Parallel.loaded] in Hrun.
    + destruct (Hld v eq_refl) as (off' & rest' & [= <- <-] & Hv).
      destruct (store mem off (fadd v fone)) as [mem1|] eqn:Hst; [|discriminate].
      cbn [mbind option_bind] in Hrun.
      cbn [for_each]. change (bump off mem) with (v ← load mem off; store mem off (fadd v fone)).
      rewrite Hv. cbn [mbind option_bind]. rewrite Hst.
      cbn [mbind option_bind].
      apply (IH mem1 (<[i0 := Parallel.mkTask rest None]> tasks) rest None);
        [apply list_lookup_insert_eq; exact Hlt|discriminate| |exact Hrun|exact Hfin].
      intros j t Hj Ht. rewrite list_lookup_insert_ne in Ht by congruence. eauto.
    + destruct (load mem off) as [v|] eqn:Hv; [|discriminate].
      cbn [mbind option_bind] in Hrun.
      apply (IH mem (<[i0 := Parallel.mkTask (off :: rest) (Some v)]> tasks)
                (off :: rest) (Some v));
        [apply list_lookup_insert_eq; exact Hlt| | |exact Hrun|exact Hfin].
      * intros v' [= <-]. eauto.
      * intros j t Hj Ht. rewrite list_lookup_insert_ne in Ht by congruence. eauto.
Qed.

Lemma mjoin_nil {A : Type} (ts : list (list A)) :
  (forall j t, ts !! j = Some t -> t = []) -> mjoin ts = [].
Proof.
  induction ts as [|t ts IH]; intros Hall; [reflexivity|].
  change (mjoin (t :: ts)) with (t ++ mjoin ts).
  rewrite (Hall 0%nat t eq_refl), IH; [reflexivity|].
  intros j u Hj. apply (Hall (S j) u Hj).
Qed.

Lemma mjoin_single {A : Type} (ts : list (list A)) i0 t0 :
  ts !! i0 = Some t0 ->
  (forall j t, j <> i0 -> ts !! j = Some t -> t = []) ->
  mjoin ts = t0.
Proof.
  revert i0. induction ts as [|t ts IH]; intros i0 Hi0 Hothers; [discriminate|].
  change (mjoin (t :: ts)) with (t ++ mjoin ts). destruct i0 as [|i0].
  - injection Hi0 as ->. rewrite mjoin_nil; [apply app_nil_r|].
    intros j u Hj. apply (Hothers (S j) u); [lia|exact Hj].
  - rewrite (Hothers 0%nat t ltac:(lia) eq_refl). cbn [app].
    apply (IH i0); [exact Hi0|].
    intros j u Hj Hu. apply (Hothers (S j) u); [lia|exact Hu].
Qed.

Lemma lookup_range lo hi i :
  (i < Z.to_nat (hi - lo))%nat -> range lo hi !! i = Some (lo + Z.of_nat i).
Proof.
  intros Hi. unfold range. rewrite list_lookup_fmap, lookup_seq_lt by exact Hi. reflexivity.
Qed.

(** A row without edge pixels has no increment to do. *)
Lemma row_targets_no_edges this image y l :
  Parallel.row_targets this image y = Some l ->
  (forall x, 0 <= x < cols image -> is_edge image y x = false) ->
  l = [].
Proof.
  unfold Parallel.row_targets. intros Hrun Hrow.
  destruct (mapM _ _) as [ls|] eqn:Hmap; [|discriminate]. injection Hrun as <-.
  apply mapM_Some in Hmap.
  assert (Hall : Forall (fun o => o = []) ls).
  { apply Forall_lookup. intros i o Ho.
    destruct (Forall2_lookup_r _ _ _ _ _ Hmap Ho) as (x & Hx & Hpix).
    assert (Hxr : 0 <= x < cols image).
    { apply elem_of_range. eapply list_elem_of_lookup_2. exact Hx. }
    specialize (Hrow x Hxr). unfold is_edge in Hrow.
    unfold Parallel.pixel_targets in Hpix.
    destruct (load (data image) _) as [p|]; [|discriminate].
    cbn [mbind option_bind] in Hpix. destruct (p =? 0); [congruence|discriminate]. }
  clear Hmap. induction Hall as [|o ls -> _ IH]; [reflexivity|exact IH].
Qed.

(** X16. The race of the parallel loop needs two rows with edge pixels.
    When all the edge pixels of the image lie in one row, one task does all
    the increments: under every schedule that runs the tasks to their end
    the parallel loop leaves the histogram of the sequential loop. *)
Theorem parallel_init_single_row this src y0 schedule h :
  (forall x y, (x, y) ∈ edge_pixels (normalize src) -> y = y0) ->
  Parallel.init this src schedule = Some h ->
  fst <$> init this src = Some h.
Proof.
  intros Hrow Hrun.
  unfold Parallel.init in Hrun. unfold init, init_on.
  set (image := normalize src) in *.
  destruct (init_geometry this (size src) image) as [g|]; [|discriminate].
  cbn [mbind option_bind] in *.
  rewrite (for_each_ext _ _ (fun y t => offs ← Parallel.row_targets g image y;
                                        for_each offs bump t))
    by (intros; apply init_row_targets).
  rewrite for_each_mapM_join.
  destruct (mapM _ _) as [ts|] eqn:Hmap; [|discriminate]. cbn [mbind option_bind] in *.
  destruct (Parallel.run schedule _ _) as [[mem tasks']|] eqn:Hsched; [|discriminate].
  cbn [mbind option_bind] in Hrun.
  destruct (forallb Parallel.finished tasks') eqn:Hfin; [|discriminate].
  injection Hrun as <-.
  enough (Hmem : for_each (mjoin ts) bump (data (accum g)) = Some mem)
    by (rewrite Hmem; reflexivity).
  apply mapM_Some in Hmap. pose proof (Forall2_length _ _ _ Hmap) as Hlen.
  rewrite length_range in Hlen.
  assert (Hts : forall j t, ts !! j = Some t ->
            (j < Z.to_nat (rows image))%nat /\
            Parallel.row_targets g image (Z.of_nat j) = Some t).
  { intros j t Hj. destruct (Forall2_lookup_r _ _ _ _ _ Hmap Hj) as (y & Hy & Hrt).
    pose proof (lookup_lt_Some _ _ _ Hj) as Hlt. rewrite <- Hlen in Hlt.
    rewrite lookup_range in Hy by lia. injection Hy as <-.
    split; [lia|exact Hrt]. }
  assert (Hempty : forall j t, Z.of_nat j <> y0 -> ts !! j = Some t -> t = []).
  { intros j t Hj Ht. destruct (Hts j t Ht) as [Hlt Hrt].
    apply (row_targets_no_edges g image (Z.of_nat j) t Hrt).
    intros x Hx. destruct (is_edge image (Z.of_nat j) x) eqn:He; [|reflexivity].
    exfalso. apply Hj. apply (Hrow x). apply elem_of_edge_pixels.
    split; [lia|split; [lia|exact He]]. }
  destruct (decide (ts = [])) as [->|Hne].
  { (* no rows: no task can take a step *)
    destruct schedule as [|i schedule]; cbn in Hsched; [|discriminate].
    injection Hsched as <- _. reflexivity. }
  set (i0 := if decide (0 <= y0 < Z.of_nat (length ts)) then Z.to_nat y0 else 0%nat).
  assert (Hi0 : (i0 < length ts)%nat).
  { unfold i0. destruct (decide _); [lia|].
    destruct ts; [congruence|cbn; lia]. }
  destruct (lookup_lt_is_Some_2 ts i0 Hi0) as [t0 Ht0].
  assert (Hothers : forall j t, j <> i0 -> ts !! j = Some t -> t = []).
  { intros j t Hj Ht. apply (Hempty j t); [|exact Ht].
    pose proof (lookup_lt_Some _ _ _ Ht). unfold i0 in Hj.
    destruct (decide _); lia. }
  rewrite (mjoin_single ts i0 t0 Ht0 Hothers).
  apply (run_single_task i0 schedule (data (accum g))
           ((fun l => Parallel.mkTask l None) <$> ts) t0 None mem tasks');
    [|discriminate| |exact Hsched|exact Hfin].
  - rewrite list_lookup_fmap, Ht0. reflexivity.
  - intros j t Hj Ht. apply list_lookup_fmap_Some in Ht as (l & -> & Hl).
    now rewrite (Hothers j l Hj Hl).
Qed.

Lemma parallel_init_single_row_witness :
  exists h, Parallel.init Hough_ctor left7 (Parallel.sequential (increments Hough_ctor left7))
            = Some h /\
            fst <$> init Hough_ctor left7 = Some h.
Proof.
  assert (Hdef : defined (Parallel.init Hough_ctor left7
                            (Parallel.sequential (increments Hough_ctor left7))) = true)
    by (rewrite Hough_ctor_tables; vm_compute; reflexivity).
  destruct (Parallel.init Hough_ctor left7 _) as [h|] eqn:Hrun; [|discriminate Hdef].
  exists h. split; [reflexivity|].
  apply (parallel_init_single_row Hough_ctor left7 3
           (Parallel.sequential (increments Hough_ctor left7)) h); [|exact Hrun].
  intros x y Hin. vm_compute in Hin.
  apply list_elem_of_singleton in Hin. now injection Hin as _ ->.
Defined.

(** ** [init]: the image sizes on which it is defined *)

Lemma forallb_false {A : Type} (f : A -> bool) l :
  forallb f l = false -> exists x, x ∈ l /\ f x = false.
Proof.
  induction l as [|a l IH]; [discriminate|]. cbn [forallb].
  destruct (f a) eqn:Ha; cbn [andb].
  - intros H. destruct (IH H) as (x & Hx & Hfx). exists x. split; [now right|exact Hfx].
  - intros _. exists a. split; [left|exact Ha].
Qed.

(** The elements of [tabulate], by position. *)
Lemma lookup_bind_blocks {A B : Type} (g : A -> list B) n l i j a :
  (forall a, length (g a) = n) -> l !! i = Some a -> (j < n)%nat ->
  (l ≫= g) !! (i * n + j)%nat = g a !! j.
Proof.
  intros Hg. revert i. induction l as [|b l IH]; intros i Hi Hj; [discriminate|].
  change ((b :: l) ≫= g) with (g b ++ (l ≫= g)). destruct i as [|i].
  - injection Hi as ->. cbn [Nat.mul Nat.add]. apply lookup_app_l. now rewrite Hg.
  - rewrite lookup_app_r by (rewrite Hg; lia). rewrite Hg.
    replace (S i * n + j - n)%nat with (i * n + j)%nat by lia.
    now apply IH.
Qed.

Lemma length_tabulate {A : Type} r c (f : Z -> Z -> A) :
  length (data (tabulate r c f)) = (Z.to_nat r * Z.to_nat c)%nat.
Proof.
  unfold tabulate. cbn [data].
  rewrite (length_bind_const _ _ (Z.to_nat c)), length_range; [f_equal; lia|].
  intros i _. rewrite (length_bind_const _ _ 1%nat), length_range by reflexivity. lia.
Qed.

Lemma load_tabulate {A : Type} r c (f : Z -> Z -> A) i j :
  0 <= i < r -> 0 <= j < c ->
  load (data (tabulate r c f)) (ptr (tabulate r c f) i + j) = Some (f i j).
Proof.
  intros Hi Hj. apply load_Some. unfold ptr, tabulate. cbn [data cols]. split; [nia|].
  replace (Z.to_nat (i * c + j)) with (Z.to_nat i * Z.to_nat c + Z.to_nat j)%nat by nia.
  rewrite (lookup_bind_blocks _ (Z.to_nat c) _ _ _ i).
  - replace (Z.to_nat j) with (Z.to_nat j * 1 + 0)%nat by lia.
    rewrite (lookup_bind_blocks _ 1%nat _ _ _ j); [reflexivity|reflexivity| |lia].
    rewrite lookup_range by lia. f_equal. lia.
  - intros a. rewrite (length_bind_const _ _ 1%nat), length_range by reflexivity. lia.
  - rewrite lookup_range by lia. f_equal. lia.
  - lia.
Qed.

Lemma elem_of_tabulate {A : Type} r c (f : Z -> Z -> A) v :
  v ∈ data (tabulate r c f) -> exists i j, 0 <= i < r /\ 0 <= j < c /\ v = f i j.
Proof.
  unfold tabulate. cbn [data]. intros Hin.
  apply list_elem_of_bind in Hin as (i & Hin & Hi).
  apply list_elem_of_bind in Hin as (j & Hin & Hj).
  apply elem_of_range in Hi, Hj. apply list_elem_of_singleton in Hin. eauto 10.
Qed.

(** In an image of two pixels or more with one pixel at 255 and the others
    at 0, that pixel is an edge pixel. *)
Lemma one_pixel_edge w h x0 y0 :
  0 <= x0 < w -> 0 <= y0 < h -> 2 <= w * h ->
  (x0, y0) ∈ edge_pixels (normalize (one_pixel w h x0 y0 255)).
Proof.
  intros Hx Hy Hmany. set (src := one_pixel w h x0 y0 255).
  apply elem_of_edge_pixels. cbn [normalize rows cols one_pixel tabulate src].
  split; [lia|]. split; [lia|].
  assert (Hload : load (data src) (ptr src y0 + x0) = Some 255).
  { unfold src, one_pixel. rewrite load_tabulate by lia. now rewrite !Z.eqb_refl. }
  assert (H8 : forall q, q ∈ data src -> 0 <= q <= 255).
  { intros q Hq. apply elem_of_tabulate in Hq as (i & j & _ & _ & ->).
    destruct (_ && _); lia. }
  assert (Hmin : minVal (data src) = 0).
  { apply (minVal_two_values _ 255); [lia| |].
    - intros q Hq. apply elem_of_tabulate in Hq as (i & j & _ & _ & ->).
      destruct (_ && _); auto.
    - assert (Hother : exists y x, 0 <= y < h /\ 0 <= x < w /\ (y <> y0 \/ x <> x0)).
      { destruct (Z.eq_dec y0 0), (Z.eq_dec x0 0).
        - destruct (Z.eq_dec h 1).
          + exists 0, 1. nia.
          + exists 1, 0. nia.
        - exists 0, 0. lia.
        - exists 0, 0. lia.
        - exists 0, 0. lia. }
      destruct Hother as (y & x & Hy' & Hx' & Hne).
      assert (Hz : load (data src) (ptr src y + x) = Some 0).
      { unfold src, one_pixel. rewrite load_tabulate by lia.
        destruct (Z.eqb_spec y y0), (Z.eqb_spec x x0); cbn [andb]; try reflexivity. lia. }
      apply load_Some in Hz as [_ Hz]. eapply list_elem_of_lookup_2; eauto. }
  destruct (normalize_zero_iff src _ 255 H8 Hload) as (p' & Hp' & Hz).
  rewrite Hmin in Hz. unfold is_edge.
  change (ptr (normalize src) y0) with (ptr src y0). rewrite Hp', Hz. reflexivity.
Qed.

(** X17. Whether [init] is safe on the images of a size can be computed:
    [size_in_bounds] checks that lines 38-39 are defined for the size
    ([rhoRange * 2] is an [int]) and the votes of every pixel position.
    When it holds, [init] is defined on every image of that size, whatever
    its pixels; when it fails (and the image has two pixels or more), there
    is a pixel position whose single edge pixel leaves [init] without a
    defined result: line 39 overflows, or the pixel makes line 59 write
    outside the histogram. *)
Theorem init_defined_for_size this w h :
  0 <= w < 2 ^ 31 -> 0 <= h < 2 ^ 31 ->
  (size_in_bounds this w h = true ->
   forall src, rows src = h -> cols src = w ->
     length (data src) = Z.to_nat (rows src * cols src) ->
     exists this', init this src = Some (this', src)) /\
  (size_in_bounds this w h = false -> 2 <= w * h ->
   exists x y, 0 <= x < w /\ 0 <= y < h /\ init this (one_pixel w h x y 255) = None).
Proof.
  intros Hw Hh. unfold size_in_bounds.
  destruct (init_geometry this (mkSize w h) (mkMat h w [])) as [g|] eqn:Hg.
  2:{ split; [discriminate|]. intros _ Hmany. exists 0, 0.
      split; [nia|]. split; [nia|].
      unfold init, init_on, init_geometry in *.
      cbn [normalize one_pixel tabulate rows cols] in *.
      destruct (int_of_float _) as [k|]; [|reflexivity]. cbn [mbind option_bind] in *.
      destruct (int_mul k 2); [discriminate Hg|reflexivity]. }
  split.
  - intros Hall src Hrows Hcols Hlen.
    assert (Hgeo : init_geometry this (size src) (normalize src) = Some g)
      by (rewrite <- Hg; unfold size, init_geometry; cbn [normalize rows cols];
          rewrite Hrows, Hcols; reflexivity).
    assert (Hdef : defined (init this src) = true).
    { rewrite (init_defined_spec this src g Hlen Hgeo).
      apply forallb_forall. intros [x y] Hin.
      apply list_elem_of_In, elem_of_edge_pixels in Hin as (Hy & Hx & _).
      cbn [normalize rows cols] in Hy, Hx.
      rewrite forallb_forall in Hall. specialize (Hall y).
      rewrite <- list_elem_of_In, elem_of_range in Hall. specialize (Hall ltac:(lia)).
      rewrite forallb_forall in Hall. specialize (Hall x).
      rewrite <- list_elem_of_In, elem_of_range in Hall. exact (Hall ltac:(lia)). }
    destruct (init this src) as [[this' src']|] eqn:Hrun; [|discriminate].
    apply init_returns_src in Hrun as Hsrc. subst src'. now exists this'.
  - intros Hfail Hmany.
    apply forallb_false in Hfail as (y & Hy & Hfail).
    apply forallb_false in Hfail as (x & Hx & Hfail).
    apply elem_of_range in Hy, Hx.
    exists x, y. split; [lia|]. split; [lia|].
    set (src := one_pixel w h x y 255).
    assert (Hlen : length (data src) = Z.to_nat (rows src * cols src)).
    { unfold src, one_pixel. rewrite length_tabulate. cbn [tabulate rows cols]. nia. }
    assert (Hgeo : init_geometry this (size src) (normalize src) = Some g)
      by (rewrite <- Hg; reflexivity).
    assert (Hdef : defined (init this src) = false).
    { rewrite (init_defined_spec this src g Hlen Hgeo).
      destruct (votes_in_bounds g (normalize src)) eqn:Hv; [|reflexivity].
      unfold votes_in_bounds in Hv. rewrite forallb_forall in Hv.
      specialize (Hv (x, y)). rewrite <- list_elem_of_In in Hv.
      rewrite (Hv (one_pixel_edge w h x y ltac:(lia) ltac:(lia) Hmany)) in Hfail.
      discriminate. }
    now destruct (init this src).
Qed.

Lemma init_defined_for_size_witness :
  (exists this', init Hough_ctor white3 = Some (this', white3)) /\
  (exists x y, 0 <= x < 4 /\ 0 <= y < 4 /\ init Hough_ctor (one_pixel 4 4 x y 255) = None).
Proof.
  split.
  - destruct (init_defined_for_size Hough_ctor 3 3) as [Hsafe _]; [lia|lia|].
    apply Hsafe; [|reflexivity..].
    rewrite Hough_ctor_tables. vm_compute. reflexivity.
  - destruct (init_defined_for_size Hough_ctor 4 4) as [_ Hunsafe]; [lia|lia|].
    apply Hunsafe; [|lia].
    rewrite Hough_ctor_tables. vm_compute. reflexivity.
Defined.

(** ** Counting the elements of a list *)

Lemma count_if_app {A : Type} (f : A -> bool) l1 l2 :
  count_if f (l1 ++ l2) = count_if f l1 + count_if f l2.
Proof.
  induction l1 as [|a l1 IH]; [reflexivity|]. cbn [app count_if foldr] in *.
  fold (count_if f (l1 ++ l2)). fold (count_if f l1). rewrite IH. lia.
Qed.

Lemma count_if_bounds {A : Type} (f : A -> bool) l :
  0 <= count_if f l <= Z.of_nat (length l).
Proof.
  induction l as [|a l IH]; [cbn; lia|]. cbn [count_if foldr length].
  fold (count_if f l). destruct (f a); lia.
Qed.

(** ** The vectors of the constructor *)

Lemma store_fill (f : Z -> spec_float) junk t n :
  0 <= t < n ->
  store ((f <$> range 0 t) ++ replicate (Z.to_nat (n - t)) junk) t (f t)
  = Some ((f <$> range 0 (t + 1)) ++ replicate (Z.to_nat (n - (t + 1))) junk).
Proof.
  intros Ht. unfold store.
  rewrite length_app, length_fmap, length_range, length_replicate.
  destruct (Z.leb_spec 0 t); [|lia].
  destruct (Z.ltb_spec t (Z.of_nat (Z.to_nat (t - 0) + Z.to_nat (n - t)))); [|lia].
  cbn [andb]. f_equal.
  replace (Z.to_nat (n - t)) with (S (Z.to_nat (n - (t + 1)))) by lia.
  cbn [replicate].
  rewrite insert_app_r_alt by (rewrite length_fmap, length_range; lia).
  rewrite length_fmap, length_range.
  replace (Z.to_nat t - Z.to_nat (t - 0))%nat with 0%nat by lia.
  cbn [insert list_insert]. rewrite range_snoc, fmap_app by lia.
  now rewrite <- app_assoc.
Qed.

(** X19. The constructor reserves the two vectors and never resizes them.
    After [Hough::Hough()] their storage holds the [thetaMax] cosines and
    sines (the tables of [Hough_ctor]), whatever the storage held before,
    but their size is still 0: every index that the program uses is
    outside the size, and a checked access [at(theta)] would fail for
    every [theta]. *)
Theorem Hough_ctor_never_resizes cosf sinf junk :
  exists cosines_v sines_v,
    Hough_ctor_vectors cosf sinf junk = Some (cosines_v, sines_v) /\
    vec_storage cosines_v = cosines (Hough_ctor_with cosf sinf) /\
    vec_storage sines_v = sines (Hough_ctor_with cosf sinf) /\
    vec_size cosines_v = 0%nat /\ vec_size sines_v = 0%nat /\
    vec_capacity cosines_v = Z.to_nat thetaMax /\
    forall theta, vec_at cosines_v theta = None /\ vec_at sines_v theta = None.
Proof.
  unfold Hough_ctor_vectors.
  set (fc := fun theta => cosf (theta_rad theta)).
  set (fs := fun theta => sinf (theta_rad theta)).
  destruct (for_each_range
              (fun t (cs : Vec * Vec) =>
                 cs = (mkVec 0 ((fc <$> range 0 t) ++ replicate (Z.to_nat (thetaMax - t)) junk),
                       mkVec 0 ((fs <$> range 0 t) ++ replicate (Z.to_nat (thetaMax - t)) junk)))
              0 thetaMax
              (fun theta (cs : Vec * Vec) =>
                 cosines ← vec_set (fst cs) theta (cosf (theta_rad theta));
                 sines ← vec_set (snd cs) theta (sinf (theta_rad theta));
                 Some (cosines, sines))
              (reserve junk thetaMax Vec_new, reserve junk thetaMax Vec_new))
    as (cs & Hrun & ->).
  - unfold thetaMax. lia.
  - intros t cs Ht ->. cbn [fst snd]. unfold vec_set. cbn [vec_storage vec_size].
    fold (fc t). fold (fs t).
    rewrite !store_fill by exact Ht. cbn [mbind option_bind]. eexists. split; reflexivity.
  - reflexivity.
  - eexists _, _. split; [exact Hrun|].
    cbn [vec_storage vec_size].
    replace (Z.to_nat (thetaMax - thetaMax)) with 0%nat by lia.
    cbn [replicate]. rewrite !app_nil_r.
    split; [reflexivity|]. split; [reflexivity|]. split; [reflexivity|].
    split; [reflexivity|].
    split; [unfold vec_capacity; cbn [vec_storage]; now rewrite length_fmap, length_range|].
    intros theta. unfold vec_at. cbn [vec_size].
    destruct (Z.leb_spec 0 theta); cbn [andb]; destruct (Z.ltb_spec theta (Z.of_nat 0));
      try lia; split; reflexivity.
Qed.

(** ** [init] under every schedule of its row tasks *)

Lemma count_if_nonneg {A : Type} (f : A -> bool) l : 0 <= count_if f l.
Proof. apply count_if_bounds. Qed.

Lemma pending_at_cons off t tasks :
  pending_at off (t :: tasks)
  = count_if (Z.eqb off) (Parallel.pending t) + pending_at off tasks.
Proof.
  unfold pending_at. change ((t :: tasks) ≫= Parallel.pending)
    with (Parallel.pending t ++ (tasks ≫= Parallel.pending)).
  apply count_if_app.
Qed.

Lemma pending_at_insert off tasks i t t' :
  tasks !! i = Some t ->
  pending_at off (<[i := t']> tasks)
  = pending_at off tasks - count_if (Z.eqb off) (Parallel.pending t)
    + count_if (Z.eqb off) (Parallel.pending t').
Proof.
  revert i. induction tasks as [|u tasks IH]; intros i Hi; [discriminate|].
  destruct i as [|i].
  - injection Hi as ->. change (<[0%nat := t']> (t :: tasks)) with (t' :: tasks).
    rewrite !pending_at_cons. lia.
  - change (<[S i := t']> (u :: tasks)) with (u :: <[i := t']> tasks).
    rewrite !pending_at_cons, (IH i Hi). lia.
Qed.

Lemma pending_at_lookup off tasks i t :
  tasks !! i = Some t -> count_if (Z.eqb off) (Parallel.pending t) <= pending_at off tasks.
Proof.
  revert i. induction tasks as [|u tasks IH]; intros i Hi; [discriminate|].
  rewrite pending_at_cons. destruct i as [|i].
  - injection Hi as ->. pose proof (count_if_nonneg (Z.eqb off) (tasks ≫= Parallel.pending)).
    unfold pending_at. lia.
  - specialize (IH i Hi). pose proof (count_if_nonneg (Z.eqb off) (Parallel.pending u)). lia.
Qed.

Lemma count_if_head off off' (rest : list Z) :
  count_if (Z.eqb off) (off' :: rest)
  = (if off =? off' then 1 else 0) + count_if (Z.eqb off) rest.
Proof. reflexivity. Qed.

(** The steps of the tasks keep [counted]: a write stores one more than a
    value that the cell held, and the increment it completes is counted. *)
Lemma run_counted T schedule mem tasks mem' tasks' :
  (forall off, T off < 2 ^ 24) ->
  Parallel.run schedule mem tasks = Some (mem', tasks') ->
  counted T mem tasks -> counted T mem' tasks'.
Proof.
  intros HT. revert mem tasks.
  induction schedule as [|i schedule IH]; intros mem tasks Hrun Hinv.
  - cbn in Hrun. now injection Hrun as <- <-.
  - cbn [Parallel.run] in Hrun.
    destruct (tasks !! i) as [t|] eqn:Hi; [|discriminate]. cbn [mbind option_bind] in Hrun.
    destruct (Parallel.step mem t) as [[mem1 t1]|] eqn:Hstep; [|discriminate].
    cbn [mbind option_bind] in Hrun. apply (IH _ _ Hrun). clear IH Hrun.
    destruct Hinv as [Hmem Htasks].
    assert (Hlt : (i < length tasks)%nat) by (eapply lookup_lt_Some; eauto).
    unfold Parallel.step in Hstep.
    destruct t as [[|off rest] ld]; cbn [Parallel.pending Parallel.loaded] in Hstep;
      [destruct ld; discriminate|].
    destruct ld as [v|].
    + (* the write of an increment *)
      destruct (store mem off (fadd v fone)) as [mem2|] eqn:Hst; [|discriminate].
      injection Hstep as <- <-.
      destruct (Htasks i _ v Hi eq_refl) as (off' & rest' & c & [= <- <-] & -> & Hc).
      assert (HP : forall o, pending_at o (<[i := Parallel.mkTask rest None]> tasks)
                   = pending_at o tasks - (if o =? off then 1 else 0)).
      { intros o. rewrite (pending_at_insert o tasks i _ _ Hi).
        cbn [Parallel.pending]. rewrite count_if_head. lia. }
      pose proof (pending_at_lookup off tasks i _ Hi) as Hge.
      cbn [Parallel.pending] in Hge. rewrite count_if_head, Z.eqb_refl in Hge.
      pose proof (count_if_nonneg (Z.eqb off) rest) as Hrest.
      specialize (HT off).
      rewrite fadd_one in Hst by lia.
      split.
      * intros o w Hw. rewrite (load_store _ _ _ _ _ Hst) in Hw. rewrite HP.
        destruct (Z.eqb_spec o off) as [->|Hne].
        -- injection Hw as <-. exists (c + 1). split; [reflexivity|]. lia.
        -- destruct (Hmem o w Hw) as (c' & -> & Hc' & Hpos).
           exists c'. split; [reflexivity|]. split; [lia|]. intros ?. apply Hpos. lia.
      * intros j u w Hj Hw.
        destruct (Nat.eq_dec j i) as [->|Hne].
        { rewrite list_lookup_insert_eq in Hj by exact Hlt. injection Hj as <-. discriminate. }
        rewrite list_lookup_insert_ne in Hj by congruence.
        destruct (Htasks j u w Hj Hw) as (o & r & c' & Hpend & -> & Hc').
        exists o, r, c'. split; [exact Hpend|]. split; [reflexivity|].
        rewrite HP. destruct (o =? off); lia.
    + (* the read of an increment *)
      destruct (load mem off) as [v|] eqn:Hv; [|discriminate].
      injection Hstep as <- <-.
      assert (HP : forall o, pending_at o (<[i := Parallel.mkTask (off :: rest) (Some v)]> tasks)
                   = pending_at o tasks).
      { intros o. rewrite (pending_at_insert o tasks i _ _ Hi).
        cbn [Parallel.pending]. lia. }
      split.
      * intros o w Hw. rewrite HP. now apply Hmem.
      * intros j u w Hj Hw.
        destruct (Nat.eq_dec j i) as [->|Hne].
        -- rewrite list_lookup_insert_eq in Hj by exact Hlt. injection Hj as <-.
           cbn [Parallel.loaded] in Hw. injection Hw as <-.
           destruct (Hmem off v Hv) as (c & -> & Hc & _).
           exists off, rest, c. rewrite HP. repeat split; lia.
        -- rewrite list_lookup_insert_ne in Hj by congruence.
           destruct (Htasks j u w Hj Hw) as (o & r & c' & Hpend & -> & Hc').
           exists o, r, c'. rewrite HP. repeat split; (assumption || lia).
Qed.

(** Every increment that a task has completed lies inside the buffer: its
    write would have failed otherwise. The buffer keeps its length. *)
Lemma run_in_bounds T schedule mem tasks mem' tasks' :
  Parallel.run schedule mem tasks = Some (mem', tasks') ->
  (forall off, pending_at off tasks < T off -> 0 <= off < Z.of_nat (length mem)) ->
  length mem' = length mem /\
  forall off, pending_at off tasks' < T off -> 0 <= off < Z.of_nat (length mem).
Proof.
  revert mem tasks.
  induction schedule as [|i schedule IH]; intros mem tasks Hrun Hinv.
  - cbn in Hrun. injection Hrun as <- <-. split; [reflexivity|exact Hinv].
  - cbn [Parallel.run] in Hrun.
    destruct (tasks !! i) as [t|] eqn:Hi; [|discriminate]. cbn [mbind option_bind] in Hrun.
    destruct (Parallel.step mem t) as [[mem1 t1]|] eqn:Hstep; [|discriminate].
    cbn [mbind option_bind] in Hrun.
    unfold Parallel.step in Hstep.
    destruct t as [[|off rest] ld]; cbn [Parallel.pending Parallel.loaded] in Hstep;
      [destruct ld; discriminate|].
    destruct ld as [v|].
    + destruct (store mem off (fadd v fone)) as [mem2|] eqn:Hst; [|discriminate].
      injection Hstep as <- <-.
      pose proof (store_length _ _ _ _ Hst) as Hlen.
      assert (Hpre : forall o,
                pending_at o (<[i := Parallel.mkTask rest None]> tasks) < T o ->
                0 <= o < Z.of_nat (length mem2)).
      { intros o Ho. rewrite Hlen.
        rewrite (pending_at_insert o tasks i _ _ Hi) in Ho.
        cbn [Parallel.pending] in Ho. rewrite count_if_head in Ho.
        destruct (Z.eqb_spec o off) as [Heq|Hne]; [|apply Hinv; lia].
        rewrite Heq. unfold store in Hst.
        destruct (Z.leb_spec 0 off), (Z.ltb_spec off (Z.of_nat (length mem)));
          cbn [andb] in Hst; try discriminate. lia. }
      destruct (IH _ _ Hrun Hpre) as [Hl Hb].
      split; [congruence|]. intros o Ho. rewrite <- Hlen. now apply Hb.
    + destruct (load mem off) as [v|] eqn:Hv; [|discriminate].
      injection Hstep as <- <-.
      apply (IH _ _ Hrun). intros o Ho. apply Hinv.
      rewrite (pending_at_insert o tasks i _ _ Hi) in Ho.
      cbn [Parallel.pending] in Ho. lia.
Qed.

(** Under an atomic schedule no increment is lost. *)
Lemma run_counted_exactly T order mem tasks mem' tasks' :
  (forall off, T off < 2 ^ 24) ->
  Parallel.run (order ≫= fun i => [i; i]) mem tasks = Some (mem', tasks') ->
  counted_exactly T mem tasks -> counted_exactly T mem' tasks'.
Proof.
  intros HT. revert mem tasks.
  induction order as [|i order IH]; intros mem tasks Hrun Hinv.
  - cbn in Hrun. now injection Hrun as <- <-.
  - change ((i :: order) ≫= fun i => [i; i])
      with (i :: i :: (order ≫= fun i => [i; i])) in Hrun.
    cbn [Parallel.run] in Hrun.
    destruct (tasks !! i) as [t|] eqn:Hi; [|discriminate]. cbn [mbind option_bind] in Hrun.
    destruct Hinv as [Hnone Hmem].
    assert (Hlt : (i < length tasks)%nat) by (eapply lookup_lt_Some; eauto).
    pose proof (Hnone i t Hi) as Hld.
    destruct t as [[|off rest] ld]; cbn [Parallel.loaded] in Hld; subst ld;
      [discriminate|].
    cbn [Parallel.step Parallel.pending Parallel.loaded] in Hrun.
    destruct (load mem off) as [v|] eqn:Hv; [|discriminate].
    cbn [mbind option_bind] in Hrun.
    rewrite list_lookup_insert_eq in Hrun by exact Hlt. cbn [mbind option_bind] in Hrun.
    cbn [Parallel.step Parallel.pending Parallel.loaded] in Hrun.
    destruct (store mem off (fadd v fone)) as [mem2|] eqn:Hst; [|discriminate].
    cbn [mbind option_bind] in Hrun. rewrite list_insert_insert_eq in Hrun.
    apply (IH _ _ Hrun). clear IH Hrun.
    assert (HP : forall o, pending_at o (<[i := Parallel.mkTask rest None]> tasks)
                 = pending_at o tasks - (if o =? off then 1 else 0)).
    { intros o. rewrite (pending_at_insert o tasks i _ _ Hi).
      cbn [Parallel.pending]. rewrite count_if_head. lia. }
    pose proof (pending_at_lookup off tasks i _ Hi) as Hge.
    cbn [Parallel.pending] in Hge. rewrite count_if_head, Z.eqb_refl in Hge.
    pose proof (count_if_nonneg (Z.eqb off) rest) as Hrest.
    specialize (HT off).
    destruct (Hmem off v Hv) as [-> H0].
    rewrite fadd_one in Hst by lia.
    split.
    + intros j u Hj. destruct (Nat.eq_dec j i) as [->|Hne].
      * rewrite list_lookup_insert_eq in Hj by exact Hlt. now injection Hj as <-.
      * rewrite list_lookup_insert_ne in Hj by congruence. now apply (Hnone j).
    + intros o w Hw. rewrite (load_store _ _ _ _ _ Hst) in Hw. rewrite HP.
      destruct (Z.eqb_spec o off) as [->|Hne].
      * injection Hw as <-. split; [f_equal; lia|lia].
      * destruct (Hmem o w Hw) as [-> Hc]. split; [f_equal; lia|lia].
Qed.

(** ** Counting the increments of a cell *)

Lemma sum_over_indicator (b : bool) n theta :
  0 <= theta < n ->
  sum_over (range 0 n) (fun j => if (j =? theta) && b then 1 else 0) = if b then 1 else 0.
Proof.
  intros Ht. destruct b.
  - rewrite (sum_over_bump _ (fun _ => 0) _ theta).
    + rewrite sum_over_const, bool_decide_eq_true_2; [lia|]. apply elem_of_range. lia.
    + apply NoDup_range.
    + intros i _. now rewrite andb_true_r.
  - rewrite (sum_over_ext _ (fun _ => 0)); [rewrite sum_over_const; lia|].
    intros i _. now rewrite andb_false_r.
Qed.

Lemma count_if_mapM {A : Type} (f : Z -> option A) (h : A -> bool) (k : Z -> Z) idx l :
  mapM f idx = Some l ->
  (forall i a, i ∈ idx -> f i = Some a -> (if h a then 1 else 0) = k i) ->
  count_if h l = sum_over idx k.
Proof.
  intros Hmap. apply mapM_Some in Hmap.
  induction Hmap as [|i a idx l Hi _ IH]; intros Hk; [reflexivity|].
  rewrite sum_over_cons. cbn [count_if foldr]. fold (count_if h l).
  rewrite (Hk i a), IH; [reflexivity| |left|exact Hi].
  intros j b Hj. apply Hk. now right.
Qed.

Lemma count_if_mapM_join {A : Type} (f : Z -> option (list A)) (h : A -> bool)
    (k : Z -> Z) idx ls :
  mapM f idx = Some ls ->
  (forall i l, i ∈ idx -> f i = Some l -> count_if h l = k i) ->
  count_if h (mjoin ls) = sum_over idx k.
Proof.
  intros Hmap. apply mapM_Some in Hmap.
  induction Hmap as [|i l idx ls Hi _ IH]; intros Hk; [reflexivity|].
  rewrite sum_over_cons. change (mjoin (l :: ls)) with (l ++ mjoin ls).
  rewrite count_if_app, (Hk i l), IH; [reflexivity| |left|exact Hi].
  intros j b Hj. apply Hk. now right.
Qed.

Lemma count_if_bind_sum {A : Type} (g : Z -> list A) (h : A -> bool) idx :
  count_if h (idx ≫= g) = sum_over idx (fun i => count_if h (g i)).
Proof.
  induction idx as [|i idx IH]; [reflexivity|].
  change ((i :: idx) ≫= g) with (g i ++ (idx ≫= g)).
  now rewrite count_if_app, sum_over_cons, IH.
Qed.

Lemma pixel_targets_count g image y x l rho_index theta :
  cols (accum g) = thetaMax -> 0 <= theta < thetaMax ->
  Parallel.pixel_targets g image y (float_of_int (y - centerY g)) x = Some l ->
  count_if (Z.eqb (rho_index * thetaMax + theta)) l
  = count_if (hit g rho_index theta) (if is_edge image y x then [(x, y)] else []).
Proof.
  intros Hcols Ht. unfold Parallel.pixel_targets, is_edge.
  destruct (load (data image) _) as [p|]; [|discriminate]. cbn [mbind option_bind].
  destruct (p =? 0); cbn [negb]; [now intros [= <-]|].
  intros Hmap.
  rewrite (count_if_mapM _ _
             (fun j => if (j =? theta) && hit g rho_index theta (x, y) then 1 else 0)
             _ _ Hmap).
  - rewrite sum_over_indicator by exact Ht. cbn [count_if foldr]. lia.
  - intros j a Hj Ha. apply elem_of_range in Hj.
    destruct (rho_index_of g _ _ j) as [r|] eqn:Hr; [|discriminate].
    cbn [mbind option_bind] in Ha. injection Ha as <-.
    unfold at_, ptr. rewrite Hcols.
    destruct (Z.eqb_spec j theta) as [->|Hne]; cbn [andb].
    + unfold hit. cbn [fst snd]. rewrite Hr.
      destruct (Z.eqb_spec (rho_index * thetaMax + theta) (r * thetaMax + theta)),
               (Z.eqb_spec r rho_index); unfold thetaMax in *; (reflexivity || lia).
    + destruct (Z.eqb_spec (rho_index * thetaMax + theta) (r * thetaMax + j));
        unfold thetaMax in *; (reflexivity || lia).
Qed.

Lemma row_targets_count g image y l rho_index theta :
  cols (accum g) = thetaMax -> 0 <= theta < thetaMax ->
  Parallel.row_targets g image y = Some l ->
  count_if (Z.eqb (rho_index * thetaMax + theta)) l
  = count_if (hit g rho_index theta) (row_edges image y).
Proof.
  intros Hcols Ht. unfold Parallel.row_targets, row_edges.
  destruct (mapM _ _) as [ls|] eqn:Hmap; [|discriminate]. cbn [mbind option_bind].
  intros [= <-]. rewrite count_if_bind_sum.
  apply (count_if_mapM_join _ _ _ _ _ Hmap).
  intros x lx _ Hx. now apply pixel_targets_count.
Qed.

(** The number of increments of the cell [(rho_index, theta)] in the tasks
    of [init] is the number of edge pixels that vote for the cell. *)
Lemma targets_count g image targets rho_index theta :
  cols (accum g) = thetaMax -> 0 <= theta < thetaMax ->
  mapM (Parallel.row_targets g image) (range 0 (rows image)) = Some targets ->
  count_if (Z.eqb (rho_index * thetaMax + theta)) (mjoin targets)
  = votes_for g image rho_index theta.
Proof.
  intros Hcols Ht Hmap. unfold votes_for, edge_pixels. rewrite count_if_bind_sum.
  apply (count_if_mapM_join _ _ _ _ _ Hmap).
  intros y ly _ Hy. now apply row_targets_count.
Qed.

(** When the tasks of [init] are defined, so is the row index of every
    vote. *)
Lemma targets_defined g image targets x y theta :
  mapM (Parallel.row_targets g image) (range 0 (rows image)) = Some targets ->
  (x, y) ∈ edge_pixels image -> 0 <= theta < thetaMax ->
  exists rho_index,
    rho_index_of g (float_of_int (x - centerX g)) (float_of_int (y - centerY g)) theta
    = Some rho_index.
Proof.
  intros Hmap Hin Ht. apply elem_of_edge_pixels in Hin as (Hy & Hx & He).
  apply mapM_Some in Hmap.
  destruct (Forall2_lookup_l _ _ _ (Z.to_nat y) y Hmap) as (ly & _ & Hrow).
  { rewrite lookup_range by lia. f_equal. lia. }
  unfold Parallel.row_targets in Hrow.
  destruct (mapM _ (range 0 (cols image))) as [ls|] eqn:Hpix; [|discriminate].
  apply mapM_Some in Hpix.
  destruct (Forall2_lookup_l _ _ _ (Z.to_nat x) x Hpix) as (lx & _ & Hp).
  { rewrite lookup_range by lia. f_equal. lia. }
  unfold Parallel.pixel_targets in Hp. unfold is_edge in He.
  destruct (load (data image) _) as [p|]; [|discriminate]. cbn [mbind option_bind] in Hp.
  destruct (p =? 0); [discriminate|].
  apply mapM_Some in Hp.
  destruct (Forall2_lookup_l _ _ _ (Z.to_nat theta) theta Hp) as (o & _ & Ho).
  { rewrite lookup_range by (unfold thetaMax in *; lia). f_equal. lia. }
  destruct (rho_index_of g _ _ theta) as [r|]; [|discriminate]. now exists r.
Qed.

Lemma bind_pending_new (ts : list (list Z)) :
  ((fun l => Parallel.mkTask l None) <$> ts) ≫= Parallel.pending = mjoin ts.
Proof.
  induction ts as [|t ts IH]; [reflexivity|].
  change (t ++ (((fun l => Parallel.mkTask l None) <$> ts) ≫= Parallel.pending) = t ++ mjoin ts).
  now rewrite IH.
Qed.

Lemma pending_at_finished off tasks :
  forallb Parallel.finished tasks = true -> pending_at off tasks = 0.
Proof.
  unfold pending_at. induction tasks as [|t tasks IH]; [reflexivity|].
  cbn [forallb]. intros [Ht Hall]%andb_true_iff.
  change (count_if (Z.eqb off) (Parallel.pending t ++ (tasks ≫= Parallel.pending)) = 0).
  rewrite count_if_app, (IH Hall). unfold Parallel.finished in Ht.
  destruct (Parallel.pending t); [reflexivity|discriminate].
Qed.

Lemma count_if_pos {A : Type} (f : A -> bool) l a :
  a ∈ l -> f a = true -> 0 < count_if f l.
Proof.
  induction l as [|b l IH]; intros Hin Ha; [inversion Hin|].
  cbn [count_if foldr]. fold (count_if f l).
  pose proof (count_if_nonneg f l). apply elem_of_cons in Hin as [<-|Hin].
  - rewrite Ha. lia.
  - specialize (IH Hin Ha). destruct (f b); lia.
Qed.

(** [init] under a schedule of its row tasks that runs them to their end:
    every vote fell inside the histogram; no cell holds more votes than
    edge pixels vote for it, and none is empty when a pixel votes for it;
    when the increments are atomic, every cell holds exactly the number of
    pixels that vote for it. *)
Lemma parallel_init_inv this src schedule this' :
  Parallel.init this src schedule = Some this' ->
  exists g mem,
    init_geometry this (size src) (normalize src) = Some g /\
    this' = mkHough (cosines g) (sines g) (mkMat (rows (accum g)) thetaMax mem)
                    (rhoRange g) (centerX g) (centerY g) (imageSize g) /\
    length mem = Z.to_nat (rows (accum g) * thetaMax) /\
    (forall x y theta, (x, y) ∈ edge_pixels (normalize src) -> 0 <= theta < thetaMax ->
       exists r,
         rho_index_of g (float_of_int (x - centerX g)) (float_of_int (y - centerY g)) theta
         = Some r /\ 0 <= r < rows (accum g)) /\
    (edge_count (normalize src) < 2 ^ 24 ->
     forall rho_index theta, 0 <= rho_index < rows (accum g) -> 0 <= theta < thetaMax ->
       exists c,
         load mem (rho_index * thetaMax + theta) = Some (float_of_int c) /\
         0 <= c <= votes_for g (normalize src) rho_index theta /\
         (0 < votes_for g (normalize src) rho_index theta -> 0 < c) /\
         (atomic schedule -> c = votes_for g (normalize src) rho_index theta)).
Proof.
  unfold Parallel.init. set (image := normalize src). intros Hrun.
  destruct (init_geometry this (size src) image) as [g|] eqn:Hg; [|discriminate].
  cbn [mbind option_bind] in Hrun.
  destruct (mapM _ _) as [targets|] eqn:Hmap; [|discriminate].
  cbn [mbind option_bind] in Hrun.
  destruct (Parallel.run _ _ _) as [[mem tasks']|] eqn:Hsched; [|discriminate].
  cbn [mbind option_bind] in Hrun.
  destruct (forallb Parallel.finished tasks') eqn:Hfin; [|discriminate].
  injection Hrun as <-.
  apply init_geometry_Some in Hg as Hgeo. destruct Hgeo as (k & _ & _ & Hgv).
  assert (Hcols : cols (accum g) = thetaMax) by now rewrite Hgv.
  assert (Hrows : rows (accum g) = k * 2) by now rewrite Hgv.
  assert (Hmem0 : data (accum g) = replicate (Z.to_nat (k * 2 * thetaMax)) fzero)
    by now rewrite Hgv.
  set (tasks0 := (fun l => Parallel.mkTask l None) <$> targets) in *.
  set (T := fun off => count_if (Z.eqb off) (mjoin targets)).
  assert (HP0 : forall off, pending_at off tasks0 = T off).
  { intros off. unfold pending_at, tasks0. now rewrite bind_pending_new. }
  assert (HP1 : forall off, pending_at off tasks' = 0)
    by (intros off; now apply pending_at_finished).
  assert (HT : forall rho_index theta, 0 <= theta < thetaMax ->
            T (rho_index * thetaMax + theta) = votes_for g image rho_index theta).
  { intros rho_index theta Ht. now apply targets_count. }
  destruct (run_in_bounds T _ _ _ _ _ Hsched) as [Hlen Hin].
  { intros off Hoff. rewrite HP0 in Hoff. lia. }
  rewrite Hmem0, length_replicate in Hlen, Hin.
  exists g, mem. split; [reflexivity|]. rewrite Hcols, Hrows.
  split; [reflexivity|]. split; [exact Hlen|]. split.
  - intros x y theta Hxy Ht.
    destruct (targets_defined g image targets x y theta Hmap Hxy Ht) as (r & Hr).
    exists r. split; [exact Hr|].
    assert (Hhit : hit g r theta (x, y) = true)
      by (unfold hit; cbn [fst snd]; rewrite Hr; apply Z.eqb_refl).
    pose proof (count_if_pos _ _ _ Hxy Hhit) as Hpos. fold (votes_for g image r theta) in Hpos.
    specialize (Hin (r * thetaMax + theta)). rewrite HP1, HT in Hin by exact Ht.
    specialize (Hin Hpos). unfold thetaMax in *. lia.
  - intros HN rho_index theta Hrho Ht.
    assert (HTb : forall off, T off < 2 ^ 24).
    { intros off.
      replace off with (off / thetaMax * thetaMax + off mod thetaMax)
        by (pose proof (Z.div_mod off thetaMax ltac:(unfold thetaMax; lia)); lia).
      rewrite HT by (apply Z.mod_pos_bound; unfold thetaMax; lia).
      pose proof (count_if_bounds (hit g (off / thetaMax) (off mod thetaMax))
                    (edge_pixels image)) as Hb.
      unfold votes_for, edge_count in *. fold image in HN. lia. }
    assert (Hc0 : counted T (data (accum g)) tasks0).
    { split.
      - intros off v Hv. rewrite Hmem0 in Hv. apply load_Some in Hv as [_ Hv].
        apply lookup_replicate in Hv as [-> _].
        exists 0. rewrite HP0. split; [reflexivity|]. lia.
      - intros i t v Hi Hv. unfold tasks0 in Hi.
        apply list_lookup_fmap_Some in Hi as (l & -> & _). discriminate. }
    pose proof (run_counted T _ _ _ _ _ HTb Hsched Hc0) as [Hcells _].
    destruct (lookup_lt_is_Some_2 mem (Z.to_nat (rho_index * thetaMax + theta)))
      as [v Hv]; [unfold thetaMax in *; nia|].
    assert (Hload : load mem (rho_index * thetaMax + theta) = Some v)
      by (apply load_Some; split; [unfold thetaMax in *; nia|exact Hv]).
    destruct (Hcells _ _ Hload) as (c & -> & Hc & Hpos).
    rewrite HP1, HT, Z.sub_0_r in Hc, Hpos by exact Ht.
    exists c. split; [exact Hload|]. split; [exact Hc|]. split; [exact Hpos|].
    intros [order ->].
    assert (He0 : counted_exactly T (data (accum g)) tasks0).
    { split.
      - intros i t Hi. unfold tasks0 in Hi.
        apply list_lookup_fmap_Some in Hi as (l & -> & _). reflexivity.
      - intros off v Hv'. rewrite Hmem0 in Hv'. apply load_Some in Hv' as [_ Hv'].
        apply lookup_replicate in Hv' as [-> _]. rewrite HP0, Z.sub_diag.
        split; [reflexivity|lia]. }
    pose proof (run_counted_exactly T _ _ _ _ _ HTb Hsched He0) as [_ Hexact].
    destruct (Hexact _ _ Hload) as [Heq _].
    rewrite HP1, HT, Z.sub_0_r in Heq by exact Ht.
    pose proof (count_if_bounds (hit g rho_index theta) (edge_pixels image)) as Hb.
    fold (votes_for g image rho_index theta) in Hb. unfold edge_count in HN. fold image in HN.
    rewrite <- (votes_float_of_int c), <- (votes_float_of_int (votes_for g image rho_index theta))
      by lia.
    now rewrite Heq.
Qed.

Lemma sum_over_add idx (f g : Z -> Z) :
  sum_over idx (fun i => f i + g i) = sum_over idx f + sum_over idx g.
Proof.
  induction idx as [|i idx IH]; [reflexivity|]. rewrite !sum_over_cons, IH. lia.
Qed.

Lemma sum_over_le idx (f g : Z -> Z) :
  (forall i, i ∈ idx -> f i <= g i) -> sum_over idx f <= sum_over idx g.
Proof.
  induction idx as [|i idx IH]; intros Hle; [reflexivity|]. rewrite !sum_over_cons.
  specialize (Hle i ltac:(left)) as Hi.
  assert (sum_over idx f <= sum_over idx g) by (apply IH; intros j Hj; apply Hle; now right).
  lia.
Qed.

(** Every pixel whose vote at [theta] falls in a row of the histogram is
    counted in one cell of the column [theta]. *)
Lemma votes_for_column g (P : list (Z * Z)) R theta :
  (forall p, p ∈ P ->
     exists r, rho_index_of g (float_of_int (fst p - centerX g))
                              (float_of_int (snd p - centerY g)) theta = Some r /\
               0 <= r < R) ->
  sum_over (range 0 R) (fun rho_index => count_if (hit g rho_index theta) P)
  = Z.of_nat (length P).
Proof.
  induction P as [|p P IH]; intros Hin.
  - cbn [count_if foldr length]. rewrite sum_over_const. lia.
  - rewrite (sum_over_ext _ (fun rho_index => (if hit g rho_index theta p then 1 else 0)
                                               + count_if (hit g rho_index theta) P))
      by reflexivity.
    rewrite sum_over_add, IH by (intros q Hq; apply Hin; now right).
    destruct (Hin p ltac:(left)) as (r & Hr & Hb).
    rewrite (sum_over_ext _ (fun j => if (j =? r) && true then 1 else 0)).
    + rewrite sum_over_indicator by exact Hb. cbn [length]. lia.
    + intros j _. unfold hit. rewrite Hr, andb_true_r, (Z.eqb_sym r j). reflexivity.
Qed.

(** When [init] completes under some schedule of its row tasks, it
    completes when the rows run one after the other: which cells are
    incremented does not depend on the schedule. *)
Lemma parallel_init_defined this src schedule :
  length (data src) = Z.to_nat (rows src * cols src) ->
  defined (Parallel.init this src schedule) = true ->
  defined (init this src) = true.
Proof.
  intros Hlen Hdef.
  destruct (Parallel.init this src schedule) as [this'|] eqn:Hrun; [|discriminate].
  destruct (parallel_init_inv _ _ _ _ Hrun) as (g & mem & Hg & _ & _ & Hin & _).
  rewrite (init_defined_spec this src g Hlen Hg). apply votes_in_bounds_spec.
  intros y x theta Hy Hx He Ht. apply Hin; [|exact Ht].
  apply elem_of_edge_pixels. auto.
Qed.

(** X18. What [init] computes, under every schedule of its row tasks that
    runs them to their end. For an image with fewer than [2^24] edge
    pixels, the cell [(rho_index, theta)] of the histogram holds a whole
    number of votes, at most the number of edge pixels [(x, y)] for which
    lines 55-56 give that row index at that angle, and at least one when
    there is such a pixel: the unsynchronised increment of line 59 can lose
    votes and cannot invent one. When the increments are atomic (the task
    that reads a cell writes it before any other step), the cell holds
    exactly that number. *)
Theorem init_counts_votes this src schedule this' :
  edge_count (normalize src) < 2 ^ 24 ->
  Parallel.init this src schedule = Some this' ->
  forall rho_index theta,
    0 <= rho_index < rows (accum this') -> 0 <= theta < thetaMax ->
    exists c,
      cell (accum this') rho_index theta = float_of_int c /\
      0 <= c <= votes_for this' (normalize src) rho_index theta /\
      (0 < votes_for this' (normalize src) rho_index theta -> 0 < c) /\
      (atomic schedule -> c = votes_for this' (normalize src) rho_index theta).
Proof.
  intros HN Hrun rho_index theta Hrho Ht.
  destruct (parallel_init_inv _ _ _ _ Hrun) as (g & mem & Hg & -> & Hlen & _ & Hcells).
  cbn [accum rows] in Hrho.
  destruct (Hcells HN rho_index theta Hrho Ht) as (c & Hload & Hc).
  exists c. split; [|exact Hc].
  unfold cell, at_, ptr. cbn [accum cols data]. now rewrite Hload.
Qed.

Lemma init_counts_votes_witness :
  (exists this' c,
     Parallel.init Hough_ctor two_rows racy = Some this' /\
     cell (accum this') 0 0 = float_of_int c /\
     0 < c <= votes_for this' (normalize two_rows) 0 0) /\
  (exists this' c,
     Parallel.init Hough_ctor two_rows (Parallel.sequential [180; 180]%nat) = Some this' /\
     cell (accum this') 0 0 = float_of_int c /\
     c = votes_for this' (normalize two_rows) 0 0).
Proof.
  split.
  - assert (Hdef : defined (Parallel.init Hough_ctor two_rows racy) = true)
      by (rewrite Hough_ctor_tables; vm_compute; reflexivity).
    assert (Hrows : fmap (M := option) (fun h => rows (accum h))
                      (Parallel.init Hough_ctor two_rows racy) = Some 2)
      by (rewrite Hough_ctor_tables; vm_compute; reflexivity).
    destruct (Parallel.init Hough_ctor two_rows racy) as [this'|] eqn:Hrun;
      [|discriminate Hdef].
    cbn [fmap option_fmap option_map] in Hrows.
    assert (Hrows' : rows (accum this') = 2) by congruence.
    destruct (init_counts_votes Hough_ctor two_rows racy this'
                ltac:(vm_compute; reflexivity) Hrun 0 0)
      as (c & Hcell & Hc & Hpos & _); [rewrite Hrows'; lia|unfold thetaMax; lia|].
    exists this', c. split; [reflexivity|]. split; [exact Hcell|].
    split; [|apply Hc]. apply Hpos.
    destruct (votes_for this' (normalize two_rows) 0 0) eqn:Hv; [|reflexivity|lia].
    exfalso. revert Hv. clear Hcell Hc Hpos.
    assert (Hv : fmap (M := option) (fun h => votes_for h (normalize two_rows) 0 0)
                   (Parallel.init Hough_ctor two_rows racy) = Some 2)
      by (rewrite Hough_ctor_tables; vm_compute; reflexivity).
    rewrite Hrun in Hv. cbn [fmap option_fmap option_map] in Hv. congruence.
  - assert (Hdef : defined (Parallel.init Hough_ctor two_rows
                              (Parallel.sequential [180; 180]%nat)) = true)
      by (rewrite Hough_ctor_tables; vm_compute; reflexivity).
    assert (Hrows : fmap (M := option) (fun h => rows (accum h))
                      (Parallel.init Hough_ctor two_rows (Parallel.sequential [180; 180]%nat))
                    = Some 2)
      by (rewrite Hough_ctor_tables; vm_compute; reflexivity).
    destruct (Parallel.init Hough_ctor two_rows _) as [this'|] eqn:Hrun; [|discriminate Hdef].
    cbn [fmap option_fmap option_map] in Hrows.
    assert (Hrows' : rows (accum this') = 2) by congruence.
    destruct (init_counts_votes Hough_ctor two_rows _ this'
                ltac:(vm_compute; reflexivity) Hrun 0 0)
      as (c & Hcell & _ & _ & Hat); [rewrite Hrows'; lia|unfold thetaMax; lia|].
    exists this', c. split; [reflexivity|]. split; [exact Hcell|]. apply Hat.
    exists (replicate 180 0%nat ++ replicate 180 1%nat). vm_compute. reflexivity.
Defined.

(** X1. Every edge pixel casts one vote for every angle, under every
    schedule of the row tasks of [init] that runs them to their end. For an
    image with fewer than [2^24] edge pixels and every angle [theta], the
    numbers of pixels that vote for the cells of the column [theta] add up
    to the number of edge pixels; the votes that the column holds are
    between 0 and that number, and they are that number when the
    increments are atomic. *)
Theorem init_one_vote_per_angle this src schedule this' :
  edge_count (normalize src) < 2 ^ 24 ->
  Parallel.init this src schedule = Some this' ->
  forall theta, 0 <= theta < thetaMax ->
    sum_over (range 0 (rows (accum this')))
             (fun rho_index => votes_for this' (normalize src) rho_index theta)
    = edge_count (normalize src) /\
    0 <= column_votes (accum this') theta <= edge_count (normalize src) /\
    (atomic schedule -> column_votes (accum this') theta = edge_count (normalize src)).
Proof.
  intros HN Hrun theta Ht.
  destruct (parallel_init_inv _ _ _ _ Hrun) as (g & mem & Hg & -> & Hlen & Hin & Hcells).
  specialize (Hcells HN). set (image := normalize src) in *.
  cbn [accum rows]. set (R := rows (accum g)) in *.
  assert (Hsum : sum_over (range 0 R) (fun rho_index => votes_for g image rho_index theta)
                 = edge_count image).
  { unfold votes_for, edge_count. apply votes_for_column.
    intros [x y] Hp. cbn [fst snd]. now apply Hin. }
  assert (Hcell : forall i, i ∈ range 0 R ->
            exists c, votes (cell (mkMat R thetaMax mem) i theta) = c /\
                      0 <= c <= votes_for g image i theta /\
                      (atomic schedule -> c = votes_for g image i theta)).
  { intros i Hi. apply elem_of_range in Hi.
    destruct (Hcells i theta Hi Ht) as (c & Hload & Hc & _ & Hat).
    exists c. split; [|split; [exact Hc|exact Hat]].
    unfold cell, at_, ptr. cbn [cols data]. rewrite Hload. cbn [from_option id].
    apply votes_float_of_int.
    pose proof (count_if_bounds (hit g i theta) (edge_pixels image)) as Hb.
    unfold votes_for in Hc. unfold edge_count in HN. lia. }
  split; [exact Hsum|]. unfold column_votes. cbn [rows]. split; [split|].
  - apply sum_over_nonneg. intros i Hi. destruct (Hcell i Hi) as (c & -> & Hc & _). lia.
  - rewrite <- Hsum. apply sum_over_le.
    intros i Hi. destruct (Hcell i Hi) as (c & -> & Hc & _). lia.
  - intros Hat. rewrite <- Hsum. apply sum_over_ext.
    intros i Hi. destruct (Hcell i Hi) as (c & -> & _ & Heq). now apply Heq.
Qed.

Lemma init_one_vote_per_angle_witness :
  exists this',
    Parallel.init Hough_ctor two_rows racy = Some this' /\
    0 <= column_votes (accum this') 0 <= edge_count (normalize two_rows).
Proof.
  assert (Hdef : defined (Parallel.init Hough_ctor two_rows racy) = true)
    by (rewrite Hough_ctor_tables; vm_compute; reflexivity).
  destruct (Parallel.init Hough_ctor two_rows racy) as [this'|] eqn:Hrun; [|discriminate Hdef].
  destruct (init_one_vote_per_angle Hough_ctor two_rows racy this'
              ltac:(vm_compute; reflexivity) Hrun 0)
    as (_ & Hcol & _); [unfold thetaMax; lia|].
  exists this'. split; [reflexivity|exact Hcol].
Defined.

(** X8. When [init] completes. For an image whose data has [rows * cols]
    pixels, the run of [init] in which the rows follow one another
    completes exactly when lines 38-39 are defined ([rhoRange] and
    [rhoRange * 2] are [int], as they are for dimensions below [2^30]) and,
    for every edge pixel and every angle, the row index of line 56 is
    defined and lies in [0, 2 * rhoRange): the check that line 59 does not
    make. No schedule of the row tasks completes when that run does not:
    the cells that are incremented do not depend on the schedule. *)
Theorem init_defined_iff_votes_in_bounds this src :
  length (data src) = Z.to_nat (rows src * cols src) ->
  (defined (init this src) = true <->
   exists g,
     init_geometry this (size src) (normalize src) = Some g /\
     rows (accum g) = 2 * rhoRange g /\
     forall x y theta, (x, y) ∈ edge_pixels (normalize src) -> 0 <= theta < thetaMax ->
       exists rho_index,
         rho_index_of g (float_of_int (x - centerX g)) (float_of_int (y - centerY g)) theta
           = Some rho_index /\
         0 <= rho_index < 2 * rhoRange g) /\
  (forall schedule,
     defined (Parallel.init this src schedule) = true -> defined (init this src) = true) /\
  (0 <= rows src < 2 ^ 30 -> 0 <= cols src < 2 ^ 30 ->
   exists g, init_geometry this (size src) (normalize src) = Some g).
Proof.
  intros Hlen. split; [|split].
  - split.
    + intros Hdef.
      destruct (init_geometry this (size src) (normalize src)) as [g|] eqn:Hgeo.
      2:{ unfold init, init_on in Hdef. rewrite Hgeo in Hdef. discriminate. }
      rewrite (init_defined_spec this src g Hlen Hgeo), votes_in_bounds_spec in Hdef.
      apply init_geometry_Some in Hgeo as Hk. destruct Hk as (k & _ & _ & Hgv).
      assert (Hr : rows (accum g) = 2 * rhoRange g)
        by (rewrite Hgv; cbn [accum rows zeros rhoRange]; lia).
      exists g. split; [reflexivity|]. split; [exact Hr|].
      intros x y theta Hin Htheta. apply elem_of_edge_pixels in Hin as (Hy & Hx & He).
      rewrite <- Hr. now apply Hdef.
    + intros (g & Hgeo & Hr & Hall).
      rewrite (init_defined_spec this src g Hlen Hgeo), votes_in_bounds_spec.
      intros y x theta Hy Hx He Htheta. rewrite Hr. apply Hall; [|exact Htheta].
      apply elem_of_edge_pixels. auto.
  - intros schedule. now apply parallel_init_defined.
  - intros Hrows Hcols.
    destruct (init_geometry_defined this src Hrows Hcols) as (k & _ & _ & Hgeo). eauto.
Qed.

Lemma init_defined_iff_votes_in_bounds_witness :
  exists g,
    init_geometry Hough_ctor (size corner7) (normalize corner7) = Some g /\
    rho_index_of g (float_of_int (6 - centerX g)) (float_of_int (6 - centerY g)) 45 = Some 8 /\
    rows (accum g) = 8 /\
    defined (init Hough_ctor corner7) = false /\
    defined (Parallel.init Hough_ctor corner7 []) = false.
Proof.
  destruct (init_defined_iff_votes_in_bounds Hough_ctor corner7 eq_refl)
    as (Hdef & Hpar & Hgeo).
  destruct Hgeo as (g & Hg); [cbn; lia|cbn; lia|].
  exists g. split; [exact Hg|].
  assert (Hgv : g = mkHough cosines_table sines_table (zeros 8 thetaMax) 4 3 3 (mkSize 7 7)).
  { rewrite Hough_ctor_tables in Hg. vm_compute in Hg. injection Hg as <-. reflexivity. }
  split; [rewrite Hgv; vm_compute; reflexivity|]. split; [rewrite Hgv; reflexivity|].
  assert (Hseq : defined (init Hough_ctor corner7) = false).
  { destruct (defined (init Hough_ctor corner7)) eqn:Hd; [|reflexivity].
    destruct (proj1 Hdef eq_refl) as (g' & Hg' & _ & Hall).
    rewrite Hg in Hg'. injection Hg' as <-.
    destruct (Hall 6 6 45) as (rho & Hrho & Hb);
      [vm_compute; apply list_elem_of_here|unfold thetaMax; lia|].
    rewrite Hgv in Hrho, Hb. vm_compute in Hrho. injection Hrho as <-.
    cbn [rhoRange] in Hb. lia. }
  split; [exact Hseq|].
  destruct (defined (Parallel.init Hough_ctor corner7 [])) eqn:Hd; [|reflexivity].
  rewrite (Hpar [] Hd) in Hseq. discriminate Hseq.
Defined.

(** ** Float thresholds *)

(** A binary32 number, in the representation of [SpecFloat]: its mantissa
    has 24 digits, or fewer at the smallest exponent. *)
Lemma valid_binary_finite s m e :
  valid_binary 24 128 (S754_finite s m e) = true ->
  -149 <= e <= 104 /\
  (Zpos (digits2_pos m) = 24 \/ (e = -149 /\ Zpos (digits2_pos m) <= 24)).
Proof.
  cbn [valid_binary]. unfold bounded, canonical_mantissa, fexp, emin.
  intros [Hc He]%andb_true_iff. apply Z.eqb_eq in Hc. apply Z.leb_le in He. lia.
Qed.

Lemma sval_finite_pos m e : -149 <= e -> 0 < Zpos m * 2 ^ (e + 149).
Proof. intros He. assert (0 < 2 ^ (e + 149)) by (apply Z.pow_pos_nonneg; lia). lia. Qed.

(** Two binary32 numbers with different exponents compare as their
    exponents do. *)
Lemma valid_lt_exponent m1 e1 m2 e2 s1 s2 :
  valid_binary 24 128 (S754_finite s1 m1 e1) = true ->
  valid_binary 24 128 (S754_finite s2 m2 e2) = true ->
  e1 < e2 ->
  Zpos m1 * 2 ^ (e1 + 149) < Zpos m2 * 2 ^ (e2 + 149).
Proof.
  intros [He1 Hd1]%valid_binary_finite [He2 Hd2]%valid_binary_finite Hlt.
  pose proof (digits2_pos_bounds m1) as Hb1. pose proof (digits2_pos_bounds m2) as Hb2.
  assert (Hm1 : Zpos m1 < 2 ^ 24).
  { assert (2 ^ Zpos (digits2_pos m1) <= 2 ^ 24) by (apply Z.pow_le_mono_r; lia). lia. }
  assert (Hd2' : Zpos (digits2_pos m2) = 24) by lia.
  rewrite Hd2' in Hb2.
  replace (e2 + 149) with ((e2 - e1 - 1) + (e1 + 149 + 1)) by lia.
  rewrite (Z.pow_add_r 2 (e2 - e1 - 1) (e1 + 149 + 1)), (Z.pow_add_r 2 (e1 + 149) 1) by lia.
  assert (0 < 2 ^ (e2 - e1 - 1)) by (apply Z.pow_pos_nonneg; lia).
  assert (0 < 2 ^ (e1 + 149)) by (apply Z.pow_pos_nonneg; lia).
  change (2 ^ 1) with 2. change (2 ^ (24 - 1)) with 8388608 in Hb2.
  change (2 ^ 24) with 16777216 in Hm1.
  set (P := 2 ^ (e1 + 149)) in *. set (A := 2 ^ (e2 - e1 - 1)) in *.
  assert (Zpos m1 * P < 16777216 * P) by nia.
  assert (16777216 * P <= Zpos m2 * (P * 2)) by nia.
  assert (Zpos m2 * (P * 2) * 1 <= Zpos m2 * (P * 2) * A)
    by (apply Z.mul_le_mono_nonneg_l; lia).
  lia.
Qed.

(** The comparison of [SpecFloat] on binary32 numbers is the comparison of
    their values. *)
Lemma SFcompare_sval x y :
  valid_binary 24 128 x = true -> valid_binary 24 128 y = true ->
  is_finite x = true -> is_finite y = true ->
  SFcompare x y = Some (sval x ?= sval y).
Proof.
  intros Hx Hy Hfx Hfy.
  destruct x as [sx| | |sx mx ex], y as [sy| | |sy my ey]; try discriminate.
  - reflexivity.
  - pose proof (valid_binary_finite _ _ _ Hy) as [He _].
    pose proof (sval_finite_pos my ey ltac:(lia)).
    cbn [SFcompare sval]. f_equal. symmetry.
    destruct sy; cbn [cond_Zopp]; [apply Z.compare_gt_iff|apply Z.compare_lt_iff]; lia.
  - pose proof (valid_binary_finite _ _ _ Hx) as [He _].
    pose proof (sval_finite_pos mx ex ltac:(lia)).
    cbn [SFcompare sval]. f_equal. symmetry.
    destruct sx; cbn [cond_Zopp]; [apply Z.compare_lt_iff|apply Z.compare_gt_iff]; lia.
  - pose proof (valid_binary_finite _ _ _ Hx) as [Hex _].
    pose proof (valid_binary_finite _ _ _ Hy) as [Hey _].
    pose proof (sval_finite_pos mx ex ltac:(lia)) as Hpx.
    pose proof (sval_finite_pos my ey ltac:(lia)) as Hpy.
    assert (Hcmp : (match ex ?= ey with
                    | Eq => Pos.compare_cont Eq mx my | Lt => Lt | Gt => Gt end)
                   = (Zpos mx * 2 ^ (ex + 149) ?= Zpos my * 2 ^ (ey + 149))).
    { destruct (Z.compare_spec ex ey) as [->|Hlt|Hgt].
      - rewrite Pos.compare_cont_spec.
        replace (Pos.switch_Eq Eq (mx ?= my)%positive) with (Zpos mx ?= Zpos my)
          by (cbn [Z.compare]; now destruct (mx ?= my)%positive).
        assert (0 < 2 ^ (ey + 149)) by (apply Z.pow_pos_nonneg; lia).
        destruct (Z.compare_spec (Zpos mx) (Zpos my)) as [Heq|?|?]; symmetry.
        + apply Z.compare_eq_iff. now rewrite Heq.
        + apply Z.compare_lt_iff. nia.
        + apply Z.compare_gt_iff. nia.
      - symmetry. apply Z.compare_lt_iff. now apply (valid_lt_exponent mx ex my ey sx sy).
      - symmetry. apply Z.compare_gt_iff.
        now apply (valid_lt_exponent my ey mx ex sy sx). }
    cbn [SFcompare sval]. f_equal.
    destruct sx, sy; cbn [cond_Zopp].
    + transitivity (CompOpp (match ex ?= ey with
                             | Eq => Pos.compare_cont Eq mx my | Lt => Lt | Gt => Gt end));
        [now destruct (ex ?= ey)|].
      rewrite Hcmp, Z.compare_opp. symmetry. apply Z.compare_antisym.
    + symmetry. apply Z.compare_lt_iff. lia.
    + symmetry. apply Z.compare_gt_iff. lia.
    + exact Hcmp.
Qed.

Lemma fle_sval x y :
  valid_binary 24 128 x = true -> valid_binary 24 128 y = true ->
  is_finite x = true -> is_finite y = true ->
  fle x y = (sval x <=? sval y).
Proof.
  intros. unfold fle, SFleb. rewrite SFcompare_sval by assumption.
  unfold Z.leb. now destruct (sval x ?= sval y).
Qed.

Lemma flt_sval x y :
  valid_binary 24 128 x = true -> valid_binary 24 128 y = true ->
  is_finite x = true -> is_finite y = true ->
  flt x y = (sval x <? sval y).
Proof.
  intros. unfold flt, SFltb. rewrite SFcompare_sval by assumption.
  unfold Z.ltb. now destruct (sval x ?= sval y).
Qed.

(** A whole number below [2^24], as a float. *)
Lemma float_of_int_valid c :
  0 <= c < 2 ^ 24 ->
  valid_binary 24 128 (float_of_int c) = true /\ is_finite (float_of_int c) = true /\
  sval (float_of_int c) = c * 2 ^ 149.
Proof.
  intros Hc. destruct (float_of_int_small c) as [Hs Hv]; [lia|].
  split; [|split; [|exact Hv]].
  - destruct (float_of_int c) as [| | |s m e]; try reflexivity.
    cbn [small_float] in Hs. destruct Hs as [Hd He].
    cbn [valid_binary]. unfold bounded, canonical_mantissa, fexp, emin. rewrite Hd.
    apply andb_true_iff. split; [apply Z.eqb_eq|apply Z.leb_le]; lia.
  - destruct (float_of_int c); cbn [small_float] in Hs; (reflexivity || tauto).
Qed.

(** The test [accum >= thresh] on a cell that holds [c] votes, for a float
    threshold. *)
Lemma thresholded_cell thresh c :
  valid_binary 24 128 thresh = true -> 0 <= c < 2 ^ 24 ->
  (fle thresh fone = true ->
   (if fle thresh (float_of_int c) then float_of_int c else fzero) = float_of_int c) /\
  (forall N, c <= N < 2 ^ 24 -> flt (float_of_int N) thresh = true ->
   (if fle thresh (float_of_int c) then float_of_int c else fzero) = fzero) /\
  (is_finite thresh = true -> fle thresh (float_of_int c) = (sval thresh <=? c * 2 ^ 149)).
Proof.
  intros Hv Hc.
  destruct (float_of_int_valid c Hc) as (Hvc & Hfc & Hsc).
  destruct (float_of_int_valid 1 ltac:(lia)) as (Hv1 & Hf1 & Hs1).
  assert (Hfin : is_finite thresh = true ->
            fle thresh (float_of_int c) = (sval thresh <=? c * 2 ^ 149)).
  { intros Hf. rewrite fle_sval by assumption. now rewrite Hsc. }
  split; [|split; [|exact Hfin]].
  - intros Hle. destruct (Z.eq_dec c 0) as [->|Hne].
    { now destruct (fle thresh (float_of_int 0)). }
    destruct thresh as [st|st| |st mt et] eqn:Ht; try discriminate.
    + rewrite Hfin by reflexivity. rewrite fle_sval in Hle by (assumption || reflexivity).
      fold fone in Hs1. rewrite Hs1 in Hle. apply Z.leb_le in Hle.
      destruct (Z.leb_spec (sval (S754_zero st)) (c * 2 ^ 149)); [reflexivity|lia].
    + destruct st; [|vm_compute in Hle; discriminate Hle].
      clear Hfin Hvc Hsc. revert Hfc.
      destruct (float_of_int c) as [|[]| |]; intros Hfc; try discriminate Hfc; reflexivity.
    + rewrite Hfin by reflexivity. rewrite fle_sval in Hle by (assumption || reflexivity).
      fold fone in Hs1. rewrite Hs1 in Hle. apply Z.leb_le in Hle.
      destruct (Z.leb_spec (sval (S754_finite st mt et)) (c * 2 ^ 149)); [reflexivity|lia].
  - intros N HN Hlt.
    destruct (float_of_int_valid N ltac:(lia)) as (HvN & HfN & HsN).
    destruct thresh as [st|st| |st mt et] eqn:Ht.
    + rewrite Hfin by reflexivity. rewrite flt_sval in Hlt by (assumption || reflexivity).
      rewrite HsN in Hlt. apply Z.ltb_lt in Hlt.
      destruct (Z.leb_spec (sval (S754_zero st)) (c * 2 ^ 149)); [lia|reflexivity].
    + destruct st.
      { clear HvN HsN. revert HfN Hlt.
        destruct (float_of_int N); intros HfN Hlt; (discriminate HfN || discriminate Hlt). }
      clear Hfin Hvc Hsc. revert Hfc.
      destruct (float_of_int c) as [|[]| |]; intros Hfc; try discriminate Hfc; reflexivity.
    + clear HvN HsN. revert HfN Hlt.
      destruct (float_of_int N); intros HfN Hlt; (discriminate HfN || discriminate Hlt).
    + rewrite Hfin by reflexivity. rewrite flt_sval in Hlt by (assumption || reflexivity).
      rewrite HsN in Hlt. apply Z.ltb_lt in Hlt.
      destruct (Z.leb_spec (sval (S754_finite st mt et)) (c * 2 ^ 149)); [lia|reflexivity].
Qed.

(** X3. [getAccumulationMatrix] for a float threshold, after [init] under
    any schedule of its row tasks, on an image with fewer than [2^24] edge
    pixels. A threshold of at most 1 (0.5, a negative number, minus
    infinity) returns the histogram unchanged; a threshold above the number
    of edge pixels (plus infinity included) returns zeros; for a finite
    threshold a cell of [c] votes is kept when [thresh <= c] as numbers and
    is zero otherwise. *)
Theorem getAccumulationMatrix_thresholds this src schedule this' thresh :
  edge_count (normalize src) < 2 ^ 24 ->
  Parallel.init this src schedule = Some this' ->
  valid_binary 24 128 thresh = true ->
  (fle thresh fone = true -> getAccumulationMatrix this' thresh = accum this') /\
  (flt (float_of_int (edge_count (normalize src))) thresh = true ->
   getAccumulationMatrix this' thresh = zeros (rows (accum this')) thetaMax) /\
  (is_finite thresh = true ->
   forall rho_index theta,
     0 <= rho_index < rows (accum this') -> 0 <= theta < thetaMax ->
     exists c,
       cell (accum this') rho_index theta = float_of_int c /\
       0 <= c <= edge_count (normalize src) /\
       cell (getAccumulationMatrix this' thresh) rho_index theta
       = if sval thresh <=? c * 2 ^ 149 then float_of_int c else fzero).
Proof.
  intros HN Hrun Hv.
  destruct (parallel_init_inv _ _ _ _ Hrun) as (g & mem & Hg & -> & Hlen & _ & Hcells).
  specialize (Hcells HN). set (image := normalize src) in *.
  cbn [accum rows]. set (R := rows (accum g)) in *.
  pose proof (Zle_0_nat (length (edge_pixels image))) as HN0. fold (edge_count image) in HN0.
  assert (Hcell : forall rho_index theta, 0 <= rho_index < R -> 0 <= theta < thetaMax ->
            exists c, load mem (rho_index * thetaMax + theta) = Some (float_of_int c) /\
                      0 <= c <= edge_count image).
  { intros rho_index theta Hrho Ht.
    destruct (Hcells rho_index theta Hrho Ht) as (c & Hload & Hc & _).
    exists c. split; [exact Hload|].
    pose proof (count_if_bounds (hit g rho_index theta) (edge_pixels image)).
    unfold votes_for in Hc. unfold edge_count. lia. }
  assert (Helem : forall i v, mem !! i = Some v ->
            exists c, v = float_of_int c /\ 0 <= c <= edge_count image).
  { intros i v Hi. pose proof (lookup_lt_Some _ _ _ Hi) as Hlt. rewrite Hlen in Hlt.
    pose proof (Z.div_mod (Z.of_nat i) thetaMax ltac:(unfold thetaMax; lia)) as Hdm.
    pose proof (Z.mod_pos_bound (Z.of_nat i) thetaMax ltac:(unfold thetaMax; lia)) as Hm.
    destruct (Hcell (Z.of_nat i / thetaMax) (Z.of_nat i mod thetaMax)) as (c & Hload & Hc);
      [unfold thetaMax in *; nia|exact Hm|].
    replace (Z.of_nat i / thetaMax * thetaMax + Z.of_nat i mod thetaMax) with (Z.of_nat i)
      in Hload by lia.
    apply load_Some in Hload as [_ Hload]. rewrite Nat2Z.id, Hi in Hload.
    injection Hload as ->. now exists c. }
  unfold getAccumulationMatrix, copyTo_ge. cbn [accum rows cols data].
  split; [|split].
  - intros Hle. f_equal. apply list_eq. intros i. rewrite list_lookup_fmap.
    destruct (mem !! i) as [v|] eqn:Hi; cbn [fmap option_fmap option_map]; [|reflexivity].
    destruct (Helem i v Hi) as (c & -> & Hc). f_equal.
    now apply (proj1 (thresholded_cell thresh c Hv ltac:(lia))).
  - intros Hlt. unfold zeros. f_equal. apply list_eq. intros i. rewrite list_lookup_fmap.
    destruct (mem !! i) as [v|] eqn:Hi; cbn [fmap option_fmap option_map].
    + pose proof (lookup_lt_Some _ _ _ Hi) as Hi'. rewrite Hlen in Hi'.
      rewrite lookup_replicate_2 by exact Hi'.
      destruct (Helem i v Hi) as (c & -> & Hc). f_equal.
      apply (proj1 (proj2 (thresholded_cell thresh c Hv ltac:(lia))) (edge_count image));
        [lia|exact Hlt].
    + symmetry. apply lookup_replicate_None. apply lookup_ge_None in Hi. lia.
  - intros Hf rho_index theta Hrho Ht.
    destruct (Hcell rho_index theta Hrho Ht) as (c & Hload & Hc).
    exists c. unfold cell, at_, ptr. cbn [cols data]. rewrite load_fmap, Hload.
    cbn [fmap option_fmap option_map from_option id].
    split; [reflexivity|]. split; [exact Hc|].
    now rewrite (proj2 (proj2 (thresholded_cell thresh c Hv ltac:(lia))) Hf).
Qed.

Lemma getAccumulationMatrix_thresholds_witness :
  exists this',
    Parallel.init Hough_ctor two_rows racy = Some this' /\
    getAccumulationMatrix this' (S754_finite false 8388608 (-24)) = accum this' /\
    getAccumulationMatrix this' (S754_finite false 10485760 (-22))
    = zeros (rows (accum this')) thetaMax.
Proof.
  assert (Hdef : defined (Parallel.init Hough_ctor two_rows racy) = true)
    by (rewrite Hough_ctor_tables; vm_compute; reflexivity).
  destruct (Parallel.init Hough_ctor two_rows racy) as [this'|] eqn:Hrun; [|discriminate Hdef].
  assert (HN : edge_count (normalize two_rows) = 2) by (vm_compute; reflexivity).
  destruct (getAccumulationMatrix_thresholds Hough_ctor two_rows racy this'
              (S754_finite false 8388608 (-24)) ltac:(rewrite HN; reflexivity) Hrun eq_refl)
    as (Hlow & _ & _).
  destruct (getAccumulationMatrix_thresholds Hough_ctor two_rows racy this'
              (S754_finite false 10485760 (-22)) ltac:(rewrite HN; reflexivity) Hrun eq_refl)
    as (_ & Hhigh & _).
  exists this'. split; [reflexivity|].
  split; [apply Hlow; vm_compute; reflexivity|apply Hhigh; rewrite HN; vm_compute; reflexivity].
Defined.

(** ** The line conversion: which row, and the division by the sine *)
















